(** * GifCut: frame-asset streaming and caching pipeline

    A shallow embedding of the TypeScript front end of GifCut: the binary
    cache parsers and the disk-cache loader of [App.tsx], the preload cache
    of [GifPlayer.tsx], the extract-progress listener, workspace restore,
    the speed adjustment, the frame-rate preview and version selection.

    Conventions of the embedding:
    - a JavaScript string is the list of its code points ([list N]), which
      is what [Array.from(s)] iterates over;
    - a [Uint8Array] is a [list Z] of values in [0, 255];
    - a JavaScript exception is the [Throw] branch of [result];
    - a [Map] whose iteration order matters is an association list in
      insertion order; a [Map] used only for lookup is a [gmap]. *)

From Stdlib Require Import ZArith NArith List Lia Bool Ascii String.
From Stdlib Require Import DecimalString DecimalN Sorting.Sorted.
From stdpp Require Import base option list gmap.

Local Open Scope Z_scope.

(* ================================================================== *)
(** * Part I: the embedding                                            *)
(* ================================================================== *)

(** ** JavaScript strings *)

Abbreviation JsString := (list N).

(** A string literal, as its code points. *)
Definition js (s : string) : JsString :=
  map N_of_ascii (list_ascii_of_string s).

(** [String(n)] for a non-negative integer: its decimal digits. *)
Definition decimal (n : N) : JsString :=
  js (NilZero.string_of_uint (N.to_uint n)).

Definition isDigit (c : N) : bool := ((48 <=? c) && (c <=? 57))%N.

(** The character class [[0-9A-Za-z]]. *)
Definition isAlnum (c : N) : bool :=
  (isDigit c || ((65 <=? c) && (c <=? 90)) || ((97 <=? c) && (c <=? 122)))%N.

(** ASCII part of [String.prototype.toLowerCase]. *)
Definition lowerChar (c : N) : N :=
  if ((65 <=? c) && (c <=? 90))%N then (c + 32)%N else c.

Definition asciiLower (s : JsString) : JsString := map lowerChar s.

(** [s.includes(sub)] *)
Fixpoint isPrefix (p s : JsString) : bool :=
  match p, s with
  | [], _ => true
  | _ :: _, [] => false
  | a :: p', b :: s' => (a =? b)%N && isPrefix p' s'
  end.

Fixpoint includes (s sub : JsString) : bool :=
  isPrefix sub s ||
  match s with
  | [] => false
  | _ :: s' => includes s' sub
  end.

Definition strEqb (a b : JsString) : bool := bool_decide (a = b).

(** ** Exceptions *)

Inductive JsError : Type :=
  | RangeError        (* DataView read outside the buffer *)
  | InvalidStateError (* ImageData: length not a non-zero multiple of 4 *)
  | IndexSizeError    (* ImageData: dimensions do not fit the data *)
  | InvokeError.      (* a rejected backend command *)

Inductive result (A : Type) : Type :=
  | Ok (a : A)
  | Throw (e : JsError).
Arguments Ok {A} a.
Arguments Throw {A} e.

Definition rbind {A B} (m : result A) (k : A -> result B) : result B :=
  match m with
  | Ok a => k a
  | Throw e => Throw e
  end.

Notation "x <-! m ; k" := (rbind m (fun x => k))
  (at level 20, m at level 100, k at level 200, only parsing).

Definition isOk {A} (r : result A) : bool :=
  match r with Ok _ => true | Throw _ => false end.

(** ** Binary cache codec ([App.tsx], [_parseDelayBin], [_parsePreviewBin]) *)

(** [new Uint8Array(bin)] for [bin : number[]]: every element is taken
    modulo 256. *)
Definition Uint8Array_from (bin : list Z) : list Z :=
  map (fun x => x mod 256) bin.

(** [dv.getUint32(off, true)]: four bytes, little-endian; a [RangeError]
    when [off + 4] exceeds the view. *)
Definition getUint32 (dv : list Z) (off : nat) : result Z :=
  match dv !! off, dv !! (off + 1)%nat, dv !! (off + 2)%nat, dv !! (off + 3)%nat with
  | Some b0, Some b1, Some b2, Some b3 =>
      Ok (b0 + b1 * 2 ^ 8 + b2 * 2 ^ 16 + b3 * 2 ^ 24)
  | _, _, _, _ => Throw RangeError
  end.

(** The loop [for (let i = 0; i < count; i++) delays[i] = dv.getUint32(4 + i * 4, true)]
    with [n] iterations left. *)
Fixpoint parseDelay_loop (dv : list Z) (i n : nat) : result (list Z) :=
  match n with
  | O => Ok []
  | S n' =>
      d <-! getUint32 dv (4 + i * 4);
      ds <-! parseDelay_loop dv (S i) n';
      Ok (d :: ds)
  end.

Definition _parseDelayBin (bytes : list Z) : result (list Z) :=
  count <-! getUint32 bytes 0;
  parseDelay_loop bytes 0 (Z.to_nat count).

(** Modelled from the spec: the delay-table encoder (the front end only
    reads the table; its writer is not part of the sources). Layout,
    little-endian: [uint32 count], then [count] times [uint32 delayMs].
    First a single little-endian uint32. *)
Definition encodeUint32 (v : Z) : list Z :=
  [v mod 256; (v / 2 ^ 8) mod 256; (v / 2 ^ 16) mod 256; (v / 2 ^ 24) mod 256].

(** Modelled from the spec: [encodeDelays], the count followed by the
    delays. *)
Definition encodeDelays (delays : list Z) : list Z :=
  encodeUint32 (Z.of_nat (length delays)) ++ concat (map encodeUint32 delays).

Definition isUint32 (v : Z) : Prop := 0 <= v < 2 ^ 32.

Record ImageData : Type := mkImageData {
  id_data : list Z;
  id_width : Z;
  id_height : Z
}.

Record Canvas : Type := mkCanvas {
  cv_width : Z;
  cv_height : Z;
  cv_pixels : list Z
}.

Record GifFrame : Type := mkGifFrame {
  imageData : ImageData;
  delay : Z;
  index : nat;
  canvas : Canvas
}.

(** [new ImageData(data, sw, sh)] as the HTML standard defines it: the
    length must be a non-zero multiple of 4, the pixel count a multiple of
    [sw], and the resulting height must equal [sh]. *)
Definition new_ImageData (data : list Z) (sw sh : Z) : result ImageData :=
  let len := Z.of_nat (length data) in
  if (len =? 0) || negb (len mod 4 =? 0) then Throw InvalidStateError
  else if (sw =? 0) || negb ((len / 4) mod sw =? 0) then Throw IndexSizeError
  else if negb ((len / 4) / sw =? sh) then Throw IndexSizeError
  else Ok (mkImageData data sw sh).

(** [new ImageData(1, 1)] *)
Definition blankImageData : ImageData := mkImageData [0; 0; 0; 0] 1 1.

(** The frame loop of [_parsePreviewBin], [n] iterations left, at frame
    [i] and byte [offset]. [bytes.buffer.slice(a, a + len)] clamps to the
    end of the buffer: it is [take len (drop a bytes)]. *)
Fixpoint parsePreview_loop (bytes : list Z) (n i offset : nat)
  : result (list GifFrame * list Z) :=
  match n with
  | O => Ok ([], [])
  | S n' =>
      delay <-! getUint32 bytes offset;
      pw <-! getUint32 bytes (offset + 4);
      ph <-! getUint32 bytes (offset + 8);
      len <-! getUint32 bytes (offset + 12);
      let offset := (offset + 16)%nat in
      let raw := take (Z.to_nat len) (drop offset bytes) in
      id <-! new_ImageData raw pw ph;
      let previewCanvas := mkCanvas pw ph (id_data id) in
      let frame := mkGifFrame blankImageData delay i previewCanvas in
      rest <-! parsePreview_loop bytes n' (S i) (offset + Z.to_nat len);
      Ok (frame :: fst rest, delay :: snd rest)
  end.

Record PreviewCache : Type := mkPreviewCache {
  pc_frames : list GifFrame;
  pc_dims : Z * Z;
  pc_frameDelays : list Z
}.

Definition _parsePreviewBin (bytes : list Z) : result PreviewCache :=
  width <-! getUint32 bytes 0;
  height <-! getUint32 bytes 4;
  count <-! getUint32 bytes 8;
  out <-! parsePreview_loop bytes (Z.to_nat count) 0 12;
  Ok (mkPreviewCache (fst out) (width, height) (snd out)).

(** ** Cache file names ([_safeBaseFromPath]) *)

Definition isSep (c : N) : bool := ((c =? 47) || (c =? 92))%N.

(** [p.split(/[/\\]/).pop()]: what follows the last separator. *)
Definition lastSegment (p : JsString) : JsString :=
  fold_left (fun acc c => if isSep c then [] else acc ++ [c]) p [].

(** [s.replace(/\.[^/.]+$/, '')]: the leftmost position where a dot is
    followed, up to the end of the string, by one or more characters that
    are neither a slash nor a dot. *)
Fixpoint stripExt (s : JsString) : JsString :=
  match s with
  | [] => []
  | c :: rest =>
      if (c =? 46)%N && negb (bool_decide (rest = []))
         && forallb (fun x => negb ((x =? 47) || (x =? 46))%N) rest
      then []
      else c :: stripExt rest
  end.

Definition baseNameOf (p : JsString) : JsString :=
  let seg := lastSegment p in
  stripExt (if bool_decide (seg = []) then js "gif" else seg).

(** One character of the base name: kept when in [[0-9A-Za-z]], otherwise
    an underscore followed by the decimal code point. *)
Definition safeChar (cp : N) : JsString :=
  if isAlnum cp then [cp] else 95%N :: decimal cp.

Definition safeName (baseName : JsString) : JsString :=
  concat (map safeChar baseName).

Definition _safeBaseFromPath (p : JsString) : JsString :=
  safeName (baseNameOf p).

(** ** Disk cache loader ([_tryLoadDiskCaches]) *)

(** The backend commands the loader invokes; any of them may reject. *)
Record Backend : Type := mkBackend {
  path_exists : JsString -> result bool;
  get_file_size : JsString -> result Z;
  read_file_in_chunks : JsString -> result (list Z)
}.

Record LoadResult : Type := mkLoadResult {
  loadedPreview : option PreviewCache;
  loadedDelays : option (list Z)
}.

(** [_global_delay_cache.set(gifPath, delays); if (altPath) _global_delay_cache.set(altPath, delays)] *)
Definition cacheDelays (gifPath : JsString) (altPath : option JsString)
    (delays : list Z) (gdc : gmap JsString (list Z)) : gmap JsString (list Z) :=
  let gdc := <[gifPath := delays]> gdc in
  match altPath with
  | Some (c :: a) => <[(c :: a) := delays]> gdc
  | _ => gdc
  end.

(** The preview branch, lines 248-274. *)
Definition loadPreviewBranch (be : Backend) (doVerify : bool)
    (previewName previewHashName : JsString) : result (option PreviewCache) :=
  if doVerify then
    existsPH <-! path_exists be previewHashName;
    let phSize :=
      if existsPH then
        match get_file_size be previewHashName with
        | Ok sz => sz
        | Throw _ => 0
        end
      else 0 in
    if existsPH && (0 <? phSize) then
      bin <-! read_file_in_chunks be previewName;
      parsed <-! _parsePreviewBin (Uint8Array_from bin);
      Ok (Some parsed)
    else Ok None
  else
    bin <-! read_file_in_chunks be previewName;
    parsed <-! _parsePreviewBin (Uint8Array_from bin);
    Ok (Some parsed).

(** The delay branch, lines 276-301. *)
Definition loadDelayBranch (be : Backend) (doVerify : bool)
    (delayName delayHashName : JsString) : result (option (list Z)) :=
  if doVerify then
    existsDH <-! path_exists be delayHashName;
    let dhSize :=
      if existsDH then
        match get_file_size be delayHashName with
        | Ok sz => sz
        | Throw _ => 0
        end
      else 0 in
    if existsDH && (0 <? dhSize) then
      bin <-! read_file_in_chunks be delayName;
      delays <-! _parseDelayBin (Uint8Array_from bin);
      Ok (Some delays)
    else Ok None
  else
    bin <-! read_file_in_chunks be delayName;
    delays <-! _parseDelayBin (Uint8Array_from bin);
    Ok (Some delays).

(** The two artifacts of the disk cache and their files:
    [<workDir>/_<safeBase>_preview.bin], [<workDir>/_<safeBase>_delays.bin]
    and a [.sha256] sidecar for each. *)
Inductive Artifact : Type := PreviewBundle | DelayTable.

Definition dataName (art : Artifact) (workDirPath gifPath : JsString) : JsString :=
  workDirPath ++ js "/_" ++ _safeBaseFromPath gifPath ++
  match art with
  | PreviewBundle => js "_preview.bin"
  | DelayTable => js "_delays.bin"
  end.

Definition hashName (art : Artifact) (workDirPath gifPath : JsString) : JsString :=
  workDirPath ++ js "/_" ++ _safeBaseFromPath gifPath ++
  match art with
  | PreviewBundle => js "_preview.sha256"
  | DelayTable => js "_delays.sha256"
  end.

(** The body of the [try] block. The global delay cache is written only
    as the last effect of the delay branch, so a throw leaves it as it
    was. *)
Definition tryLoad_body (be : Backend) (gdc : gmap JsString (list Z))
    (workDirPath gifPath : JsString) (altPath : option JsString)
    (verify : option bool) : result (LoadResult * gmap JsString (list Z)) :=
  let previewName := dataName PreviewBundle workDirPath gifPath in
  let delayName := dataName DelayTable workDirPath gifPath in
  let previewHashName := hashName PreviewBundle workDirPath gifPath in
  let delayHashName := hashName DelayTable workDirPath gifPath in
  existsPreview <-! path_exists be previewName;
  existsDelay <-! path_exists be delayName;
  let doVerify := negb (bool_decide (verify = Some false)) in
  loadedPreview <-!
    (if existsPreview
     then loadPreviewBranch be doVerify previewName previewHashName
     else Ok None);
  loadedDelays <-!
    (if existsDelay
     then loadDelayBranch be doVerify delayName delayHashName
     else Ok None);
  let gdc' :=
    match loadedDelays with
    | Some delays => cacheDelays gifPath altPath delays gdc
    | None => gdc
    end in
  Ok (mkLoadResult loadedPreview loadedDelays, gdc').

(** [try { ... } catch (e) { return { loadedPreview: null, loadedDelays: null } }] *)
Definition _tryLoadDiskCaches (be : Backend) (gdc : gmap JsString (list Z))
    (workDirPath gifPath : JsString) (altPath : option JsString)
    (verify : option bool) : LoadResult * gmap JsString (list Z) :=
  match tryLoad_body be gdc workDirPath gifPath altPath verify with
  | Ok r => r
  | Throw _ => (mkLoadResult None None, gdc)
  end.

(** A backend over a finite file system, for concrete scenarios. *)
Definition fsBackend (fs : gmap JsString (list Z)) : Backend :=
  mkBackend
    (fun p => Ok (bool_decide (is_Some (fs !! p))))
    (fun p => match fs !! p with
              | Some b => Ok (Z.of_nat (length b))
              | None => Throw InvokeError
              end)
    (fun p => match fs !! p with
              | Some b => Ok b
              | None => Throw InvokeError
              end).

(** Whether the load returned an artifact. *)
Definition loaded (art : Artifact) (r : LoadResult) : bool :=
  match art with
  | PreviewBundle => bool_decide (is_Some (loadedPreview r))
  | DelayTable => bool_decide (is_Some (loadedDelays r))
  end.

(** The sidecar exists and is not empty. *)
Definition sidecarValid (be : Backend) (hash : JsString) : Prop :=
  path_exists be hash = Ok true /\ exists sz, get_file_size be hash = Ok sz /\ 0 < sz.

(** A count that promises more than the buffer holds: delay entries of
    4 bytes after a 4-byte header. A buffer too short for its header
    counts as well. *)
Definition delayOverrun (bytes : list Z) : bool :=
  match getUint32 bytes 0 with
  | Ok count => Z.of_nat (length bytes) <? 4 + 4 * count
  | Throw _ => true
  end.

(** Whether the frames laid out from [offset], [n] of them left, run past
    the end of the buffer: a frame header of 16 bytes that is not all
    there, or a [byteLength] that promises more pixel bytes than remain.
    One overrun is not counted: that of the last frame when the bytes that
    remain are exactly the [4 * width * height] bytes of its header. *)
Fixpoint frameOverrun (bytes : list Z) (n offset : nat) : bool :=
  match n with
  | O => false
  | S n' =>
      match getUint32 bytes (offset + 4), getUint32 bytes (offset + 8),
            getUint32 bytes (offset + 12) with
      | Ok pw, Ok ph, Ok len =>
          let remaining := Z.of_nat (length bytes) - Z.of_nat (offset + 16) in
          if remaining <? len
          then negb (bool_decide (n' = O) && (0 <? remaining) && (remaining =? 4 * pw * ph))
          else frameOverrun bytes n' (offset + 16 + Z.to_nat len)
      | _, _, _ => true
      end
  end.

(** A preview bundle whose length prefixes promise more than the buffer
    holds: a frame count with more 16-byte frame headers than fit after
    the 12-byte header, or a frame that overruns in the sense of
    [frameOverrun]. *)
Definition previewOverrun (bytes : list Z) : bool :=
  match getUint32 bytes 8 with
  | Ok count =>
      (Z.of_nat (length bytes) <? 12 + 16 * count)
      || frameOverrun bytes (Z.to_nat count) 12
  | Throw _ => true
  end.

Definition overrun (art : Artifact) (bytes : list Z) : bool :=
  match art with
  | PreviewBundle => previewOverrun bytes
  | DelayTable => delayOverrun bytes
  end.

Definition decodes (art : Artifact) (bytes : list Z) : bool :=
  match art with
  | PreviewBundle => isOk (_parsePreviewBin bytes)
  | DelayTable => isOk (_parseDelayBin bytes)
  end.

(** ** Preload cache of the player ([GifPlayer.tsx]) *)

Record HTMLImageElement : Type := mkImage { img_src : JsString }.

(** [Map<number, HTMLImageElement>]: keys in insertion order. *)
Abbreviation ImageMap := (list (nat * HTMLImageElement)).

Definition map_get (k : nat) (m : ImageMap) : option HTMLImageElement :=
  snd <$> find (fun e => bool_decide (fst e = k)) m.

Definition map_has (k : nat) (m : ImageMap) : bool :=
  bool_decide (is_Some (map_get k m)).

(** [m.set(k, v)]: an existing key keeps its position, a new key goes
    last. *)
Fixpoint map_set (k : nat) (v : HTMLImageElement) (m : ImageMap) : ImageMap :=
  match m with
  | [] => [(k, v)]
  | (k', v') :: m' =>
      if bool_decide (k' = k) then (k, v) :: m' else (k', v') :: map_set k v m'
  end.

Definition map_delete (k : nat) (m : ImageMap) : ImageMap :=
  filter (fun e => fst e ≠ k) m.

(** [m.keys().next().value] *)
Definition map_firstKey (m : ImageMap) : option nat := fst <$> head m.

Record Player : Type := mkPlayer {
  preloadCache : ImageMap;
  preloading : list nat;
  revoked : list JsString      (* every [URL.revokeObjectURL] call, in order *)
}.

Definition emptyPlayer : Player := mkPlayer [] [] [].

(** [img.onload] of [preloadFrames], lines 105-119: insert, then evict the
    first key when the size exceeds 20. *)
Definition preload_onload (frameIdx : nat) (img : HTMLImageElement)
    (p : Player) : Player :=
  let cache := map_set frameIdx img (preloadCache p) in
  if (20 <? length cache)%nat then
    match map_firstKey cache with
    | Some firstKey =>
        let revoked' :=
          match map_get firstKey cache with
          | Some oldImg =>
              if isPrefix (js "blob:") (img_src oldImg)
              then revoked p ++ [img_src oldImg]
              else revoked p
          | None => revoked p
          end in
        mkPlayer (map_delete firstKey cache) (preloading p) revoked'
    | None => mkPlayer cache (preloading p) (revoked p)
    end
  else mkPlayer cache (preloading p) (revoked p).

(** [img.onload] of [renderFrame], line 193: insert only. *)
Definition render_onload (currentFrame : nat) (img : HTMLImageElement)
    (p : Player) : Player :=
  mkPlayer (map_set currentFrame img (preloadCache p)) (preloading p) (revoked p).

(** The unmount cleanup, lines 270-280. *)
Definition player_unmount (p : Player) : Player :=
  let urls :=
    map (fun e => img_src (snd e))
      (filter (fun e => isPrefix (js "blob:") (img_src (snd e)) = true)
         (preloadCache p)) in
  mkPlayer [] (preloading p) (revoked p ++ urls).

(** What [renderFrame] draws first when a frame directory is set: the
    cached image of [currentFrame], whatever directory it was loaded
    from. *)
Definition renderFrame_cached (currentFrame : nat) (p : Player)
  : option HTMLImageElement :=
  map_get currentFrame (preloadCache p).

Inductive CacheInsert : Type :=
  | ByPreload (frameIdx : nat) (img : HTMLImageElement)
  | ByRender (currentFrame : nat) (img : HTMLImageElement).

Definition cache_insert (p : Player) (e : CacheInsert) : Player :=
  match e with
  | ByPreload i img => preload_onload i img p
  | ByRender i img => render_onload i img p
  end.

Definition run_inserts (es : list CacheInsert) (p : Player) : Player :=
  fold_left cache_insert es p.

(** The blob URL the browser hands out for the [n]-th created object. *)
Definition blobUrl (n : nat) : JsString := js "blob:" ++ decimal (N.of_nat n).

Definition frameImage (n : nat) : HTMLImageElement := mkImage (blobUrl n).

(** ** Extraction progress and auto-pause ([App.tsx], lines 1019-1061) *)

(** The backend commands that the log [invoked] records: those that
    start, stop or feed an extraction. Queries (file sizes, directory
    listings, existence checks) are answered by the environment and are
    not logged. *)
Inductive BackendCmd : Type :=
  | pause_extraction
  | resume_extraction
  | cancel_extraction
  | init_work_dir
  | read_file_to_workdir (src : JsString)
  | parse_gif_preview (gifPath : JsString)
  | extract_fullframes_background (gifPath : JsString)
  | extract_previews_background (gifPath : JsString)
  | get_gif_stats (gifPath : JsString).

Inductive Stage : Type := fullframes | previews | otherStage.

Record ExtractProgress : Type := mkProgress {
  ep_fullframes : Z * Z;     (* current, total *)
  ep_previews : Z * Z
}.

Definition progress0 : ExtractProgress := mkProgress (0, 0) (0, 0).

Record ExtractUi : Type := mkExtractUi {
  autoPauseTriggeredRef : bool;   (* the ref object of the listener effect *)
  isExtractPaused : bool;
  hasAutoPassedOnce : bool;       (* the state behind [setHasAutoPassedOnce] *)
  extractProgress : ExtractProgress;
  invoked : list BackendCmd       (* commands sent to the backend, in order *)
}.

(** The state when the listener effect has just been set up. *)
Definition extractUi0 : ExtractUi := mkExtractUi false false false progress0 [].

(** The condition of the listener's [if], line 1039. *)
Definition autoPauseDue (current total : Z) (u : ExtractUi) : bool :=
  (1000 <? total) && (1000 <=? current) && negb (autoPauseTriggeredRef u).

(** The [extract-progress] listener. *)
Definition on_extract_progress (stage : Stage) (current total : Z)
    (u : ExtractUi) : ExtractUi :=
  let prog :=
    match stage with
    | fullframes => mkProgress (current, total) (ep_previews (extractProgress u))
    | previews => mkProgress (ep_fullframes (extractProgress u)) (current, total)
    | otherStage => extractProgress u
    end in
  if autoPauseDue current total u then
    mkExtractUi true true true prog (invoked u ++ [pause_extraction])
  else
    mkExtractUi (autoPauseTriggeredRef u) (isExtractPaused u)
      (hasAutoPassedOnce u) prog (invoked u).

(** The prologue of [handleLoadGif] and [loadWorkspaceFromPath]
    (lines 1475-1481 and 1895-1900): a new job is about to start. *)
Definition on_new_job (u : ExtractUi) : ExtractUi :=
  mkExtractUi (autoPauseTriggeredRef u) false false progress0 (invoked u).

(** The pause/resume button, lines 4251-4262. *)
Definition on_toggle_pause (u : ExtractUi) : ExtractUi :=
  let newPaused := negb (isExtractPaused u) in
  mkExtractUi (autoPauseTriggeredRef u) newPaused (hasAutoPassedOnce u)
    (extractProgress u)
    (invoked u ++ [if newPaused then pause_extraction else resume_extraction]).

Inductive UiEvent : Type :=
  | Progress (stage : Stage) (current total : Z)
  | NewJob
  | TogglePause.

Definition ui_step (u : ExtractUi) (e : UiEvent) : ExtractUi :=
  match e with
  | Progress s c t => on_extract_progress s c t u
  | NewJob => on_new_job u
  | TogglePause => on_toggle_pause u
  end.

Definition ui_run (es : list UiEvent) (u : ExtractUi) : ExtractUi :=
  fold_left ui_step es u.

(** How many events of a run made the listener pause the extraction by
    itself. *)
Fixpoint autoPauseCount (es : list UiEvent) (u : ExtractUi) : nat :=
  match es with
  | [] => 0
  | e :: es' =>
      (match e with
       | Progress _ c t => if autoPauseDue c t u then 1 else 0
       | _ => 0
       end + autoPauseCount es' (ui_step u e))%nat
  end.

(** ** Workspace restore ([loadWorkspaceFromPath], lines 1909-2065) *)

(** The string operations of the platform that the restore relies on:
    Unicode normalisation, lower-casing and the locale's collation. *)
Class StringOps : Type := mkStringOps {
  normalize : JsString -> JsString;
  toLowerCase : JsString -> JsString;
  localeCompare : JsString -> JsString -> Z
}.

(** An instance for concrete runs on ASCII names, where normalisation is
    the identity and lower-casing is [asciiLower]. Its collation is the
    code-point order, which is that of the locale only among names of one
    letter case. The theorems are stated for every [StringOps]; this
    instance serves their concrete runs. *)
Fixpoint codePointCompare (a b : JsString) : Z :=
  match a, b with
  | [], [] => 0
  | [], _ :: _ => -1
  | _ :: _, [] => 1
  | x :: a', y :: b' =>
      if (x <? y)%N then -1 else if (y <? x)%N then 1 else codePointCompare a' b'
  end.

Definition asciiOps : StringOps := mkStringOps (fun s => s) asciiLower codePointCompare.

Record FileEntry : Type := mkEntry {
  fe_name : JsString;
  fe_path : JsString;
  fe_isDir : bool            (* [entry.children] is set *)
}.

Fixpoint endsWith (s suffix : JsString) : bool :=
  bool_decide (s = suffix) ||
  match s with
  | [] => false
  | _ :: s' => endsWith s' suffix
  end.

(** The file-name sanitiser [name.replace(/[...]/g, '_')]: slash,
    backslash, colon, asterisk, question mark, double quote, angle
    brackets and the vertical bar become underscores. *)
Definition isUnsafeChar (c : N) : bool :=
  bool_decide (c ∈ [47; 92; 58; 42; 63; 34; 60; 62; 124]%N).

Definition sanitize (s : JsString) : JsString :=
  map (fun c => if isUnsafeChar c then 95%N else c) s.

Section Restore.
Context `{StringOps}.

(** Line 1909: the GIF files of the directory. *)
Definition gifEntriesOf (entries : list FileEntry) : list FileEntry :=
  filter (fun e =>
            negb (bool_decide (fe_name e = [])) &&
            endsWith (toLowerCase (fe_name e)) (js ".gif") &&
            negb (fe_isDir e) &&
            negb (includes (fe_name e) (js "_temp_")) = true) entries.

(** The predicate of [allGifEntries.find] in [matchEntryByName]. *)
Definition nameMatches (target : JsString) (e : FileEntry) : bool :=
  let normalizedTarget := normalize target in
  let lowerTarget := toLowerCase normalizedTarget in
  let safeTarget := sanitize normalizedTarget in
  let name := normalize (fe_name e) in
  let lower := toLowerCase name in
  let safe := sanitize name in
  strEqb name normalizedTarget || strEqb lower lowerTarget || strEqb safe safeTarget.

Definition matchEntryByName (allGifEntries : list FileEntry) (target : JsString)
  : option FileEntry :=
  find (nameMatches target) allGifEntries.

(** Lines 1996-2015: the entries to load. *)
Definition selectEntries (allGifEntries : list FileEntry) (fileOrder : list JsString)
  : list FileEntry :=
  match fileOrder with
  | _ :: _ => omap (matchEntryByName allGifEntries) fileOrder
  | [] =>
      filter (fun e =>
                let n := toLowerCase (fe_name e) in
                negb (includes n (js "temp_color_restored")) &&
                negb (includes n (js "temp_unoptimized")) = true) allGifEntries
  end.

(** [fileOrder.indexOf(x)] and [fileOrder.findIndex(f => p f)], with
    [None] for -1. *)
Fixpoint findIndex (p : JsString -> bool) (l : list JsString) : option nat :=
  match l with
  | [] => None
  | f :: l' => if p f then Some O else S <$> findIndex p l'
  end.

Definition orElse {A} (a b : option A) : option A :=
  match a with Some _ => a | None => b end.

(** The position the comparator gives an entry name, lines 2039-2042. *)
Definition orderIndex (fileOrder : list JsString) (rawName : JsString) : option nat :=
  let nameA := normalize rawName in
  let safeNameA := sanitize nameA in
  let lowerNameA := toLowerCase nameA in
  orElse (findIndex (fun f => strEqb f nameA) fileOrder)
    (orElse (findIndex (fun f => strEqb (normalize f) nameA) fileOrder)
       (orElse (findIndex (fun f => strEqb f safeNameA) fileOrder)
          (findIndex (fun f => strEqb (toLowerCase f) lowerNameA) fileOrder))).

(** The comparator of [gifEntries.sort], lines 2029-2065. *)
Definition compareEntries (fileOrder : list JsString) (a b : FileEntry) : Z :=
  match orderIndex fileOrder (fe_name a), orderIndex fileOrder (fe_name b) with
  | Some indexA, Some indexB => Z.of_nat indexA - Z.of_nat indexB
  | Some _, None => -1
  | None, Some _ => 1
  | None, None => localeCompare (normalize (fe_name a)) (normalize (fe_name b))
  end.

(** [Array.prototype.sort] is stable; with a comparator that is a total
    preorder every stable sort gives the same array, here by insertion. *)
Fixpoint insertSorted (cmp : FileEntry -> FileEntry -> Z) (x : FileEntry)
    (l : list FileEntry) : list FileEntry :=
  match l with
  | [] => [x]
  | y :: l' => if cmp x y <=? 0 then x :: y :: l' else y :: insertSorted cmp x l'
  end.

Definition stableSort (cmp : FileEntry -> FileEntry -> Z) (l : list FileEntry)
  : list FileEntry :=
  foldr (insertSorted cmp) [] l.

(** The entries the restore loads, in loading order. An empty selection
    ends the restore with the "no GIFs found" alert. *)
Definition restoreOrder (entries : list FileEntry) (fileOrder : list JsString)
  : list FileEntry :=
  let allGifEntries := gifEntriesOf entries in
  let gifEntries := selectEntries allGifEntries fileOrder in
  stableSort (compareEntries fileOrder) gifEntries.

(** Each persisted name that resolves to a file is found again, at its own
    position, when the comparator looks the file's name up in the order. *)
Fixpoint keysAgreeFrom (allGifEntries : list FileEntry) (fileOrder : list JsString)
    (k : nat) (names : list JsString) : bool :=
  match names with
  | [] => true
  | n :: names' =>
      match matchEntryByName allGifEntries n with
      | Some e => bool_decide (orderIndex fileOrder (fe_name e) = Some k)
      | None => true
      end && keysAgreeFrom allGifEntries fileOrder (S k) names'
  end.
End Restore.

(** ** Speed adjustment ([generatePreviewGif] lines 1271-1296 and
       [applyChanges] lines 3375-3403, the same code twice) *)

(** [Math.round(d * (targetSum / currentRangeSum))] in IEEE-754 doubles,
    as an integer. *)
Class Float64 : Type := mkFloat64 {
  roundScaled : Z -> Z -> Z -> Z
}.

(** Rounding half up of the exact quotient. It is what the doubles give
    whenever the ratio and the products are exactly representable. *)
Definition exactRounding : Float64 :=
  mkFloat64 (fun d t c => (2 * d * t + c) / (2 * c)).

(** [l.slice(a, b)] for [0 <= a]. *)
Definition slice {A} (a b : nat) (l : list A) : list A := take (b - a) (drop a l).

Definition sumZ (l : list Z) : Z := foldr Z.add 0 l.

Definition rangeSum (rangeStart rangeEnd : nat) (l : list Z) : Z :=
  sumZ (slice rangeStart (rangeEnd + 1) l).

Definition inRange (rangeStart rangeEnd i : nat) : bool :=
  (rangeStart <=? i)%nat && (i <=? rangeEnd)%nat.

Section Speed.
Context `{Float64}.

(** The [map] of lines 1276-1281. *)
Definition scaleDelays (frameDelays : list Z) (rangeStart rangeEnd : nat)
    (targetSum currentRangeSum : Z) : list Z :=
  imap (fun i d =>
          if inRange rangeStart rangeEnd i
          then Z.max 10 (roundScaled d targetSum currentRangeSum)
          else d) frameDelays.

(** The inner [for] of lines 1288-1293 at index [i], with [n] indices
    left up to [rangeEnd]. An index beyond the array would store [NaN]
    and is outside the integer model ([None]). *)
Fixpoint pass_loop (dir : Z) (n i : nat) (frameDelays : list Z) (diff : Z)
  : option (list Z * Z) :=
  match n with
  | O => Some (frameDelays, diff)
  | S n' =>
      if 0 <? diff then
        match frameDelays !! i with
        | None => None
        | Some v =>
            let nd := v + dir in
            if (dir <? 0) && (nd <? 10)
            then pass_loop dir n' (S i) frameDelays diff
            else pass_loop dir n' (S i) (<[i := nd]> frameDelays) (diff - 1)
        end
      else Some (frameDelays, diff)
  end.

(** The outer [for (pass = 0; pass < 2 && diff > 0; pass++)]. *)
Definition distribute (dir : Z) (rangeStart rangeEnd : nat)
    (frameDelays : list Z) (diff : Z) : option (list Z * Z) :=
  let n := (rangeEnd + 1 - rangeStart)%nat in
  r ← pass_loop dir n rangeStart frameDelays diff;
  pass_loop dir n rangeStart (fst r) (snd r).

Definition adjustSpeed (frames : list Z) (rangeStart rangeEnd : nat)
    (rangeTargetDuration : Z) : option (list Z) :=
  let frameDelays := frames in
  let currentRangeSum := rangeSum rangeStart rangeEnd frames in
  let targetSum := rangeTargetDuration in
  if (0 <? targetSum) && negb (targetSum =? currentRangeSum) then
    let frameDelays :=
      scaleDelays frameDelays rangeStart rangeEnd targetSum currentRangeSum in
    let newRangeSum := rangeSum rangeStart rangeEnd frameDelays in
    let diff := targetSum - newRangeSum in
    if negb (diff =? 0) then
      let dir := if 0 <? diff then 1 else -1 in
      fst <$> distribute dir rangeStart rangeEnd frameDelays (Z.abs diff)
    else Some frameDelays
  else Some frameDelays.
End Speed.

(** How much of a residual the two passes can absorb: one or two
    milliseconds per frame, and no frame goes below 10 ms. *)
Definition passCapacity (dir : Z) (seg : list Z) : Z :=
  if 0 <? dir then 2 * Z.of_nat (length seg)
  else sumZ (map (fun v => Z.min 2 (Z.max 0 (v - 10))) seg).

(** ** Frame-rate preview ([fpsPreview], lines 347-442) *)

Inductive FpsOut : Type :=
  | Kept (currentDelay : Z)          (* a frame at or above the threshold *)
  | Merged (accumulatedDelay : Z).   (* a group of fast frames *)

(** What is pushed on [newDelays]. *)
Definition pushed (o : FpsOut) : Z :=
  match o with
  | Kept d => d
  | Merged acc => Z.min acc 65535
  end.

(** The [for (j = 1; j < fpsKeepInterval && i + j < frames.length; j++)]
    loop with [steps] values of [j] left below [fpsKeepInterval]. *)
Fixpoint merge_loop (frames : list Z) (fpsDelayThreshold : Z) (i : nat)
    (steps j : nat) (accumulatedDelay : Z) (fastFrameCount : nat) : Z * nat :=
  match steps with
  | O => (accumulatedDelay, fastFrameCount)
  | S steps' =>
      match frames !! (i + j)%nat with
      | None => (accumulatedDelay, fastFrameCount)
      | Some nextDelay =>
          if nextDelay <? fpsDelayThreshold
          then merge_loop frames fpsDelayThreshold i steps' (S j)
                 (accumulatedDelay + nextDelay) (S fastFrameCount)
          else (accumulatedDelay, fastFrameCount)
      end
  end.

(** The [while (i < frames.length)] loop; [fuel] bounds the number of
    iterations and [None] means it ran out. *)
Fixpoint fps_while (frames : list Z) (fpsDelayThreshold fpsKeepInterval : Z)
    (fuel i : nat) : option (list FpsOut) :=
  match frames !! i with
  | None => Some []
  | Some currentDelay =>
      match fuel with
      | O => None
      | S fuel' =>
          if fpsDelayThreshold <=? currentDelay then
            rest ← fps_while frames fpsDelayThreshold fpsKeepInterval fuel' (i + 1);
            Some (Kept currentDelay :: rest)
          else
            let '(accumulatedDelay, fastFrameCount) :=
              merge_loop frames fpsDelayThreshold i
                (Z.to_nat (fpsKeepInterval - 1)) 1 currentDelay 1 in
            rest ← fps_while frames fpsDelayThreshold fpsKeepInterval fuel'
                     (i + fastFrameCount);
            Some (Merged accumulatedDelay :: rest)
      end
  end.

(** One iteration consumes at least one frame, so [length frames]
    iterations are enough. *)
Definition fpsGroups (frames : list Z) (fpsDelayThreshold fpsKeepInterval : Z)
  : option (list FpsOut) :=
  fps_while frames fpsDelayThreshold fpsKeepInterval (length frames) 0.

Definition fpsNewDelays (frames : list Z) (fpsDelayThreshold fpsKeepInterval : Z)
  : option (list Z) :=
  map pushed <$> fpsGroups frames fpsDelayThreshold fpsKeepInterval.

Definition isMergedOver (o : FpsOut) : bool :=
  match o with
  | Kept _ => false
  | Merged acc => 65535 <? acc
  end.

(** ** Version selection ([handleSelectVersion], lines 3548-3737) *)

Record VersionItem : Type := mkVersion {
  v_id : JsString;
  v_name : JsString;
  v_path : JsString;
  v_isOriginal : bool;
  v_frameCount : Z;
  v_duration : Z;
  v_fileSize : Z;
  v_frameDelays : list Z
}.

Record GifMeta : Type := mkMeta {
  m_width : Z;
  m_height : Z;
  m_frame_count : Z;
  m_delays_ms : list Z
}.

(** The part of the [App] component state that version selection reads
    or writes. *)
Record App : Type := mkApp {
  frames : list GifFrame;
  loading : bool;
  error : option JsString;
  versions : list VersionItem;
  currentVersionId : JsString;
  workDir : JsString;
  frameFilesDir : JsString;      (* the [fullframesDir] prop of the player *)
  isLoadingGif : bool;
  extractUi : ExtractUi;
  _global_delay_cache : gmap JsString (list Z)
}.

Definition set_frames (x : list GifFrame) (a : App) : App :=
  mkApp x (loading a) (error a) (versions a) (currentVersionId a) (workDir a)
    (frameFilesDir a) (isLoadingGif a) (extractUi a) (_global_delay_cache a).
Definition set_error (x : option JsString) (a : App) : App :=
  mkApp (frames a) (loading a) x (versions a) (currentVersionId a) (workDir a)
    (frameFilesDir a) (isLoadingGif a) (extractUi a) (_global_delay_cache a).
Definition set_versions (x : list VersionItem) (a : App) : App :=
  mkApp (frames a) (loading a) (error a) x (currentVersionId a) (workDir a)
    (frameFilesDir a) (isLoadingGif a) (extractUi a) (_global_delay_cache a).
Definition set_currentVersionId (x : JsString) (a : App) : App :=
  mkApp (frames a) (loading a) (error a) (versions a) x (workDir a)
    (frameFilesDir a) (isLoadingGif a) (extractUi a) (_global_delay_cache a).
Definition set_workDir (x : JsString) (a : App) : App :=
  mkApp (frames a) (loading a) (error a) (versions a) (currentVersionId a) x
    (frameFilesDir a) (isLoadingGif a) (extractUi a) (_global_delay_cache a).
Definition set_frameFilesDir (x : JsString) (a : App) : App :=
  mkApp (frames a) (loading a) (error a) (versions a) (currentVersionId a) (workDir a)
    x (isLoadingGif a) (extractUi a) (_global_delay_cache a).
Definition set_isLoadingGif (x : bool) (a : App) : App :=
  mkApp (frames a) (loading a) (error a) (versions a) (currentVersionId a) (workDir a)
    (frameFilesDir a) x (extractUi a) (_global_delay_cache a).
Definition set_extractUi (x : ExtractUi) (a : App) : App :=
  mkApp (frames a) (loading a) (error a) (versions a) (currentVersionId a) (workDir a)
    (frameFilesDir a) (isLoadingGif a) x (_global_delay_cache a).
Definition set_delay_cache (x : gmap JsString (list Z)) (a : App) : App :=
  mkApp (frames a) (loading a) (error a) (versions a) (currentVersionId a) (workDir a)
    (frameFilesDir a) (isLoadingGif a) (extractUi a) x.

Definition set_paused (x : bool) (a : App) : App :=
  let u := extractUi a in
  set_extractUi (mkExtractUi (autoPauseTriggeredRef u) x (hasAutoPassedOnce u)
                   (extractProgress u) (invoked u)) a.
Definition set_progress (x : ExtractProgress) (a : App) : App :=
  let u := extractUi a in
  set_extractUi (mkExtractUi (autoPauseTriggeredRef u) (isExtractPaused u)
                   (hasAutoPassedOnce u) x (invoked u)) a.
Definition log_invoke (c : BackendCmd) (a : App) : App :=
  let u := extractUi a in
  set_extractUi (mkExtractUi (autoPauseTriggeredRef u) (isExtractPaused u)
                   (hasAutoPassedOnce u) (extractProgress u) (invoked u ++ [c])) a.

(** The player is part of what [App] renders unless one of the early
    returns (lines 3831-3912: loading, error, no frames) is taken. *)
Definition playerMounted (a : App) : bool :=
  negb (loading a) && bool_decide (error a = None) && negb (bool_decide (frames a = [])).

(** The application together with its player component. *)
Record Session : Type := mkSession {
  s_app : App;
  s_player : Player
}.

(** What a re-render does to the player's refs. They live as long as the
    component is mounted: the only effect that touches the preload cache
    has an empty dependency list, so it runs at unmount and not when a
    prop such as [fullframesDir] changes. A newly mounted player starts
    with fresh refs. *)
Definition reconcile (before after : App) (p : Player) : Player :=
  match playerMounted before, playerMounted after with
  | true, false => player_unmount p
  | false, true => mkPlayer [] [] (revoked p)
  | _, _ => p
  end.

Definition setState (f : App -> App) (s : Session) : Session :=
  let a' := f (s_app s) in
  mkSession a' (reconcile (s_app s) a' (s_player s)).

(** [invoke(c)]: the command reaches the backend; no state changes. *)
Definition invoke (c : BackendCmd) (s : Session) : Session :=
  mkSession (log_invoke c (s_app s)) (s_player s).

(** The answers of the backend during one selection. *)
Record SelectEnv : Type := mkSelectEnv {
  env_cancel_extraction : result unit;
  env_init_work_dir : result JsString;
  env_read_file_to_workdir : JsString -> result JsString;
  env_parse_gif_preview : JsString -> result GifMeta;
  env_count_files : JsString -> result Z;   (* [read_dir_filenames], counted *)
  env_resume_extraction : result unit;
  env_disk : Backend
}.

(** Both [catch] blocks: back to the previous version, with an error. *)
Definition selectFailed (previousVersionId : JsString) (s : Session) : Session :=
  let s := setState (set_isLoadingGif false) s in
  let s := setState (set_currentVersionId previousVersionId) s in
  setState (set_error (Some (js "loadVersionError"))) s.

(** [Array.from({ length: frame_count }, (_, i) => ...)], lines 3645-3650:
    the delay is [meta.delays_ms[i] || 100]. *)
Definition placeholders (meta : GifMeta) : list GifFrame :=
  map (fun i =>
         let d := match m_delays_ms meta !! i with
                  | Some d => if d =? 0 then 100 else d
                  | None => 100
                  end in
         mkGifFrame blankImageData d i (mkCanvas 1 1 [0; 0; 0; 0]))
    (seq 0 (Z.to_nat (m_frame_count meta))).

(** [runExtract], lines 3607-3706. *)
Definition runExtract (env : SelectEnv) (wd destPath : JsString)
    (selectedVersion : VersionItem) (versionId previousVersionId : JsString)
    (s : Session) : Session :=
  let safeBase := _safeBaseFromPath destPath in
  let framesDirCalc := wd ++ js "/_" ++ safeBase ++ js "_fullframes" in
  let previewsDirCalc := wd ++ js "/_" ++ safeBase ++ js "_previews" in
  let s := invoke (parse_gif_preview destPath) s in
  match env_parse_gif_preview env destPath with
  | Throw _ => selectFailed previousVersionId s
  | Ok meta =>
      let s := setState (set_frameFilesDir framesDirCalc) s in
      let counts :=
        match env_count_files env framesDirCalc, env_count_files env previewsDirCalc with
        | Ok fullCur, Ok prevCur => (fullCur, prevCur)
        | _, _ => (0, 0)
        end in
      let s := setState (set_progress
                 (mkProgress (fst counts, m_frame_count meta)
                             (snd counts, m_frame_count meta))) s in
      let s := invoke (extract_fullframes_background destPath) s in
      let s := invoke (extract_previews_background destPath) s in
      let s := setState (fun a => set_delay_cache
                 (<[destPath := m_delays_ms meta]> (_global_delay_cache a)) a) s in
      let frames' := placeholders meta in
      let s := setState (set_frames frames') s in
      let totalDuration := sumZ (map delay frames') in
      let s := setState (fun a => set_versions
                 (map (fun v => if strEqb (v_id v) (v_id selectedVersion)
                                then mkVersion (v_id v) (v_name v) destPath (v_isOriginal v)
                                       (m_frame_count meta) totalDuration (v_fileSize v)
                                       (m_delays_ms meta)
                                else v) (versions a)) a) s in
      let s := setState (set_currentVersionId versionId) s in
      let s := setState (set_isLoadingGif false) s in
      let s := invoke (get_gif_stats destPath) s in
      let s := invoke resume_extraction s in
      match env_resume_extraction env with
      | Ok _ => setState (set_paused false) s
      | Throw _ => s
      end
  end.

Definition handleSelectVersion (env : SelectEnv) (versionId : JsString)
    (force : bool) (s : Session) : Session :=
  if strEqb versionId (currentVersionId (s_app s)) && negb force then s
  else
    let s := invoke cancel_extraction s in
    let s := match env_cancel_extraction env with
             | Ok _ => setState (set_paused false) s
             | Throw _ => s
             end in
    let s := setState (set_progress progress0) s in
    match find (fun v => strEqb (v_id v) versionId) (versions (s_app s)) with
    | None => s
    | Some selectedVersion =>
        let previousVersionId := currentVersionId (s_app s) in
        let wdr :=
          match workDir (s_app s) with
          | [] => (env_init_work_dir env, invoke init_work_dir s)
          | wd => (Ok wd, s)
          end in
        match wdr with
        | (Throw _, s) => s
        | (Ok wd, s) =>
            let s := if bool_decide (workDir (s_app s) = [])
                     then setState (set_workDir wd) s else s in
            let s := setState (set_isLoadingGif true) s in
            let s := setState (set_error None) s in
            let destPath := v_path selectedVersion in
            let isTempPath := negb (bool_decide (wd = [])) && isPrefix wd destPath in
            let isWebResource :=
              isPrefix (js "/gifs/") destPath || isPrefix (js "http") destPath in
            let copied :=
              if negb isTempPath && negb isWebResource
              then (env_read_file_to_workdir env (v_path selectedVersion),
                    invoke (read_file_to_workdir (v_path selectedVersion)) s)
              else (Ok destPath, s) in
            match copied with
            | (Throw _, s) => selectFailed previousVersionId s
            | (Ok destPath, s) =>
                let s :=
                  match _global_delay_cache (s_app s) !! destPath with
                  | Some _ => s
                  | None =>
                      let pre := _tryLoadDiskCaches (env_disk env)
                                   (_global_delay_cache (s_app s)) wd destPath None None in
                      setState (set_delay_cache (snd pre)) s
                  end in
                runExtract env wd destPath selectedVersion versionId previousVersionId s
            end
        end
    end.

(** ** Definitions used to state the properties *)

(** The sidecar gate lets the read through: verification is switched off,
    or the sidecar is valid. *)
Definition gateOpen (be : Backend) (verify : option bool) (hash : JsString) : Prop :=
  verify = Some false \/ sidecarValid be hash.

(** Concrete cache files. *)
Definition goodPreviewBin : list Z :=
  [1; 0; 0; 0;  1; 0; 0; 0;  1; 0; 0; 0;
   100; 0; 0; 0;  1; 0; 0; 0;  1; 0; 0; 0;  4; 0; 0; 0;
   255; 0; 0; 255].

(** The same bundle, its only frame declaring 100 bytes of pixels. *)
Definition longFramePreviewBin : list Z :=
  [1; 0; 0; 0;  1; 0; 0; 0;  1; 0; 0; 0;
   100; 0; 0; 0;  1; 0; 0; 0;  1; 0; 0; 0;  100; 0; 0; 0;
   255; 0; 0; 255].

Definition goodDelayBin : list Z := [2; 0; 0; 0;  100; 0; 0; 0;  50; 0; 0; 0].

(** A count of 5 followed by a single entry. *)
Definition shortDelayBin : list Z := [5; 0; 0; 0;  100; 0; 0; 0].

(** Two frames of 1 by 1; the first declares 8 bytes of pixels and the
    second 4, with 4 bytes in all after the first header. *)
Definition cutFramePreviewBin : list Z :=
  [1; 0; 0; 0;  1; 0; 0; 0;  2; 0; 0; 0;
   100; 0; 0; 0;  1; 0; 0; 0;  1; 0; 0; 0;  8; 0; 0; 0;
   255; 0; 0; 255].

(** A single frame of 2 by 1 that declares its 8 bytes of pixels, of
    which 4 are there. *)
Definition halfFramePreviewBin : list Z :=
  [2; 0; 0; 0;  1; 0; 0; 0;  1; 0; 0; 0;
   100; 0; 0; 0;  2; 0; 0; 0;  1; 0; 0; 0;  8; 0; 0; 0;
   255; 0; 0; 255].

Definition catFiles (previewBin delayBin : list Z) (sidecars : bool)
  : gmap JsString (list Z) :=
  let data : gmap JsString (list Z) :=
    <[js "/w/_cat_preview.bin" := previewBin]>
      (<[js "/w/_cat_delays.bin" := delayBin]> ∅) in
  if sidecars
  then <[js "/w/_cat_preview.sha256" := [1]]>
         (<[js "/w/_cat_delays.sha256" := [1]]> data)
  else data.

(** Some character outside [[0-9A-Za-z]] is directly followed by a
    digit. *)
Fixpoint digitAfterEscape (s : JsString) : bool :=
  match s with
  | [] => false
  | c :: rest =>
      (negb (isAlnum c) && match rest with d :: _ => isDigit d | [] => false end)
      || digitAfterEscape rest
  end.

Definition startsWithDigit (s : JsString) : bool :=
  match s with
  | d :: _ => isDigit d
  | [] => false
  end.

(** The transform as the spec words it, character by character: a
    character in [[0-9A-Za-z]] is kept, any other is replaced by an
    underscore followed by the decimal digits of its code point. *)
Inductive SafeImage : JsString -> JsString -> Prop :=
  | SafeImage_nil : SafeImage [] []
  | SafeImage_keep (c : N) (s t : JsString) :
      isAlnum c = true -> SafeImage s t -> SafeImage (c :: s) (c :: t)
  | SafeImage_replace (c : N) (s t : JsString) :
      isAlnum c = false -> SafeImage s t ->
      SafeImage (c :: s) (95%N :: decimal c ++ t).

(** Insertions by path, and the runs of insertions for the frames
    [a .. a + n - 1]. *)
Definition isPreload (e : CacheInsert) : bool :=
  match e with ByPreload _ _ => true | ByRender _ _ => false end.

Definition preloads (a n : nat) : list CacheInsert :=
  map (fun i => ByPreload i (frameImage i)) (seq a n).

Definition renders (a n : nat) : list CacheInsert :=
  map (fun i => ByRender i (frameImage i)) (seq a n).

(** A job of 1500 frames reporting 900, 1000 and 1100 extracted frames. *)
Definition job1500 : list UiEvent :=
  [NewJob; Progress fullframes 900 1500; Progress fullframes 1000 1500;
   Progress fullframes 1100 1500].

(** The frames that the loop pushed unchanged. *)
Definition keptOf (groups : list FpsOut) : list Z :=
  omap (fun o => match o with Kept d => Some d | Merged _ => None end) groups.

(** One pass over the frames of the range, as a recursion on the
    segment. *)
Fixpoint pass_list (dir : Z) (seg : list Z) (diff : Z) : list Z * Z :=
  match seg with
  | [] => ([], diff)
  | v :: seg' =>
      if 0 <? diff then
        if (dir <? 0) && (v + dir <? 10)
        then (v :: fst (pass_list dir seg' diff), snd (pass_list dir seg' diff))
        else (v + dir :: fst (pass_list dir seg' (diff - 1)),
              snd (pass_list dir seg' (diff - 1)))
      else (v :: seg', diff)
  end.

(** Whether a pass may change a frame, and what it changes it to. *)
Definition canStep (dir v : Z) : bool := negb ((dir <? 0) && (v + dir <? 10)).

Definition stepOnce (dir v : Z) : Z := if canStep dir v then v + dir else v.

Definition stepCount (dir : Z) (seg : list Z) : Z :=
  sumZ (map (fun v => if canStep dir v then 1 else 0) seg).

(** A GIF file of the workspace directory [/ws]. *)
(** The restore as the spec words it. A persisted name designates a file
    in one of three ways, on normalised names: exactly, up to letter
    case, or up to the characters that the sanitiser replaces. *)
Section RestoreSpec.
Context `{StringOps}.

Definition exactMatch (target : JsString) (e : FileEntry) : bool :=
  strEqb (normalize (fe_name e)) (normalize target).

Definition caseMatch (target : JsString) (e : FileEntry) : bool :=
  strEqb (toLowerCase (normalize (fe_name e))) (toLowerCase (normalize target)).

Definition sanitizedMatch (target : JsString) (e : FileEntry) : bool :=
  strEqb (sanitize (normalize (fe_name e))) (sanitize (normalize target)).

Definition designates (target : JsString) (e : FileEntry) : bool :=
  exactMatch target e || caseMatch target e || sanitizedMatch target e.


(** A persisted name in normal form and free of the characters that the
    sanitiser replaces; the names that the workspace save writes are
    sanitised. *)
Definition wellFormedName (n : JsString) : Prop :=
  normalize n = n /\ sanitize n = n.

(** The order names the present files unambiguously: no name designates
    two files and no file is designated by two names. *)
Definition unambiguous (present : list FileEntry) (fileOrder : list JsString) : Prop :=
  Forall (fun n => (length (filter (fun e => designates n e = true) present) <= 1)%nat)
    fileOrder /\
  Forall (fun e => (length (filter (fun n => designates n e = true) fileOrder) <= 1)%nat)
    present.


End RestoreSpec.

Definition gifFile (name : string) : FileEntry :=
  mkEntry (js name) (js "/ws/" ++ js name) false.

(** A session on version [v1] of three frames whose player has cached
    frame 0, about to switch to [v2]. *)
Definition twoVersions : list VersionItem :=
  [mkVersion (js "v1") (js "a.gif") (js "/w/a.gif") true 3 300 0 [100; 100; 100];
   mkVersion (js "v2") (js "b.gif") (js "/w/b.gif") false 2 200 0 [100; 100]].

Definition sessionOnV1 : Session :=
  mkSession
    (mkApp (placeholders (mkMeta 4 4 3 [100; 100; 100])) false None twoVersions
       (js "v1") (js "/w") (js "/w/_a_fullframes") false extractUi0 ∅)
    (render_onload 0 (frameImage 7) emptyPlayer).

(** A backend that answers every command; every file has two frames. *)
Definition backendOk : SelectEnv :=
  mkSelectEnv (Ok tt) (Ok (js "/w")) (fun p => Ok p)
    (fun _ => Ok (mkMeta 4 4 2 [100; 100])) (fun _ => Ok 0) (Ok tt) (fsBackend ∅).

(** The backend commands that [runExtract] issues for a file, in order:
    the two extraction jobs after the parse, then the statistics and the
    resume. *)
Definition extractionCmds (destPath : JsString) : list BackendCmd :=
  [parse_gif_preview destPath; extract_fullframes_background destPath;
   extract_previews_background destPath; get_gif_stats destPath; resume_extraction].

(** The commands that prepare a selection: the work directory and the
    copy of the file into it. *)
Definition isPreparation (c : BackendCmd) : bool :=
  match c with
  | init_work_dir | read_file_to_workdir _ => true
  | _ => false
  end.

(** The backend log of a session, and the state changes that leave the
    log, the active version, the version list or the mounting of the
    player alone. *)
Definition logOf (s : Session) : list BackendCmd := invoked (extractUi (s_app s)).

Definition keepsLog (f : App -> App) : Prop :=
  forall a, invoked (extractUi (f a)) = invoked (extractUi a).

Definition keepsVersion (f : App -> App) : Prop :=
  forall a, currentVersionId (f a) = currentVersionId a.

Definition keepsVersions (f : App -> App) : Prop :=
  forall a, versions (f a) = versions a.

Definition keepsMount (f : App -> App) : Prop :=
  forall a, playerMounted (f a) = playerMounted a.

(** An invariant of the player along a selection: it is mounted with
    the refs [p0]. *)
Definition stillMounted (p0 : Player) (s : Session) : Prop :=
  playerMounted (s_app s) = true /\ s_player s = p0.

(** The refs of a player that had the refs [p0] while mounted: they are
    [p0] as long as it is mounted, and what the unmount cleanup leaves of
    [p0] once it is not. *)
Definition keptOrUnmounted (p0 : Player) (s : Session) : Prop :=
  s_player s = if playerMounted (s_app s) then p0 else player_unmount p0.

(** ** Delay statistics ([App.tsx], lines 126-159) *)

(** [roundTo10Bankers] on an integer delay. For an integer [v] the double
    [v / 10] lies within a small fraction of 1/10 of the exact quotient
    and is exact when the quotient ends in .5, so [Math.floor(q)] is the
    integer quotient and comparing [frac] with 0.5 is comparing the
    remainder with 5. [f % 2] is the truncating remainder. *)
Definition roundTo10Bankers (v : Z) : Z :=
  let f := v / 10 in
  let frac10 := v mod 10 in
  if 5 <? frac10 then (f + 1) * 10
  else if frac10 <? 5 then f * 10
  else (if Z.rem f 2 =? 0 then f else f + 1) * 10.

(** The loop of [longestFrameIndex] at index [i]; [maxv] is [None] for
    [-Infinity]. *)
Fixpoint longest_loop (rest : list GifFrame) (i : nat) (maxv : option Z) (idx : nat)
  : nat :=
  match rest with
  | [] => idx
  | f :: rest' =>
      let d := delay f in
      if match maxv with None => true | Some m => m <? d end
      then longest_loop rest' (S i) (Some d) i
      else longest_loop rest' (S i) maxv idx
  end.

Definition longestFrameIndex (frames : list GifFrame) : nat :=
  longest_loop frames 0 None 0.








(** ** The speed tab: range, cursor and delays
       ([App.tsx], lines 1064-1075, 1119-1122, 3759-3829, 4629-4677) *)

Record RangeUi : Type := mkRangeUi {
  ui_rangeStart : Z;
  ui_rangeEnd : Z;
  ui_currentFrame : Z
}.

(** [Math.max(0, (gifStats?.frame_count || frames.length) - 1)] *)
Definition maxIndex (frame_count : option Z) (framesLength : Z) : Z :=
  let n := match frame_count with
           | Some c => if c =? 0 then framesLength else c
           | None => framesLength
           end in
  Z.max 0 (n - 1).

Definition handleRangeStartChange (start : Z) (u : RangeUi) : RangeUi :=
  let validStart := Z.max 0 (Z.min start (ui_rangeEnd u)) in
  mkRangeUi validStart (ui_rangeEnd u) validStart.

Definition handleRangeEndChange (frame_count : option Z) (framesLength : Z)
    (end_ : Z) (u : RangeUi) : RangeUi :=
  let validEnd := Z.max (ui_rangeStart u) (Z.min end_ (maxIndex frame_count framesLength)) in
  mkRangeUi (ui_rangeStart u) validEnd validEnd.

(** The arrow keys, lines 1119-1122. *)
Definition handleArrowKey (framesLength : Z) (direction : Z) (u : RangeUi) : RangeUi :=
  mkRangeUi (ui_rangeStart u) (ui_rangeEnd u)
    (Z.max 0 (Z.min (framesLength - 1) (ui_currentFrame u + direction))).

Inductive RangeEvent : Type :=
  | StartInput (start : Z)
  | EndInput (end_ : Z)
  | ArrowLeft
  | ArrowRight.

Definition range_step (frame_count : option Z) (framesLength : Z)
    (u : RangeUi) (e : RangeEvent) : RangeUi :=
  match e with
  | StartInput start => handleRangeStartChange start u
  | EndInput end_ => handleRangeEndChange frame_count framesLength end_ u
  | ArrowLeft => handleArrowKey framesLength (-1) u
  | ArrowRight => handleArrowKey framesLength 1 u
  end.

Definition range_run (frame_count : option Z) (framesLength : Z)
    (es : list RangeEvent) (u : RangeUi) : RangeUi :=
  fold_left (range_step frame_count framesLength) es u.

(** [{ ...f, delay: d }] *)
Definition withDelay (d : Z) (f : GifFrame) : GifFrame :=
  mkGifFrame (imageData f) d (index f) (canvas f).

(** [for (let i = rangeStart; i <= rangeEnd; i++) newFrames[i] = { ...newFrames[i], delay: g(newFrames[i].delay) }]
    with [n] indices left. Reading [.delay] of a missing element throws a
    [TypeError] ([None]). *)
Fixpoint delay_loop (g : Z -> Z) (n i : nat) (newFrames : list GifFrame)
  : option (list GifFrame) :=
  match n with
  | O => Some newFrames
  | S n' =>
      match newFrames !! i with
      | None => None
      | Some f => delay_loop g n' (S i) (<[i := withDelay (g (delay f)) f]> newFrames)
      end
  end.

(** [Math.round(d / 2)] of an integer: halves are exact in the doubles and
    [Math.round] rounds a tie upwards. *)
Definition roundHalf (d : Z) : Z := (d + 1) / 2.

Definition handleSpeedUp (rangeStart rangeEnd : nat) (prevFrames : list GifFrame)
  : option (list GifFrame) :=
  delay_loop (fun d => Z.max 10 (roundHalf d)) (rangeEnd + 1 - rangeStart) rangeStart
    prevFrames.

Definition handleSlowDown (rangeStart rangeEnd : nat) (prevFrames : list GifFrame)
  : option (list GifFrame) :=
  delay_loop (fun d => Z.min 10000 (d * 2)) (rangeEnd + 1 - rangeStart) rangeStart
    prevFrames.

(** [handleFrameDelayChange]. An index beyond the array would store an
    element that has a delay and nothing else; that is outside the model
    ([None]). *)
Definition handleFrameDelayChange (frameIndex : nat) (newDelay : Z)
    (prevFrames : list GifFrame) : option (list GifFrame) :=
  match prevFrames !! frameIndex with
  | Some f => Some (<[frameIndex := withDelay newDelay f]> prevFrames)
  | None => None
  end.

Definition handleResetFrameDelay (originalFrames : list GifFrame) (frameIndex : nat)
    (frames : list GifFrame) : option (list GifFrame) :=
  match originalFrames !! frameIndex with
  | Some o => handleFrameDelayChange frameIndex (delay o) frames
  | None => Some frames
  end.

(** The loop of the reset-to-original button, lines 4673-4678, with [n]
    indices left. *)
Fixpoint resetRange_loop (originalFrames : list GifFrame) (n i : nat)
    (newFrames : list GifFrame) : option (list GifFrame) :=
  match n with
  | O => Some newFrames
  | S n' =>
      match originalFrames !! i with
      | None => resetRange_loop originalFrames n' (S i) newFrames
      | Some o =>
          match newFrames !! i with
          | None => None
          | Some f =>
              resetRange_loop originalFrames n' (S i) (<[i := withDelay (delay o) f]> newFrames)
          end
      end
  end.

Definition resetRangeToOriginal (originalFrames : list GifFrame)
    (rangeStart rangeEnd : nat) (prevFrames : list GifFrame) : option (list GifFrame) :=
  resetRange_loop originalFrames (rangeEnd + 1 - rangeStart) rangeStart prevFrames.

(** [frames.some((frame, idx) => frame.delay !== originalFrames[idx]?.delay)] *)
Definition hasChanges (frames originalFrames : list GifFrame) : bool :=
  existsb (fun x => x)
    (imap (fun idx frame =>
             match originalFrames !! idx with
             | Some o => negb (delay frame =? delay o)
             | None => true
             end) frames).

(** The effect of lines 1064-1071: the flag is recomputed when both
    arrays are non-empty and keeps its value otherwise. *)
Definition hasUnsavedChanges_effect (frames originalFrames : list GifFrame)
    (hasUnsavedChanges : bool) : bool :=
  if (0 <? length originalFrames)%nat && (0 <? length frames)%nat
  then hasChanges frames originalFrames
  else hasUnsavedChanges.

(** [frames.slice(rangeStart, rangeEnd + 1).reduce((s, f) => s + (f?.delay || 0), 0)] *)
Definition frameRangeSum (rangeStart rangeEnd : nat) (frames : list GifFrame) : Z :=
  fold_left (fun s f => s + delay f) (slice rangeStart (rangeEnd + 1) frames) 0.

(** The effect of lines 1072-1075. *)
Definition rangeTargetDuration_effect (rangeStart rangeEnd : nat)
    (frames : list GifFrame) : Z :=
  frameRangeSum rangeStart rangeEnd frames.

Section DurationInput.
Context `{Float64}.

(** The [map] of the duration input, lines 4638-4644. *)
Definition scaleFrames (prev : list GifFrame) (rangeStart rangeEnd : nat)
    (v currentRangeSum : Z) : list GifFrame :=
  imap (fun i f =>
          if inRange rangeStart rangeEnd i
          then withDelay (Z.max 10 (roundScaled (delay f) v currentRangeSum)) f
          else f) prev.

(** The inner [for] of lines 4651-4656 at index [i], with [n] indices
    left. *)
Fixpoint inputPass_loop (dir : Z) (n i : nat) (next : list GifFrame) (remaining : Z)
  : option (list GifFrame * Z) :=
  match n with
  | O => Some (next, remaining)
  | S n' =>
      if 0 <? remaining then
        match next !! i with
        | None => None
        | Some f =>
            let cand := delay f + dir in
            if (dir <? 0) && (cand <? 10)
            then inputPass_loop dir n' (S i) next remaining
            else inputPass_loop dir n' (S i) (<[i := withDelay cand f]> next) (remaining - 1)
        end
      else Some (next, remaining)
  end.

(** The updater passed to [setFrames] by the duration input, for a parsed
    value [v > 0]. *)
Definition rangeDurationInput (v : Z) (rangeStart rangeEnd : nat)
    (prev : list GifFrame) : option (list GifFrame) :=
  let currentRangeSum := frameRangeSum rangeStart rangeEnd prev in
  if currentRangeSum <=? 0 then Some prev
  else
    let next := scaleFrames prev rangeStart rangeEnd v currentRangeSum in
    let newRangeSum := frameRangeSum rangeStart rangeEnd next in
    let diff := v - newRangeSum in
    if negb (diff =? 0) then
      let dir := if 0 <? diff then 1 else -1 in
      let n := (rangeEnd + 1 - rangeStart)%nat in
      fst <$> (r ← inputPass_loop dir n rangeStart next (Z.abs diff);
               inputPass_loop dir n rangeStart (fst r) (snd r))
    else Some next.
End DurationInput.

(** ** Segments: slicing and deleting ([handleSliceSave], lines 2391-2427;
       [handleDeleteSegment], lines 3073-3192) *)

Record SlicePlan : Type := mkSlice {
  sl_start : Z;
  sl_end : Z;
  sl_suffix : JsString
}.

Inductive SliceOutcome : Type :=
  | NoSliceNeeded                     (* the alert of line 2407 *)
  | InvalidSliceRange                 (* no slice at all, line 2423 *)
  | Slices (slices : list SlicePlan).

Definition slicePlan (isSliceOnlySelected : bool) (S E L : Z) : SliceOutcome :=
  let checked slices :=
    match slices with
    | [] => InvalidSliceRange
    | _ :: _ => Slices slices
    end in
  if isSliceOnlySelected then checked [mkSlice S E (js "_selected")]
  else if S =? E then
    if (0 <? S) && (S <? L)
    then checked [mkSlice 0 (S - 1) (js "_part1"); mkSlice S L (js "_part2")]
    else NoSliceNeeded
  else if S <? E then
    checked
      ((if 0 <? S then [mkSlice 0 (S - 1) (js "_part1")] else []) ++
       [mkSlice S E (js "_part2")] ++
       (if E <? L then [mkSlice (E + 1) L (js "_part3")] else []))
  else checked [].

(** [frames.slice(slice.start, slice.end + 1).map(f => f.delay)] for a
    start that is not negative. *)
Definition sliceDelays (frames : list GifFrame) (sl : SlicePlan) : list Z :=
  map delay (slice (Z.to_nat (sl_start sl)) (Z.to_nat (sl_end sl + 1)) frames).

Inductive DeleteOutcome : Type :=
  | InvalidDeleteRange
  | CannotDeleteAll
  | DeleteFrames (newFrameCount : Z) (newFrameDelays : list Z).

(** The checks of [handleDeleteSegment] and the frame count and delays it
    records for the new version. *)
Definition deleteSegment (S E : Z) (frames : list GifFrame) : DeleteOutcome :=
  let totalFrames := Z.of_nat (length frames) in
  if (S <? 0) || (totalFrames <=? E) || (E <? S) then InvalidDeleteRange
  else if (S =? 0) && (E =? totalFrames - 1) then CannotDeleteAll
  else
    let newFrameCount := totalFrames - (E - S + 1) in
    let head := if 0 <? S then map delay (slice 0 (Z.to_nat S) frames) else [] in
    let tail := if E <? totalFrames - 1
                then map delay (drop (Z.to_nat (E + 1)) frames) else [] in
    DeleteFrames newFrameCount (head ++ tail).

(** ** Names of new versions (lines 2444-2450, 2838-2845, 3134-3144) *)

(** [name.replace(/\.gif$/i, '')] *)
Definition stripGif (name : JsString) : JsString :=
  let n := length name in
  if (4 <=? n)%nat && strEqb (asciiLower (drop (n - 4) name)) (js ".gif")
  then take (n - 4) name else name.

(** [while (taken(newFileName)) { counter++; newFileName = nameOf(counter) }]
    where [fuel] bounds the number of increments. *)
Fixpoint freshCounter (nameOf : N -> JsString) (taken : list JsString)
    (fuel : nat) (counter : N) : option N :=
  if bool_decide (nameOf counter ∈ taken) then
    match fuel with
    | O => None
    | S fuel' => freshCounter nameOf taken fuel' (counter + 1)
    end
  else Some counter.

Definition deletedName (baseName : JsString) (counter : N) : JsString :=
  baseName ++ js "-deleted-" ++ decimal counter ++ js ".gif".

Definition fpsReduceName (baseName : JsString) (fpsKeepInterval counter : N)
  : JsString :=
  baseName ++ js "-fps-reduce-" ++ decimal fpsKeepInterval ++ js "-" ++
  decimal counter ++ js ".gif".

(** The file name of [handleDeleteSegment]; each taken name stops at most
    one counter, so as many increments as there are versions suffice. *)
Definition deletedFileName (versions : list VersionItem) (currentName : JsString)
  : option JsString :=
  let baseName := stripGif currentName in
  deletedName baseName <$>
    freshCounter (deletedName baseName) (map v_name versions) (length versions) 1.

Definition fpsReduceFileName (versions : list VersionItem) (currentName : JsString)
    (fpsKeepInterval : N) : option JsString :=
  let baseName := stripGif currentName in
  fpsReduceName baseName fpsKeepInterval <$>
    freshCounter (fpsReduceName baseName fpsKeepInterval) (map v_name versions)
      (length versions) 1.

(** ** Playback and times of the player ([GifPlayer.tsx], lines 314-375) *)

Inductive AnimateResult : Type :=
  | KeepFrame                      (* the frame has not been shown long enough *)
  | StopPlaying
  | ShowFrame (nextFrame : nat).

(** One call of [animate] after [elapsed] milliseconds on [currentFrame].
    [frames[currentFrame].delay] of a missing frame throws ([None]). *)
Definition animate (loop : bool) (frames : list GifFrame) (currentFrame : nat)
    (elapsed : Z) : option AnimateResult :=
  match frames !! currentFrame with
  | None => None
  | Some frame =>
      if delay frame <=? elapsed then
        if negb loop && (length frames <=? currentFrame + 1)%nat
        then Some StopPlaying
        else Some (ShowFrame (if loop then (currentFrame + 1) mod length frames
                              else currentFrame + 1)%nat)
      else Some KeepFrame
  end.

(** The calls of [animate] during playback, one per animation frame;
    [ticks] holds the time each call finds elapsed since the current
    frame was shown. The result is the frames shown next, in order, and
    whether playback stopped. *)
Fixpoint playback (loop : bool) (frames : list GifFrame) (ticks : list Z)
    (currentFrame : nat) : option (list nat * bool) :=
  match ticks with
  | [] => Some ([], false)
  | elapsed :: ticks' =>
      match animate loop frames currentFrame elapsed with
      | None => None
      | Some KeepFrame => playback loop frames ticks' currentFrame
      | Some StopPlaying => Some ([], true)
      | Some (ShowFrame nextFrame) =>
          r ← playback loop frames ticks' nextFrame;
          Some (nextFrame :: fst r, snd r)
      end
  end.

Definition totalTime (frames : list GifFrame) : Z :=
  fold_left (fun sum frame => sum + delay frame) frames 0.

Definition elapsedTime (frames : list GifFrame) (currentFrame : nat) : Z :=
  fold_left (fun sum frame => sum + delay frame) (slice 0 currentFrame frames) 0.

Definition remainingTime (frames : list GifFrame) (currentFrame : nat) : Z :=
  totalTime frames - elapsedTime frames currentFrame.

(** [s.padStart(n, fill)] for a one-character [fill]. *)
Definition padStart (n : nat) (fill : N) (s : JsString) : JsString :=
  replicate (n - length s) fill ++ s.

(** [formatTime] of a whole, non-negative number of milliseconds. *)
Definition formatTime (ms : N) : JsString :=
  let seconds := (ms / 1000)%N in
  let milliseconds := (ms mod 1000)%N in
  decimal seconds ++ js "." ++ padStart 3 48%N (decimal milliseconds) ++ js "s".

(** ** Preloading as interleaved tasks ([GifPlayer.tsx], [preloadFrames],
       lines 71-133) *)

(** How the load of one frame ends: neither file can be read; the image
    loads; or the bytes were read but do not decode ([img.onerror]). *)
Inductive LoadOutcome : Type :=
  | FileMissing
  | ImageLoaded (img : HTMLImageElement)
  | ImageBroken (url : JsString).

(** A call of [preloadFrames] suspended at an [await]: it loads frame
    [frameIdx] in iteration [t_i]; with [None] the call has returned.
    Between the [await]s of one iteration the call touches neither ref,
    so an iteration is one step from the check to the first [await] and
    one step for the end of the load. *)
Record PreloadTask : Type := mkTask {
  t_framesLength : nat;
  t_startFrame : nat;
  t_count : nat;
  t_i : nat;
  t_frameIdx : option nat
}.

(** [Set.prototype.add] and [delete] on [preloadingRef]. *)
Definition set_add (k : nat) (s : list nat) : list nat :=
  if bool_decide (k ∈ s) then s else s ++ [k].

Definition set_delete (k : nat) (s : list nat) : list nat :=
  filter (fun x => x <> k) s.

(** The loop from iteration [i] up to its next [await], [steps]
    iterations being left: frames that are cached or being loaded are
    skipped; the first other frame is marked as being loaded. The callers
    call [preloadFrames] only when there are frames. *)
Fixpoint preload_advance (steps framesLength startFrame i : nat) (p : Player)
  : option (nat * nat) * Player :=
  match steps with
  | O => (None, p)
  | S steps' =>
      let frameIdx := ((startFrame + i) mod framesLength)%nat in
      if map_has frameIdx (preloadCache p) || bool_decide (frameIdx ∈ preloading p)
      then preload_advance steps' framesLength startFrame (S i) p
      else (Some (i, frameIdx),
            mkPlayer (preloadCache p) (set_add frameIdx (preloading p)) (revoked p))
  end.

Definition preload_resume (t : PreloadTask) (i : nat) (p : Player)
  : PreloadTask * Player :=
  let r := preload_advance (t_count t - i) (t_framesLength t) (t_startFrame t) i p in
  match fst r with
  | Some (i', frameIdx) =>
      (mkTask (t_framesLength t) (t_startFrame t) (t_count t) i' (Some frameIdx), snd r)
  | None =>
      (mkTask (t_framesLength t) (t_startFrame t) (t_count t) (t_count t) None, snd r)
  end.

(** The end of the load of [frameIdx]: the [onload] or [onerror] handler,
    then [preloadingRef.current.delete(frameIdx)]. *)
Definition preload_settle (o : LoadOutcome) (frameIdx : nat) (p : Player) : Player :=
  let p1 := match o with
            | FileMissing => p
            | ImageLoaded img => preload_onload frameIdx img p
            | ImageBroken url => mkPlayer (preloadCache p) (preloading p) (revoked p ++ [url])
            end in
  mkPlayer (preloadCache p1) (set_delete frameIdx (preloading p1)) (revoked p1).

Record PlayerTasks : Type := mkPlayerTasks {
  pt_player : Player;
  pt_tasks : list PreloadTask
}.

Inductive PreloadEvent : Type :=
  | CallPreload (framesLength startFrame count : nat)
  | Settle (k : nat) (o : LoadOutcome)              (* the load of task [k] ends *)
  | RenderLoaded (currentFrame : nat) (img : HTMLImageElement).

Definition preload_step (st : PlayerTasks) (e : PreloadEvent) : PlayerTasks :=
  match e with
  | CallPreload framesLength startFrame count =>
      let r := preload_resume (mkTask framesLength startFrame count 0 None) 0
                 (pt_player st) in
      mkPlayerTasks (snd r) (pt_tasks st ++ [fst r])
  | Settle k o =>
      match pt_tasks st !! k with
      | Some t =>
          match t_frameIdx t with
          | Some frameIdx =>
              let r := preload_resume t (S (t_i t))
                         (preload_settle o frameIdx (pt_player st)) in
              mkPlayerTasks (snd r) (<[k := fst r]> (pt_tasks st))
          | None => st
          end
      | None => st
      end
  | RenderLoaded currentFrame img =>
      mkPlayerTasks (render_onload currentFrame img (pt_player st)) (pt_tasks st)
  end.

Definition preload_run (es : list PreloadEvent) (st : PlayerTasks) : PlayerTasks :=
  fold_left preload_step es st.

(** The frames that the suspended calls are loading. *)
Definition pendingOf (tasks : list PreloadTask) : list nat := omap t_frameIdx tasks.

Definition isRenderLoaded (e : PreloadEvent) : bool :=
  match e with RenderLoaded _ _ => true | _ => false end.

(** The pending set holds exactly the frames being loaded, each once. *)
Definition pendingExact (st : PlayerTasks) : Prop :=
  preloading (pt_player st) ≡ₚ pendingOf (pt_tasks st) /\
  NoDup (preloading (pt_player st)).

(** ** Saving a workspace ([handleSaveWorkspace], lines 1735-1811) and the
       original of a restored one ([loadWorkspaceFromPath], lines 2116-2134) *)

(** [name.endsWith('.gif') ? name : name + '.gif'], sanitised. *)
Definition savedFileName (name : JsString) : JsString :=
  sanitize (if endsWith name (js ".gif") then name else name ++ js ".gif").

(** The [order] of the configuration: the file names of the versions
    whose copy succeeded, in the order of the version list. *)
Definition savedVersionsOrder (versions : list VersionItem) (copied : VersionItem -> bool)
  : list JsString :=
  map (fun v => savedFileName (v_name v)) (filter (fun v => copied v = true) versions).

(** The [original_file] of the configuration. *)
Definition savedOriginalFile (versions : list VersionItem) (copied : VersionItem -> bool)
  : option JsString :=
  match find v_isOriginal versions with
  | Some originalVersion =>
      let safeFileName := savedFileName (v_name originalVersion) in
      if bool_decide (safeFileName ∈ savedVersionsOrder versions copied)
      then Some safeFileName else None
  | None => None
  end.

Section RestoreOriginal.
Context `{StringOps}.

(** Whether the restore marks an entry as the original; [loadedSoFar] is
    [loadedVersions.length]. An empty [original_file] counts as none. *)
Definition isOriginalEntry (originalFileName : option JsString) (name : JsString)
    (loadedSoFar : nat) : bool :=
  match originalFileName with
  | Some (c :: rest) =>
      let entryName := normalize name in
      let safeEntryName := sanitize entryName in
      let targetName := normalize (c :: rest) in
      strEqb entryName targetName || strEqb safeEntryName targetName ||
      strEqb (toLowerCase entryName) (toLowerCase targetName)
  | _ => (loadedSoFar =? 0)%nat
  end.
End RestoreOriginal.

(** ** Names of slices ([handleSliceSave], lines 2436-2450) *)

(** [slices.length > 1 ? `-slice-${i + 1}` : '-slice-1'] *)
Definition sliceSuffix (slicesLength i : nat) : JsString :=
  if (1 <? slicesLength)%nat then js "-slice-" ++ decimal (N.of_nat (i + 1))
  else js "-slice-1".

Definition sliceCounterName (baseName suffix : JsString) (counter : N) : JsString :=
  baseName ++ suffix ++ js "-" ++ decimal counter ++ js ".gif".

(** [while (taken(newFileName)) { newFileName = `${baseName}${suffix}-${counter}.gif`; counter++ }]
    where [fuel] bounds the number of rounds. *)
Fixpoint sliceName_loop (baseName suffix : JsString) (taken : list JsString)
    (fuel : nat) (newFileName : JsString) (counter : N) : option JsString :=
  if bool_decide (newFileName ∈ taken) then
    match fuel with
    | O => None
    | S fuel' =>
        sliceName_loop baseName suffix taken fuel'
          (sliceCounterName baseName suffix counter) (counter + 1)
    end
  else Some newFileName.

(** The names of the slices [i], [i + 1], ...; [created] holds the names
    of the versions created so far. Each taken name stops at most one
    candidate, so as many rounds as there are taken names suffice. *)
Fixpoint sliceNames (versionNames : list JsString) (baseName : JsString)
    (slicesLength todo i : nat) (created : list JsString) : option (list JsString) :=
  match todo with
  | O => Some created
  | S todo' =>
      let suffix := sliceSuffix slicesLength i in
      let taken := versionNames ++ created in
      newFileName ← sliceName_loop baseName suffix taken (length taken)
                      (baseName ++ suffix ++ js ".gif") 1;
      sliceNames versionNames baseName slicesLength todo' (S i) (created ++ [newFileName])
  end.

Definition sliceFileNames (versions : list VersionItem) (currentName : JsString)
    (slicesLength : nat) : option (list JsString) :=
  sliceNames (map v_name versions) (stripGif currentName) slicesLength slicesLength 0 [].

(** The [k]-th name the loop tries. *)
Definition sliceCandidate (baseName suffix : JsString) (k : N) : JsString :=
  if (k =? 0)%N then baseName ++ suffix ++ js ".gif"
  else sliceCounterName baseName suffix k.

(** ** Thumbnails of the timeline ([FrameTimeline.tsx], lines 31, 255-262) *)

(** [arr.slice(a, b)] for any integers: a negative index counts from the
    end. *)
Definition jsSlice {A} (a b : Z) (l : list A) : list A :=
  let n := Z.of_nat (length l) in
  let from := if a <? 0 then Z.max (n + a) 0 else Z.min a n in
  let to := if b <? 0 then Z.max (n + b) 0 else Z.min b n in
  take (Z.to_nat (to - from)) (drop (Z.to_nat from) l).

Definition safeCurrentFrame (framesLength currentFrame : Z) : Z :=
  Z.max 0 (Z.min currentFrame (framesLength - 1)).

(** The thumbnails rendered: each with its [actualIndex]. *)
Definition timelineThumbnails (frames : list GifFrame) (currentFrame rangeStart rangeEnd : Z)
  : list (Z * GifFrame) :=
  let windowSize := 48 in
  let half := windowSize / 2 in
  let safe := safeCurrentFrame (Z.of_nat (length frames)) currentFrame in
  let vStart := Z.max rangeStart (safe - half) in
  let vEnd := Z.min rangeEnd (safe + half) in
  imap (fun relativeIndex frame => (vStart + Z.of_nat relativeIndex, frame))
    (jsSlice vStart (vEnd + 1) frames).

(** ** Further definitions used to state the properties *)

(** Three characters read back as a number. *)
Definition digitsValue (s : JsString) : N :=
  fold_left (fun acc c => (acc * 10 + (c - 48))%N) s 0%N.

(** [idx] is the first index of [l] that holds the largest delay. *)
Definition isFirstMax (l : list GifFrame) (idx : nat) : Prop :=
  exists f, l !! idx = Some f /\
    Forall (fun g => delay g <= delay f) l /\
    Forall (fun g => delay g < delay f) (take idx l).

(** Placeholder frames with the given delays. *)
Definition framesOf (delays : list Z) : list GifFrame :=
  imap (fun i d => mkGifFrame blankImageData d i (mkCanvas 1 1 [0; 0; 0; 0])) delays.

(** What the handlers keep: the range is ordered and ends at [maxIndex]
    at most, the last index by the statistics of the GIF when they are
    loaded and by the frame list otherwise; the cursor is not negative and
    not beyond the larger of [maxIndex] and the last index of the frame
    list. *)
Definition rangeOk (frame_count : option Z) (framesLength : Z) (u : RangeUi) : Prop :=
  0 <= ui_rangeStart u <= ui_rangeEnd u /\
  ui_rangeEnd u <= maxIndex frame_count framesLength /\
  0 <= ui_currentFrame u <= Z.max (maxIndex frame_count framesLength) (framesLength - 1).

(** The range and the cursor are indices of a list of [framesLength]
    frames. *)
Definition inFrameList (framesLength : Z) (u : RangeUi) : Prop :=
  0 <= ui_rangeStart u <= ui_rangeEnd u /\
  ui_rangeEnd u < framesLength /\
  0 <= ui_currentFrame u < framesLength.

(** The frame index and the image of an insertion, and the blob URLs of
    a list of images, in order. *)
Definition insertKey (e : CacheInsert) : nat :=
  match e with ByPreload i _ => i | ByRender i _ => i end.

Definition insertImg (e : CacheInsert) : HTMLImageElement :=
  match e with ByPreload _ img => img | ByRender _ img => img end.

Definition isBlob (img : HTMLImageElement) : bool :=
  isPrefix (js "blob:") (img_src img).

Definition blobUrls (imgs : list HTMLImageElement) : list JsString :=
  map img_src (filter (fun img => isBlob img = true) imgs).

(** Every insertion of the run finds its frame index absent from the
    cache, as the check before each load expects. *)
Fixpoint insertsFresh (es : list CacheInsert) (p : Player) : bool :=
  match es with
  | [] => true
  | e :: es' =>
      negb (map_has (insertKey e) (preloadCache p)) && insertsFresh es' (cache_insert p e)
  end.

(** State changes that leave the error or the loading flag alone. *)
Definition keepsError (f : App -> App) : Prop :=
  forall a, error (f a) = error a.

Definition keepsLoading (f : App -> App) : Prop :=
  forall a, isLoadingGif (f a) = isLoadingGif a.

(** A frame read from a preview bundle: its canvas holds four bytes for
    each of its [width * height] pixels, and its image data is the blank
    one. *)
Definition previewFrameOk (f : GifFrame) : Prop :=
  4 * cv_width (canvas f) * cv_height (canvas f)
  = Z.of_nat (length (cv_pixels (canvas f))) /\
  cv_pixels (canvas f) <> [] /\
  imageData f = blankImageData.

(* ================================================================== *)
(** * Part II: properties                                              *)
(* ================================================================== *)

(** ** Binary cache codec *)

Lemma encodeUint32_value (v : Z) :
  isUint32 v ->
  v mod 256 + (v / 2 ^ 8) mod 256 * 2 ^ 8 + (v / 2 ^ 16) mod 256 * 2 ^ 16
    + (v / 2 ^ 24) mod 256 * 2 ^ 24 = v.
Proof.
  unfold isUint32. intros Hv.
  change (2 ^ 8) with 256. change (2 ^ 16) with 65536.
  change (2 ^ 24) with 16777216. change (2 ^ 32) with 4294967296 in Hv.
  Z.div_mod_to_equations. lia.
Qed.

Lemma getUint32_at (pre post : list Z) (b0 b1 b2 b3 : Z) :
  getUint32 (pre ++ b0 :: b1 :: b2 :: b3 :: post) (length pre)
  = Ok (b0 + b1 * 2 ^ 8 + b2 * 2 ^ 16 + b3 * 2 ^ 24).
Proof.
  unfold getUint32.
  rewrite !lookup_app_r by lia.
  replace (length pre - length pre)%nat with 0%nat by lia.
  replace (length pre + 1 - length pre)%nat with 1%nat by lia.
  replace (length pre + 2 - length pre)%nat with 2%nat by lia.
  replace (length pre + 3 - length pre)%nat with 3%nat by lia.
  reflexivity.
Qed.

Lemma getUint32_encode (pre post : list Z) (v : Z) :
  isUint32 v ->
  getUint32 (pre ++ encodeUint32 v ++ post) (length pre) = Ok v.
Proof.
  intros Hv.
  etrans; [exact (getUint32_at pre post _ _ _ _)|].
  f_equal. by apply encodeUint32_value.
Qed.

Lemma length_encodeUint32 (v : Z) : length (encodeUint32 v) = 4%nat.
Proof. reflexivity. Qed.

Lemma length_concat_encode (ds : list Z) :
  length (concat (map encodeUint32 ds)) = (4 * length ds)%nat.
Proof. induction ds as [|d ds IH]; cbn [map concat length]; [done|]. rewrite length_app, IH. cbn. lia. Qed.

(** The loop reads back what follows a four-byte header and the entries
    already consumed. *)
Lemma parseDelay_loop_encode (hdr : list Z) (seen ds : list Z) (post : list Z) :
  length hdr = 4%nat ->
  Forall isUint32 ds ->
  parseDelay_loop (hdr ++ concat (map encodeUint32 seen) ++ concat (map encodeUint32 ds) ++ post)
    (length seen) (length ds) = Ok ds.
Proof.
  intros Hh. revert seen. induction ds as [|d ds IH]; intros seen Hds; [done|].
  apply Forall_cons in Hds as [Hd Hds].
  cbn [length parseDelay_loop map concat].
  assert (Hoff : (4 + length seen * 4)%nat
                 = length (hdr ++ concat (map encodeUint32 seen))).
  { rewrite length_app, length_concat_encode. lia. }
  rewrite Hoff.
  replace (hdr ++ concat (map encodeUint32 seen)
             ++ (encodeUint32 d ++ concat (map encodeUint32 ds)) ++ post)
    with ((hdr ++ concat (map encodeUint32 seen))
             ++ encodeUint32 d ++ (concat (map encodeUint32 ds) ++ post))
    by (by rewrite <- !app_assoc).
  rewrite getUint32_encode by done. cbn [rbind].
  specialize (IH (seen ++ [d]) Hds).
  rewrite length_app in IH. cbn [length] in IH.
  replace (length seen + 1)%nat with (S (length seen)) in IH by lia.
  rewrite map_app, concat_app in IH. cbn [map concat] in IH.
  rewrite app_nil_r in IH. rewrite <- !app_assoc in IH |- *.
  rewrite IH. reflexivity.
Qed.

Lemma parseDelayBin_encode_gen (delays : list Z) :
  Forall isUint32 delays ->
  Z.of_nat (length delays) < 2 ^ 32 ->
  _parseDelayBin (encodeDelays delays) = Ok delays.
Proof.
  intros Hds Hlen. unfold _parseDelayBin, encodeDelays.
  pose proof (getUint32_encode [] (concat (map encodeUint32 delays))
                (Z.of_nat (length delays))) as Hc.
  cbn [app length] in Hc. rewrite Hc by (unfold isUint32; lia).
  cbn [rbind]. rewrite Nat2Z.id.
  pose proof (parseDelay_loop_encode (encodeUint32 (Z.of_nat (length delays)))
                [] delays [] eq_refl Hds) as Hl.
  cbn [map concat length] in Hl. rewrite app_nil_r in Hl. exact Hl.
Qed.

(** C4. Delay round trip: decoding the little-endian encoding (a uint32
    count, then one uint32 per delay) of a list of at most 65535 uint32
    delays gives the list back. *)
Theorem delay_roundtrip (delays : list Z) :
  Forall isUint32 delays ->
  Z.of_nat (length delays) <= 65535 ->
  _parseDelayBin (encodeDelays delays) = Ok delays.
Proof.
  intros Hds Hlen. apply parseDelayBin_encode_gen; [done|].
  change (2 ^ 32) with 4294967296. lia.
Qed.

Lemma delay_roundtrip_witness :
  _parseDelayBin (encodeDelays [100; 0; 65536; 4294967295])
  = Ok [100; 0; 65536; 4294967295].
Proof.
  apply delay_roundtrip.
  - repeat constructor; unfold isUint32; lia.
  - cbn. lia.
Defined.

(** *** Length prefixes that overrun the buffer *)

Lemma getUint32_Ok_length (dv : list Z) (off : nat) (v : Z) :
  getUint32 dv off = Ok v -> (off + 4 <= length dv)%nat.
Proof.
  unfold getUint32. intros Hg.
  destruct (dv !! (off + 3)%nat) as [b3|] eqn:E3.
  - apply lookup_lt_Some in E3. lia.
  - by repeat case_match.
Qed.

Lemma getUint32_Throw (dv : list Z) (off : nat) (e : JsError) :
  getUint32 dv off = Throw e -> e = RangeError.
Proof. unfold getUint32. intros Hg. repeat case_match; congruence. Qed.

Lemma parseDelay_loop_overrun (dv : list Z) (n i : nat) :
  (0 < n)%nat ->
  (length dv < 4 + 4 * (i + n))%nat ->
  parseDelay_loop dv i n = Throw RangeError.
Proof.
  revert i. induction n as [|n IH]; intros i Hn Hlen; [lia|].
  cbn [parseDelay_loop].
  destruct (getUint32 dv (4 + i * 4)) as [d|e] eqn:Eg; cbn [rbind].
  - apply getUint32_Ok_length in Eg.
    destruct n as [|n']; [lia|].
    rewrite IH by lia. reflexivity.
  - by rewrite (getUint32_Throw _ _ _ Eg).
Qed.

Lemma parseDelayBin_overrun (bytes : list Z) :
  delayOverrun bytes = true -> _parseDelayBin bytes = Throw RangeError.
Proof.
  unfold delayOverrun, _parseDelayBin.
  destruct (getUint32 bytes 0) as [count|e] eqn:Eg; cbn [rbind]; intros Ho.
  - apply getUint32_Ok_length in Eg. apply Z.ltb_lt in Ho.
    apply parseDelay_loop_overrun; lia.
  - by rewrite (getUint32_Throw _ _ _ Eg).
Qed.

Lemma parsePreview_loop_overrun (bytes : list Z) (n i offset : nat) :
  (0 < n)%nat ->
  (length bytes < offset + 16 * n)%nat ->
  isOk (parsePreview_loop bytes n i offset) = false.
Proof.
  revert i offset. induction n as [|n IH]; intros i offset Hn Hlen; [lia|].
  cbn [parsePreview_loop].
  destruct (getUint32 bytes offset) as [d|] eqn:E0; cbn [rbind]; [|done].
  destruct (getUint32 bytes (offset + 4)) as [pw|] eqn:E1; cbn [rbind]; [|done].
  destruct (getUint32 bytes (offset + 8)) as [ph|] eqn:E2; cbn [rbind]; [|done].
  destruct (getUint32 bytes (offset + 12)) as [len|] eqn:E3; cbn [rbind]; [|done].
  apply getUint32_Ok_length in E3.
  destruct (new_ImageData _ pw ph) as [id|]; cbn [rbind]; [|done].
  destruct n as [|n']; [lia|].
  specialize (IH (S i) (offset + 16 + Z.to_nat len)%nat).
  destruct (parsePreview_loop bytes (S n') (S i) (offset + 16 + Z.to_nat len))
    as [rest|]; cbn [rbind]; [|done].
  cbn [isOk] in IH. apply IH; lia.
Qed.

(** An [ImageData] is made only of a non-empty run of exactly
    [4 * sw * sh] bytes. *)
Lemma new_ImageData_fills (data : list Z) (sw sh : Z) (id : ImageData) :
  new_ImageData data sw sh = Ok id ->
  0 < Z.of_nat (length data) /\ Z.of_nat (length data) = 4 * sw * sh.
Proof.
  unfold new_ImageData. set (len := Z.of_nat (length data)).
  destruct (len =? 0) eqn:E0; [done|]. apply Z.eqb_neq in E0.
  destruct (len mod 4 =? 0) eqn:E4; [|done]. apply Z.eqb_eq in E4.
  destruct (sw =? 0) eqn:Es; [done|]. apply Z.eqb_neq in Es.
  destruct ((len / 4) mod sw =? 0) eqn:Em; [|done]. apply Z.eqb_eq in Em.
  destruct (len / 4 / sw =? sh) eqn:Eh; [|done]. apply Z.eqb_eq in Eh.
  intros _. split; [lia|].
  pose proof (Z.div_mod len 4 ltac:(lia)) as H4.
  pose proof (Z.div_mod (len / 4) sw Es) as Hs.
  rewrite Eh, Em in Hs. lia.
Qed.

Lemma getUint32_beyond (dv : list Z) (off : nat) :
  (length dv < off + 4)%nat -> getUint32 dv off = Throw RangeError.
Proof.
  intros Hlen. destruct (getUint32 dv off) as [v|e] eqn:Eg.
  - apply getUint32_Ok_length in Eg. lia.
  - by rewrite (getUint32_Throw _ _ _ Eg).
Qed.

(** A frame that overruns stops the loop: the clamped pixel run is
    refused by [new ImageData], or the header of the next frame lies
    beyond the end. *)
Lemma parsePreview_loop_frameOverrun (bytes : list Z) (n i offset : nat) :
  frameOverrun bytes n offset = true ->
  isOk (parsePreview_loop bytes n i offset) = false.
Proof.
  revert i offset. induction n as [|n IH]; intros i offset Hover; [done|].
  cbn [frameOverrun] in Hover. cbn [parsePreview_loop].
  destruct (getUint32 bytes offset) as [d|] eqn:E0; cbn [rbind]; [|done].
  destruct (getUint32 bytes (offset + 4)) as [pw|] eqn:E1; cbn [rbind]; [|done].
  destruct (getUint32 bytes (offset + 8)) as [ph|] eqn:E2; cbn [rbind]; [|done].
  destruct (getUint32 bytes (offset + 12)) as [len|] eqn:E3; cbn [rbind]; [|done].
  apply getUint32_Ok_length in E3. cbv zeta in Hover.
  destruct (new_ImageData _ pw ph) as [id|] eqn:Eid; cbn [rbind]; [|done].
  apply new_ImageData_fills in Eid as [Hpos Hfill].
  rewrite length_take, length_drop in Hpos, Hfill.
  destruct (Z.of_nat (length bytes) - Z.of_nat (offset + 16) <? len) eqn:Elen;
    [apply Z.ltb_lt in Elen|apply Z.ltb_ge in Elen].
  - destruct n as [|n'].
    + exfalso. apply negb_true_iff in Hover.
      rewrite bool_decide_eq_true_2 in Hover by done. cbn [andb] in Hover.
      apply andb_false_iff in Hover as [Hover|Hover];
        [apply Z.ltb_ge in Hover|apply Z.eqb_neq in Hover]; lia.
    + cbn [parsePreview_loop].
      rewrite getUint32_beyond by lia. done.
  - specialize (IH (S i) (offset + 16 + Z.to_nat len)%nat Hover).
    by destruct (parsePreview_loop bytes n (S i) (offset + 16 + Z.to_nat len)).
Qed.

Lemma parsePreviewBin_overrun (bytes : list Z) :
  previewOverrun bytes = true -> isOk (_parsePreviewBin bytes) = false.
Proof.
  unfold previewOverrun, _parsePreviewBin.
  destruct (getUint32 bytes 0) as [w|]; cbn [rbind]; [|done].
  destruct (getUint32 bytes 4) as [h|]; cbn [rbind]; [|done].
  destruct (getUint32 bytes 8) as [count|] eqn:Eg; cbn [rbind]; [|done].
  intros Ho. apply getUint32_Ok_length in Eg.
  apply orb_true_iff in Ho as [Ho|Ho].
  - apply Z.ltb_lt in Ho.
    pose proof (parsePreview_loop_overrun bytes (Z.to_nat count) 0 12) as Hl.
    destruct (parsePreview_loop bytes (Z.to_nat count) 0 12); cbn [rbind isOk] in *; [|done].
    apply Hl; lia.
  - pose proof (parsePreview_loop_frameOverrun bytes (Z.to_nat count) 0 12 Ho) as Hl.
    by destruct (parsePreview_loop bytes (Z.to_nat count) 0 12).
Qed.

Lemma decode_overrun (art : Artifact) (bytes : list Z) :
  overrun art bytes = true -> decodes art bytes = false.
Proof.
  destruct art; cbn [overrun decodes]; intros Ho.
  - by apply parsePreviewBin_overrun.
  - by rewrite parseDelayBin_overrun.
Qed.

(** *** The loader *)

Lemma loadPreviewBranch_corrupt be verify dataN hashN bin :
  gateOpen be verify hashN ->
  read_file_in_chunks be dataN = Ok bin ->
  isOk (_parsePreviewBin (Uint8Array_from bin)) = false ->
  isOk (loadPreviewBranch be (negb (bool_decide (verify = Some false))) dataN hashN) = false.
Proof.
  intros Hgate Hread Hbad. unfold loadPreviewBranch.
  assert (Hparse : isOk (bin' <-! read_file_in_chunks be dataN;
                         parsed <-! _parsePreviewBin (Uint8Array_from bin');
                         Ok (Some parsed)) = false).
  { rewrite Hread. cbn [rbind].
    by destruct (_parsePreviewBin (Uint8Array_from bin)). }
  case_bool_decide as Hv; cbn [negb]; [done|].
  destruct Hgate as [?|(Hex & sz & Hsz & Hpos)]; [done|].
  rewrite Hex, Hsz. cbn [rbind andb].
  apply Z.ltb_lt in Hpos. by rewrite Hpos.
Qed.

Lemma loadDelayBranch_corrupt be verify dataN hashN bin :
  gateOpen be verify hashN ->
  read_file_in_chunks be dataN = Ok bin ->
  isOk (_parseDelayBin (Uint8Array_from bin)) = false ->
  isOk (loadDelayBranch be (negb (bool_decide (verify = Some false))) dataN hashN) = false.
Proof.
  intros Hgate Hread Hbad. unfold loadDelayBranch.
  assert (Hparse : isOk (bin' <-! read_file_in_chunks be dataN;
                         delays <-! _parseDelayBin (Uint8Array_from bin');
                         Ok (Some delays)) = false).
  { rewrite Hread. cbn [rbind].
    by destruct (_parseDelayBin (Uint8Array_from bin)). }
  case_bool_decide as Hv; cbn [negb]; [done|].
  destruct Hgate as [?|(Hex & sz & Hsz & Hpos)]; [done|].
  rewrite Hex, Hsz. cbn [rbind andb].
  apply Z.ltb_lt in Hpos. by rewrite Hpos.
Qed.

Lemma tryLoad_throw be gdc wd gif alt verify :
  isOk (tryLoad_body be gdc wd gif alt verify) = false ->
  _tryLoadDiskCaches be gdc wd gif alt verify = (mkLoadResult None None, gdc).
Proof.
  unfold _tryLoadDiskCaches.
  by destruct (tryLoad_body be gdc wd gif alt verify).
Qed.

(** C5, as amended. A data file whose length prefixes promise more than
    the buffer holds is not decoded: a delay table with a count of more
    entries than remain, a preview bundle with a count of more frame
    headers than remain, or a frame whose byte length exceeds the bytes
    that remain (a last frame excepted whose remaining bytes are exactly
    those of its declared dimensions). The parser throws instead of
    reading past the end, and the load that met it reports both artifacts
    absent and leaves the delay cache untouched. *)
Theorem corrupt_cache_load_fails (art : Artifact) (be : Backend)
    (gdc : gmap JsString (list Z)) (wd gif : JsString) (alt : option JsString)
    (verify : option bool) (bin : list Z) :
  path_exists be (dataName art wd gif) = Ok true ->
  gateOpen be verify (hashName art wd gif) ->
  read_file_in_chunks be (dataName art wd gif) = Ok bin ->
  overrun art (Uint8Array_from bin) = true ->
  decodes art (Uint8Array_from bin) = false /\
  _tryLoadDiskCaches be gdc wd gif alt verify = (mkLoadResult None None, gdc).
Proof.
  intros Hex Hgate Hread Hover.
  pose proof (decode_overrun art _ Hover) as Hdec.
  split; [done|].
  apply tryLoad_throw. unfold tryLoad_body.
  destruct art; cbn [decodes] in Hdec.
  - rewrite Hex. cbn [rbind].
    destruct (path_exists be (dataName DelayTable wd gif)); cbn [rbind]; [|done].
    pose proof (loadPreviewBranch_corrupt be verify _ _ bin Hgate Hread Hdec) as Hb.
    by destruct (loadPreviewBranch be _ _ _).
  - destruct (path_exists be (dataName PreviewBundle wd gif)) as [exP|]; cbn [rbind]; [|done].
    rewrite Hex. cbn [rbind].
    match goal with |- context [rbind ?m _] => destruct m as [lp|] end; cbn [rbind]; [|done].
    pose proof (loadDelayBranch_corrupt be verify _ _ bin Hgate Hread Hdec) as Hb.
    by destruct (loadDelayBranch be _ _ _).
Qed.

Lemma corrupt_cache_counterexample :
  (* a frame that declares 100 bytes with 4 left is decoded from the 4 *)
  _parsePreviewBin longFramePreviewBin
    = Ok (mkPreviewCache
            [mkGifFrame blankImageData 100 0 (mkCanvas 1 1 [255; 0; 0; 255])]
            (1, 1) [100])
  /\
  (* a delay table that overruns takes the well-formed preview with it *)
  (delayOverrun shortDelayBin = true /\
   isOk (_parsePreviewBin goodPreviewBin) = true /\
   fst (_tryLoadDiskCaches (fsBackend (catFiles goodPreviewBin shortDelayBin true))
          ∅ (js "/w") (js "/w/cat.gif") None None)
     = mkLoadResult None None).
Proof. vm_compute. repeat split. Qed.

Lemma corrupt_cache_load_fails_witness :
  (decodes DelayTable (Uint8Array_from shortDelayBin) = false /\
   _tryLoadDiskCaches (fsBackend (catFiles goodPreviewBin shortDelayBin true))
     ∅ (js "/w") (js "/w/cat.gif") None None = (mkLoadResult None None, ∅)) /\
  (decodes PreviewBundle (Uint8Array_from cutFramePreviewBin) = false /\
   _tryLoadDiskCaches (fsBackend (catFiles cutFramePreviewBin goodDelayBin true))
     ∅ (js "/w") (js "/w/cat.gif") None None = (mkLoadResult None None, ∅)) /\
  (decodes PreviewBundle (Uint8Array_from halfFramePreviewBin) = false /\
   _tryLoadDiskCaches (fsBackend (catFiles halfFramePreviewBin goodDelayBin true))
     ∅ (js "/w") (js "/w/cat.gif") None None = (mkLoadResult None None, ∅)).
Proof.
  split; [|split].
  - apply (corrupt_cache_load_fails DelayTable).
    + reflexivity.
    + right. split; [reflexivity|]. exists 1. split; [reflexivity|lia].
    + reflexivity.
    + reflexivity.
  - apply (corrupt_cache_load_fails PreviewBundle).
    + reflexivity.
    + right. split; [reflexivity|]. exists 1. split; [reflexivity|lia].
    + reflexivity.
    + reflexivity.
  - apply (corrupt_cache_load_fails PreviewBundle).
    + reflexivity.
    + right. split; [reflexivity|]. exists 1. split; [reflexivity|lia].
    + reflexivity.
    + reflexivity.
Defined.

(** The overrun that is not counted: the only frame of
    [longFramePreviewBin] declares 100 bytes, and the 4 that remain are
    those of its 1 by 1 pixel. *)
Example last_frame_filled :
  previewOverrun longFramePreviewBin = false /\
  previewOverrun cutFramePreviewBin = true /\
  previewOverrun halfFramePreviewBin = true /\
  previewOverrun goodPreviewBin = false.
Proof. vm_compute. done. Qed.

(** *** The sidecar gate *)

Lemma loadPreviewBranch_gate be dataN hashN r :
  ~ sidecarValid be hashN ->
  loadPreviewBranch be true dataN hashN = Ok r -> r = None.
Proof.
  unfold loadPreviewBranch, sidecarValid. intros Hinv.
  destruct (path_exists be hashN) as [[|]|] eqn:Hex; cbn [rbind andb]; [| |done].
  - destruct (get_file_size be hashN) as [sz|] eqn:Hsz.
    + destruct (0 <? sz) eqn:Hpos; [|congruence].
      exfalso. apply Hinv. split; [done|]. exists sz. split; [done|]. by apply Z.ltb_lt.
    + cbn. congruence.
  - congruence.
Qed.

Lemma loadDelayBranch_gate be dataN hashN r :
  ~ sidecarValid be hashN ->
  loadDelayBranch be true dataN hashN = Ok r -> r = None.
Proof.
  unfold loadDelayBranch, sidecarValid. intros Hinv.
  destruct (path_exists be hashN) as [[|]|] eqn:Hex; cbn [rbind andb]; [| |done].
  - destruct (get_file_size be hashN) as [sz|] eqn:Hsz.
    + destruct (0 <? sz) eqn:Hpos; [|congruence].
      exfalso. apply Hinv. split; [done|]. exists sz. split; [done|]. by apply Z.ltb_lt.
    + cbn. congruence.
  - congruence.
Qed.

(** C6, as amended. With verification on (the [verify] argument left out
    or true, as at every call in the sources), an artifact whose sidecar is
    missing or empty is returned absent, whatever its data file holds; for
    the delay table the global delay cache stays as it was. *)
Theorem sidecar_gate (art : Artifact) (be : Backend)
    (gdc : gmap JsString (list Z)) (wd gif : JsString) (alt : option JsString)
    (verify : option bool) :
  verify <> Some false ->
  ~ sidecarValid be (hashName art wd gif) ->
  loaded art (fst (_tryLoadDiskCaches be gdc wd gif alt verify)) = false /\
  (art = DelayTable -> snd (_tryLoadDiskCaches be gdc wd gif alt verify) = gdc).
Proof.
  intros Hv Hinv. unfold _tryLoadDiskCaches, tryLoad_body.
  rewrite (bool_decide_eq_false_2 _ Hv). cbn [negb].
  destruct (path_exists be (dataName PreviewBundle wd gif)) as [exP|];
    cbn [rbind]; [|by destruct art].
  destruct (path_exists be (dataName DelayTable wd gif)) as [exD|];
    cbn [rbind]; [|by destruct art].
  match goal with |- context [rbind ?m _] => destruct m as [lp|] eqn:Hlp end;
    cbn [rbind]; [|by destruct art].
  match goal with |- context [rbind ?m _] => destruct m as [ld|] eqn:Hld end;
    cbn [rbind]; [|by destruct art].
  destruct art; cbn [loaded fst snd loadedPreview loadedDelays].
  - split; [|done].
    destruct exP.
    + by rewrite (loadPreviewBranch_gate _ _ _ _ Hinv Hlp).
    + by inversion Hlp.
  - assert (ld = None) as ->.
    { destruct exD.
      - by apply (loadDelayBranch_gate _ _ _ _ Hinv Hld).
      - by inversion Hld. }
    done.
Qed.

Lemma sidecar_gate_witness :
  loaded DelayTable
    (fst (_tryLoadDiskCaches (fsBackend (catFiles goodPreviewBin goodDelayBin false))
            ∅ (js "/w") (js "/w/cat.gif") None None)) = false /\
  (DelayTable = DelayTable ->
   snd (_tryLoadDiskCaches (fsBackend (catFiles goodPreviewBin goodDelayBin false))
          ∅ (js "/w") (js "/w/cat.gif") None None) = ∅).
Proof.
  apply (sidecar_gate DelayTable).
  - discriminate.
  - intros [Hex _]. vm_compute in Hex. discriminate.
Defined.

(** With [verify = false] the same files, still without sidecars, are
    loaded. *)
Lemma sidecar_gate_counterexample :
  ~ sidecarValid (fsBackend (catFiles goodPreviewBin goodDelayBin false))
      (hashName DelayTable (js "/w") (js "/w/cat.gif")) /\
  loadedDelays
    (fst (_tryLoadDiskCaches (fsBackend (catFiles goodPreviewBin goodDelayBin false))
            ∅ (js "/w") (js "/w/cat.gif") None (Some false)))
  = Some [100; 50].
Proof.
  split.
  - intros [Hex _]. vm_compute in Hex. discriminate.
  - vm_compute. reflexivity.
Qed.

(** Scenario 3 of the specification: [_cat_delays.bin] present, its
    sidecar absent or empty. *)
Example cat_delays_without_sidecar :
  loadedDelays
    (fst (_tryLoadDiskCaches (fsBackend (catFiles goodPreviewBin goodDelayBin false))
            ∅ (js "/w") (js "/w/cat.gif") None None)) = None /\
  loadedDelays
    (fst (_tryLoadDiskCaches
            (fsBackend (<[js "/w/_cat_delays.sha256" := []]>
                          (catFiles goodPreviewBin goodDelayBin false)))
            ∅ (js "/w") (js "/w/cat.gif") None None)) = None.
Proof. vm_compute. done. Qed.

(** ** Cache file names *)

Lemma N_of_ascii_inj (a b : ascii) : N_of_ascii a = N_of_ascii b -> a = b.
Proof. intros E. rewrite <- (ascii_N_embedding a), <- (ascii_N_embedding b). by rewrite E. Qed.

Lemma js_inj (s t : string) : js s = js t -> s = t.
Proof.
  unfold js. intros E.
  rewrite <- (string_of_list_ascii_of_string s), <- (string_of_list_ascii_of_string t).
  f_equal. revert E. generalize (list_ascii_of_string s) (list_ascii_of_string t).
  induction l as [|a l IH]; intros [|b l']; cbn [map]; intros E; try done.
  injection E as E1 E2. f_equal; [by apply N_of_ascii_inj | by apply IH].
Qed.

Lemma to_uint_nonnil (n : N) : N.to_uint n <> Decimal.Nil.
Proof. destruct n; [done|]. apply DecimalPos.Unsigned.to_uint_nonnil. Qed.

Lemma decimal_inj (n m : N) : decimal n = decimal m -> n = m.
Proof.
  unfold decimal. intros E. apply js_inj in E.
  apply DecimalN.Unsigned.to_uint_inj.
  pose proof (NilZero.usu _ (to_uint_nonnil n)) as Hn.
  pose proof (NilZero.usu _ (to_uint_nonnil m)) as Hm.
  rewrite E in Hn. congruence.
Qed.

Lemma string_of_uint_digits (d : Decimal.uint) :
  Forall (fun c => isDigit c = true) (js (NilEmpty.string_of_uint d)).
Proof. induction d; cbn; constructor; done. Qed.

Lemma decimal_digits (n : N) : Forall (fun c => isDigit c = true) (decimal n).
Proof.
  unfold decimal, NilZero.string_of_uint.
  destruct (N.to_uint n) eqn:E; try apply string_of_uint_digits.
  repeat constructor.
Qed.

(** A run of digits is delimited by what follows it. *)
Lemma digit_run_unique (d1 d2 t1 t2 : JsString) :
  Forall (fun c => isDigit c = true) d1 ->
  Forall (fun c => isDigit c = true) d2 ->
  startsWithDigit t1 = false ->
  startsWithDigit t2 = false ->
  d1 ++ t1 = d2 ++ t2 ->
  d1 = d2 /\ t1 = t2.
Proof.
  intros H1. revert d2. induction H1 as [|c d1 Hc H1 IH]; intros d2 H2 Ht1 Ht2 E.
  - destruct H2 as [|c' d2 Hc' H2]; [done|].
    cbn in E. subst t1. cbn in Ht1. congruence.
  - destruct H2 as [|c' d2 Hc' H2].
    + cbn in E. subst t2. cbn in Ht2. congruence.
    + cbn in E. injection E as -> E.
      destruct (IH d2 H2 Ht1 Ht2 E) as [-> ->]. done.
Qed.

Lemma isAlnum_not_underscore (c : N) : isAlnum c = true -> c <> 95%N.
Proof. intros Hc ->. done. Qed.

Lemma safeName_head (s : JsString) :
  startsWithDigit s = false -> startsWithDigit (safeName s) = false.
Proof.
  destruct s as [|c s]; [done|]. cbn [startsWithDigit]. intros Hc.
  unfold safeName. cbn [map concat]. unfold safeChar.
  destruct (isAlnum c); cbn; done.
Qed.

Lemma safeName_cons (c : N) (s : JsString) :
  safeName (c :: s) = safeChar c ++ safeName s.
Proof. reflexivity. Qed.

Lemma safeName_injective (s1 s2 : JsString) :
  digitAfterEscape s1 = false ->
  digitAfterEscape s2 = false ->
  safeName s1 = safeName s2 ->
  s1 = s2.
Proof.
  revert s2. induction s1 as [|c1 s1 IH]; intros [|c2 s2] H1 H2 E.
  - done.
  - rewrite safeName_cons in E. unfold safeChar in E.
    destruct (isAlnum c2); discriminate E.
  - rewrite safeName_cons in E. unfold safeChar in E.
    destruct (isAlnum c1); discriminate E.
  - cbn [digitAfterEscape] in H1, H2.
    apply orb_false_iff in H1 as [H1a H1]. apply orb_false_iff in H2 as [H2a H2].
    rewrite !safeName_cons in E. unfold safeChar in E.
    destruct (isAlnum c1) eqn:A1, (isAlnum c2) eqn:A2; cbn [negb andb] in *.
    + cbn in E. injection E as -> E. f_equal. by apply IH.
    + cbn in E. injection E as -> _. by apply isAlnum_not_underscore in A1.
    + cbn in E. injection E as <- _. by apply isAlnum_not_underscore in A2.
    + cbn [app] in E. injection E as E.
      assert (Hs1 : startsWithDigit s1 = false) by (by destruct s1).
      assert (Hs2 : startsWithDigit s2 = false) by (by destruct s2).
      destruct (digit_run_unique _ _ _ _ (decimal_digits c1) (decimal_digits c2)
                  (safeName_head _ Hs1) (safeName_head _ Hs2) E) as [Ed Et].
      apply decimal_inj in Ed as ->. f_equal. by apply IH.
Qed.

Lemma safeChar_safe (c : N) :
  Forall (fun x => isAlnum x = true \/ x = 95%N) (safeChar c).
Proof.
  unfold safeChar. destruct (isAlnum c) eqn:A.
  - constructor; [by left | constructor].
  - constructor; [by right|].
    eapply Forall_impl; [apply decimal_digits|].
    intros x Hx. left. unfold isAlnum. by rewrite Hx.
Qed.

Lemma safeName_SafeImage (s : JsString) : SafeImage s (safeName s).
Proof.
  induction s as [|c s IH]; [constructor|].
  rewrite safeName_cons. unfold safeChar.
  destruct (isAlnum c) eqn:Ec; cbn [app]; by constructor.
Qed.

Lemma SafeImage_safeName (s t : JsString) : SafeImage s t -> t = safeName s.
Proof.
  induction 1 as [|c s t Hc _ IH|c s t Hc _ IH]; [done| |];
    rewrite safeName_cons; unfold safeChar; rewrite Hc, IH; done.
Qed.

(** The base name of a path [dir ++ stem ++ "." ++ ext]: the stem, when
    [dir] is empty or ends with a separator, the stem holds no separator
    and the extension is not empty and holds neither separator nor dot. *)
Lemma lastSegment_app (dir rest : JsString) :
  forallb (fun c => negb (isSep c)) rest = true ->
  lastSegment (dir ++ rest) = lastSegment dir ++ rest.
Proof.
  unfold lastSegment. rewrite fold_left_app.
  generalize (fold_left (fun acc c => if isSep c then [] else acc ++ [c]) dir []).
  induction rest as [|c rest IH]; intros acc Hrest; cbn [fold_left].
  - by rewrite app_nil_r.
  - cbn [forallb] in Hrest. apply andb_true_iff in Hrest as [Hc Hrest].
    apply negb_true_iff in Hc. rewrite Hc, (IH _ Hrest), <- app_assoc. done.
Qed.

Lemma lastSegment_sep (dir : JsString) (c : N) :
  isSep c = true -> lastSegment (dir ++ [c]) = [].
Proof.
  intros Hc. unfold lastSegment. rewrite fold_left_app. cbn [fold_left]. by rewrite Hc.
Qed.

Lemma stripExt_stem (stem ext : JsString) :
  ext <> [] ->
  forallb (fun x => negb ((x =? 47) || (x =? 46))%N) ext = true ->
  stripExt (stem ++ 46%N :: ext) = stem.
Proof.
  intros Hne Hext. induction stem as [|c stem IH]; cbn [app stripExt].
  - rewrite Hext. rewrite bool_decide_eq_false_2 by done. done.
  - rewrite IH. 
    replace (forallb (fun x => negb ((x =? 47) || (x =? 46))%N) (stem ++ 46%N :: ext))
      with false; [by rewrite andb_false_r|].
    symmetry. rewrite forallb_app. cbn [forallb]. cbn. by rewrite andb_false_r.
Qed.

Lemma baseNameOf_stem (dir stem ext : JsString) :
  (dir = [] \/ exists d c, dir = d ++ [c] /\ isSep c = true) ->
  forallb (fun c => negb (isSep c)) stem = true ->
  ext <> [] ->
  forallb (fun x => negb (isSep x) && negb (x =? 46)%N) ext = true ->
  baseNameOf (dir ++ stem ++ 46%N :: ext) = stem.
Proof.
  intros Hdir Hstem Hne Hext. unfold baseNameOf.
  assert (lastSegment (dir ++ stem ++ 46%N :: ext) = stem ++ 46%N :: ext) as ->.
  { rewrite lastSegment_app.
    - destruct Hdir as [->|(d & c & -> & Hc)]; [done|]. by rewrite lastSegment_sep.
    - rewrite forallb_app, Hstem. cbn [forallb andb]. 
      change (isSep 46) with false. cbn [negb andb].
      eapply forallb_forall. intros x Hx.
      rewrite forallb_forall in Hext. specialize (Hext x Hx).
      by apply andb_true_iff in Hext as [-> _]. }
  rewrite bool_decide_eq_false_2 by (by destruct stem).
  apply stripExt_stem; [done|].
  apply forallb_forall. intros x Hx.
  rewrite forallb_forall in Hext. specialize (Hext x Hx).
  apply andb_true_iff in Hext as [H1 H2]. unfold isSep in H1.
  apply negb_true_iff in H1. apply orb_false_iff in H1 as [H1 _].
  apply negb_true_iff in H2. by rewrite H1, H2.
Qed.

(** C8, as amended. For every source path the cache base name is the
    image of the extension-stripped base name under the transform that
    keeps the characters in [0-9A-Za-z] and replaces every other character
    by an underscore and its decimal code point, and it consists of
    letters, digits and underscores only; two base names in which no
    replaced character is directly followed by a digit get the same cache
    name only if they are equal. *)
Theorem safeBase_transform (p1 p2 : JsString) :
  (forall t, SafeImage (baseNameOf p1) t <-> t = _safeBaseFromPath p1) /\
  Forall (fun x => isAlnum x = true \/ x = 95%N) (_safeBaseFromPath p1) /\
  (digitAfterEscape (baseNameOf p1) = false ->
   digitAfterEscape (baseNameOf p2) = false ->
   _safeBaseFromPath p1 = _safeBaseFromPath p2 -> baseNameOf p1 = baseNameOf p2).
Proof.
  split; [|split].
  - intros t. split; [apply SafeImage_safeName|].
    intros ->. apply safeName_SafeImage.
  - unfold _safeBaseFromPath, safeName.
    apply Forall_concat, Forall_map, Forall_forall.
    intros c _. apply safeChar_safe.
  - apply safeName_injective.
Qed.

Lemma safeBase_transform_witness :
  SafeImage (baseNameOf (js "/tmp/my cat.gif")) (js "my_32cat") /\
  baseNameOf (js "/tmp/my cat.gif") = baseNameOf (js "C:\pics\my cat.jpeg").
Proof.
  destruct (safeBase_transform (js "/tmp/my cat.gif") (js "C:\pics\my cat.jpeg"))
    as (Himg & _ & Hinj).
  split.
  - apply Himg. vm_compute. reflexivity.
  - apply Hinj; vm_compute; reflexivity.
Defined.

(** The base names [_1] and [η] (code point 951) share the cache name
    [_951]. *)
Lemma safeBase_collision :
  baseNameOf (js "/w/_1.gif") <> baseNameOf (js "/w/" ++ [951%N] ++ js ".gif") /\
  _safeBaseFromPath (js "/w/_1.gif")
    = _safeBaseFromPath (js "/w/" ++ [951%N] ++ js ".gif").
Proof. split; [vm_compute; discriminate | vm_compute; reflexivity]. Qed.

Example safeBase_examples :
  _safeBaseFromPath (js "/w/cat.gif") = js "cat" /\
  _safeBaseFromPath (js "/tmp/my cat-2.gif") = js "my_32cat_452" /\
  _safeBaseFromPath (js "C:\gifs\dog.v1.gif") = js "dog_46v1" /\
  _safeBaseFromPath (js "/w/") = js "gif".
Proof. vm_compute. done. Qed.

Example baseNameOf_examples :
  baseNameOf (js "/w/IMG_0001.gif") = js "IMG_0001" /\
  baseNameOf (js "C:\gifs\dog.v1.gif") = js "dog.v1" /\
  baseNameOf (js "/w/.gif") = js "" /\
  baseNameOf (js "/w/") = js "gif" /\
  baseNameOf (js "cat") = js "cat".
Proof. vm_compute. done. Qed.

(** ** Preload cache *)

Lemma length_map_set (k : nat) (v : HTMLImageElement) (m : ImageMap) :
  (length m <= length (map_set k v m) <= S (length m))%nat.
Proof.
  induction m as [|[k' v'] m IH]; cbn [map_set length]; [lia|].
  case_bool_decide; cbn [length]; lia.
Qed.

Lemma length_map_delete (k : nat) (m : ImageMap) :
  (length (map_delete k m) <= length m)%nat.
Proof. apply length_filter. Qed.

Lemma length_map_delete_first (m : ImageMap) (k : nat) :
  map_firstKey m = Some k ->
  (S (length (map_delete k m)) <= length m)%nat.
Proof.
  destruct m as [|[k' v'] m]; [done|]. intros [= ->].
  unfold map_delete. rewrite filter_cons_False by (cbn; auto).
  pose proof (length_filter (fun e : nat * HTMLImageElement => fst e ≠ k) m).
  cbn [length]. lia.
Qed.

(** The insertion of [preloadFrames] keeps a cache of at most 20 entries
    at most 20 entries large. *)
Lemma preload_onload_bounded (i : nat) (img : HTMLImageElement) (p : Player) :
  (length (preloadCache p) <= 20)%nat ->
  (length (preloadCache (preload_onload i img p)) <= 20)%nat.
Proof.
  intros Hp. unfold preload_onload.
  pose proof (length_map_set i img (preloadCache p)) as Hs.
  destruct (20 <? length (map_set i img (preloadCache p)))%nat eqn:E.
  - destruct (map_firstKey (map_set i img (preloadCache p))) as [k|] eqn:Ek.
    + apply length_map_delete_first in Ek. cbn [preloadCache]. lia.
    + destruct (map_set i img (preloadCache p)); cbn in *; [lia|done].
  - apply Nat.ltb_ge in E. cbn [preloadCache]. lia.
Qed.

Lemma preload_inserts_bounded (es : list CacheInsert) (p : Player) :
  forallb isPreload es = true ->
  (length (preloadCache p) <= 20)%nat ->
  (length (preloadCache (run_inserts es p)) <= 20)%nat.
Proof.
  revert p. induction es as [|[i img|i img] es IH]; intros p Hes Hp; cbn in *; [done| |done].
  apply IH; [done|]. by apply preload_onload_bounded.
Qed.

Lemma map_has_cons (i k : nat) (v : HTMLImageElement) (m : ImageMap) :
  map_has i ((k, v) :: m) = false -> k <> i /\ map_has i m = false.
Proof.
  unfold map_has, map_get. cbn [find fst].
  destruct (decide (k = i)) as [->|Hk].
  - rewrite (bool_decide_eq_true_2 (i = i)) by done.
    intros Hf. apply bool_decide_eq_false in Hf. destruct Hf. by eexists.
  - by rewrite (bool_decide_eq_false_2 (k = i)).
Qed.

Lemma map_set_fresh (i : nat) (img : HTMLImageElement) (m : ImageMap) :
  map_has i m = false -> map_set i img m = m ++ [(i, img)].
Proof.
  induction m as [|[k v] m IH]; [done|].
  intros Hh. apply map_has_cons in Hh as [Hk Hh].
  cbn [map_set]. rewrite bool_decide_eq_false_2 by done.
  rewrite IH by done. done.
Qed.

Lemma map_delete_absent (k : nat) (m : ImageMap) :
  k ∉ map fst m -> map_delete k m = m.
Proof.
  induction m as [|[k' v'] m IH]; [done|].
  cbn [map fst]. intros Hk. apply not_elem_of_cons in Hk as [Hne Hk].
  unfold map_delete. rewrite filter_cons_True by (cbn; done).
  f_equal. by apply IH.
Qed.

(** A full cache that receives a new index through [preloadFrames] loses
    exactly its oldest entry, whose blob URL is revoked once. *)
Lemma preload_onload_evicts (i k : nat) (old img : HTMLImageElement)
    (m : ImageMap) (p : Player) :
  preloadCache p = (k, old) :: m ->
  length m = 19%nat ->
  map_has i (preloadCache p) = false ->
  NoDup (map fst (preloadCache p)) ->
  isPrefix (js "blob:") (img_src old) = true ->
  preload_onload i img p
  = mkPlayer (m ++ [(i, img)]) (preloading p) (revoked p ++ [img_src old]).
Proof.
  intros Hc Hlen Hhas Hnd Hblob. unfold preload_onload. rewrite Hc in *.
  rewrite (map_set_fresh _ _ _ Hhas).
  apply map_has_cons in Hhas as [Hki Hhas].
  cbn [map fst] in Hnd. apply NoDup_cons in Hnd as [Hk _].
  replace (20 <? length (((k, old) :: m) ++ [(i, img)]))%nat with true
    by (rewrite length_app; cbn [length]; rewrite Hlen; reflexivity).
  cbn [app map_firstKey head fmap option_fmap option_map fst].
  unfold map_get. cbn [find fst]. rewrite bool_decide_eq_true_2 by done.
  cbn [fmap option_fmap option_map snd]. rewrite Hblob.
  f_equal. unfold map_delete. rewrite filter_cons_False by (cbn; auto).
  rewrite filter_app.
  rewrite (filter_cons_True _ (i, img) []) by (cbn; done).
  rewrite filter_nil. f_equal.
  by apply map_delete_absent.
Qed.

Lemma map_has_fresh (k : nat) (m : ImageMap) :
  Forall (fun e => (fst e < k)%nat) m -> map_has k m = false.
Proof.
  induction 1 as [|[k' v'] m Hk _ IH]; [done|].
  unfold map_has, map_get in *. cbn [find fst] in *.
  rewrite (bool_decide_eq_false_2 (k' = k)) by lia. exact IH.
Qed.

(** The insertions of [renderFrame] alone grow the cache without bound
    and revoke nothing. *)
Lemma render_inserts_unbounded (a n : nat) (p : Player) :
  Forall (fun e => (fst e < a)%nat) (preloadCache p) ->
  length (preloadCache (run_inserts (renders a n) p)) = (length (preloadCache p) + n)%nat /\
  revoked (run_inserts (renders a n) p) = revoked p.
Proof.
  revert a p. induction n as [|n IH]; intros a p Hp; [cbn; split; [lia|done]|].
  cbn [renders seq map run_inserts fold_left cache_insert].
  change (fold_left cache_insert (map (fun i => ByRender i (frameImage i)) (seq (S a) n))
            (render_onload a (frameImage a) p))
    with (run_inserts (renders (S a) n) (render_onload a (frameImage a) p)).
  destruct (IH (S a) (render_onload a (frameImage a) p)) as [Hl Hr].
  - cbn [render_onload preloadCache]. rewrite map_set_fresh by (by apply map_has_fresh).
    apply Forall_app. split.
    + eapply Forall_impl; [exact Hp|]. cbn. intros e He. lia.
    + repeat constructor.
  - rewrite Hl, Hr. cbn [render_onload preloadCache revoked].
    rewrite map_set_fresh by (by apply map_has_fresh).
    rewrite length_app. cbn [length]. split; [lia|done].
Qed.

(** Scenario 2 of the specification, along [preloadFrames]: indices 0..24
    inserted in turn; 0..4 are gone, each of their URLs revoked once. *)
Example preload_0_to_24 :
  let p := run_inserts (preloads 0 25) emptyPlayer in
  map fst (preloadCache p) = seq 5 20 /\
  revoked p = map blobUrl (seq 0 5).
Proof. vm_compute. done. Qed.

(** C1, at the failing input: the insertion of [renderFrame] never evicts.
    Frames 0..20 shown one by one with playback paused leave 21 images in
    the cache, none revoked; with 25 frames the cache holds 25 and frame 0
    is still served from it. *)
Theorem render_inserts_exceed_capacity :
  length (preloadCache (run_inserts (renders 0 21) emptyPlayer)) = 21%nat /\
  revoked (run_inserts (renders 0 21) emptyPlayer) = [] /\
  length (preloadCache (run_inserts (renders 0 25) emptyPlayer)) = 25%nat /\
  map_has 0 (preloadCache (run_inserts (renders 0 25) emptyPlayer)) = true.
Proof. vm_compute. done. Qed.

(** ** Auto-pause *)

Lemma ui_step_ref_sticky (u : ExtractUi) (e : UiEvent) :
  autoPauseTriggeredRef u = true -> autoPauseTriggeredRef (ui_step u e) = true.
Proof.
  intros Hr. destruct e as [s c t| |]; cbn; [|done|done].
  unfold on_extract_progress, autoPauseDue. rewrite Hr.
  by rewrite andb_false_r.
Qed.

Lemma autoPauseCount_after_trigger (es : list UiEvent) (u : ExtractUi) :
  autoPauseTriggeredRef u = true -> autoPauseCount es u = 0%nat.
Proof.
  revert u. induction es as [|e es IH]; intros u Hr; [done|].
  cbn [autoPauseCount]. rewrite IH by (by apply ui_step_ref_sticky).
  destruct e; [|done|done].
  unfold autoPauseDue. rewrite Hr. by rewrite andb_false_r.
Qed.

(** Whatever the events, jobs included, the listener pauses by itself at
    most once. *)
Lemma autoPauseCount_le_1 (es : list UiEvent) (u : ExtractUi) :
  (autoPauseCount es u <= 1)%nat.
Proof.
  revert u. induction es as [|e es IH]; intros u; [cbn; lia|].
  cbn [autoPauseCount].
  destruct e as [s c t| |]; [|apply (IH _)|apply (IH _)].
  destruct (autoPauseDue c t u) eqn:Edue; [|apply (IH _)].
  rewrite autoPauseCount_after_trigger; [lia|].
  cbn. unfold on_extract_progress. by rewrite Edue.
Qed.

(** The first report at or beyond 1000 of more than 1000 frames pauses
    the extraction. *)
Lemma first_crossing_pauses (s : Stage) (c t : Z) (u : ExtractUi) :
  autoPauseTriggeredRef u = false ->
  1000 < t -> 1000 <= c ->
  let u' := on_extract_progress s c t u in
  isExtractPaused u' = true /\ invoked u' = invoked u ++ [pause_extraction].
Proof.
  intros Hr Ht Hc. unfold on_extract_progress, autoPauseDue. rewrite Hr.
  apply Z.ltb_lt in Ht. apply Z.leb_le in Hc. rewrite Ht, Hc. done.
Qed.

(** Starting a job resets the unused [hasAutoPassedOnce] state, not the
    ref the listener reads. *)
Lemma new_job_keeps_ref (u : ExtractUi) :
  autoPauseTriggeredRef (on_new_job u) = autoPauseTriggeredRef u /\
  hasAutoPassedOnce (on_new_job u) = false.
Proof. done. Qed.

(** C2, at the failing input: two jobs of 1500 frames in one session.
    The first is paused when its progress reaches 1000; the second runs
    past 1000 and is never paused, and only one [pause_extraction] was
    sent. *)
Theorem second_job_not_auto_paused :
  isExtractPaused (ui_run job1500 extractUi0) = true /\
  isExtractPaused (ui_run (job1500 ++ job1500) extractUi0) = false /\
  ep_fullframes (extractProgress (ui_run (job1500 ++ job1500) extractUi0)) = (1100, 1500) /\
  invoked (ui_run (job1500 ++ job1500) extractUi0) = [pause_extraction] /\
  autoPauseCount (job1500 ++ job1500) extractUi0 = 1%nat.
Proof. vm_compute. done. Qed.

(** Scenario 1 of the specification: within one job, a resume and a
    second report beyond 1000 do not pause again. *)
Example one_job_pauses_once :
  let es := job1500 ++ [TogglePause; Progress fullframes 1200 1500] in
  isExtractPaused (ui_run es extractUi0) = false /\
  invoked (ui_run es extractUi0) = [pause_extraction; resume_extraction] /\
  autoPauseCount es extractUi0 = 1%nat.
Proof. vm_compute. done. Qed.

(** ** Frame-rate preview *)

Lemma keptOf_Kept (d : Z) (g : list FpsOut) : keptOf (Kept d :: g) = d :: keptOf g.
Proof. reflexivity. Qed.

Lemma keptOf_Merged (a : Z) (g : list FpsOut) : keptOf (Merged a :: g) = keptOf g.
Proof. reflexivity. Qed.

Lemma sumZ_app (a b : list Z) : sumZ (a ++ b) = sumZ a + sumZ b.
Proof. unfold sumZ. induction a as [|x a IH]; cbn [foldr app]; [done|]. rewrite IH. lia. Qed.

Lemma filter_all_false (thr : Z) (l : list Z) :
  Forall (fun d => d < thr) l -> filter (fun d => thr <= d) l = [].
Proof.
  induction 1 as [|d l Hd _ IH]; [done|].
  rewrite filter_cons_False by lia. done.
Qed.

(** The merge loop started at [j] extends the group by a run of fast
    frames that lies inside the array. *)
Lemma merge_loop_spec (frames : list Z) (thr : Z) (i steps j : nat) (acc : Z) :
  (i + j <= length frames)%nat ->
  exists run : list Z,
    merge_loop frames thr i steps j acc j = (acc + sumZ run, (j + length run)%nat) /\
    Forall (fun d => d < thr) run /\
    drop (i + j) frames = run ++ drop (i + j + length run) frames.
Proof.
  revert j acc. induction steps as [|steps IH]; intros j acc Hj.
  - exists []. cbn. rewrite Z.add_0_r, !Nat.add_0_r. done.
  - cbn [merge_loop].
    destruct (frames !! (i + j)%nat) as [next|] eqn:El.
    + destruct (next <? thr) eqn:Efast.
      * apply Z.ltb_lt in Efast.
        pose proof (lookup_lt_Some _ _ _ El) as Hlt.
        destruct (IH (S j) (acc + next)) as (run & Hm & Hf & Hd); [lia|].
        exists (next :: run). cbn [sumZ foldr length].
        split; [|split].
        -- rewrite Hm. f_equal; [unfold sumZ; lia | lia].
        -- by constructor.
        -- rewrite (drop_S _ _ _ El). cbn [app]. f_equal.
           replace (S (i + j)) with (i + S j)%nat by lia. rewrite Hd.
           f_equal. f_equal. lia.
      * exists []. cbn. rewrite Z.add_0_r, !Nat.add_0_r. done.
    + exists []. cbn. rewrite Z.add_0_r, !Nat.add_0_r. done.
Qed.

Lemma fps_while_spec (frames : list Z) (thr K : Z) (fuel i : nat) :
  (length frames - i <= fuel)%nat ->
  exists groups,
    fps_while frames thr K fuel i = Some groups /\
    keptOf groups = filter (fun d => thr <= d) (drop i frames) /\
    (length groups <= length frames - i)%nat /\
    (forallb (fun o => negb (isMergedOver o)) groups = true ->
     sumZ (map pushed groups) = sumZ (drop i frames)).
Proof.
  revert i. induction fuel as [|fuel IH]; intros i Hfuel.
  - assert (frames !! i = None) as El by (apply lookup_ge_None; lia).
    exists []. cbn [fps_while]. rewrite El.
    rewrite drop_ge by lia. repeat split; cbn; lia.
  - cbn [fps_while].
    destruct (frames !! i) as [cur|] eqn:El.
    2:{ exists []. apply lookup_ge_None in El.
        rewrite drop_ge by lia. repeat split; cbn; lia. }
    pose proof (lookup_lt_Some _ _ _ El) as Hlt.
    rewrite (drop_S _ _ _ El).
    destruct (thr <=? cur) eqn:Eslow.
    + apply Z.leb_le in Eslow.
      destruct (IH (i + 1)%nat) as (groups & Hw & Hk & Hlen & Hsum); [lia|].
      exists (Kept cur :: groups). rewrite Hw. cbn [mbind option_bind].
      replace (S i) with (i + 1)%nat by lia.
      split; [done|]. split; [|split].
      * rewrite keptOf_Kept, filter_cons_True by done. by rewrite Hk.
      * cbn [length]. lia.
      * cbn [forallb isMergedOver negb andb map pushed sumZ foldr].
        intros Hno. specialize (Hsum Hno). unfold sumZ in Hsum. lia.
    + apply Z.leb_gt in Eslow.
      destruct (merge_loop_spec frames thr i (Z.to_nat (K - 1)) 1 cur)
        as (run & Hm & Hfast & Hd); [lia|].
      rewrite Hm.
      destruct (IH (i + (1 + length run))%nat) as (groups & Hw & Hk & Hlen & Hsum).
      { assert (Hl := f_equal length Hd).
        rewrite length_app, !length_drop in Hl. lia. }
      exists (Merged (cur + sumZ run) :: groups). rewrite Hw. cbn [mbind option_bind].
      replace (S i) with (i + 1)%nat by lia. rewrite Hd.
      replace (i + 1 + length run)%nat with (i + (1 + length run))%nat by lia.
      split; [done|]. split; [|split].
      * rewrite keptOf_Merged, filter_cons_False by lia.
        rewrite filter_app, filter_all_false by done. cbn [app].
        by rewrite Hk.
      * assert (Hl := f_equal length Hd).
        rewrite length_app, !length_drop in Hl. cbn [length]. lia.
      * cbn [forallb isMergedOver negb andb map pushed].
        intros Hno. apply andb_true_iff in Hno as [Hacc Hno].
        apply negb_true_iff, Z.ltb_ge in Hacc.
        specialize (Hsum Hno).
        change (sumZ (?x :: ?l)) with (x + sumZ l).
        rewrite sumZ_app, Hsum. lia.
Qed.

(** C10. The frame-rate preview terminates; the frames at or above the
    threshold are exactly the delays it pushes unchanged, in order; it
    pushes at most one delay per input frame; a merged delay is at most
    65535; and when no merged group accumulates more than 65535 the pushed
    delays add up to the input duration. *)
Theorem fps_preview_properties (frames : list Z) (fpsDelayThreshold fpsKeepInterval : Z) :
  exists groups,
    fpsGroups frames fpsDelayThreshold fpsKeepInterval = Some groups /\
    fpsNewDelays frames fpsDelayThreshold fpsKeepInterval = Some (map pushed groups) /\
    keptOf groups = filter (fun d => fpsDelayThreshold <= d) frames /\
    (length (map pushed groups) <= length frames)%nat /\
    Forall (fun o => match o with
                     | Merged _ => pushed o <= 65535
                     | Kept d => pushed o = d
                     end) groups /\
    (forallb (fun o => negb (isMergedOver o)) groups = true ->
     sumZ (map pushed groups) = sumZ frames).
Proof.
  destruct (fps_while_spec frames fpsDelayThreshold fpsKeepInterval (length frames) 0)
    as (groups & Hw & Hk & Hlen & Hsum); [lia|].
  exists groups. unfold fpsNewDelays, fpsGroups. rewrite Hw.
  rewrite drop_0 in Hk, Hsum.
  repeat split; try done.
  - rewrite length_map. lia.
  - apply Forall_forall. intros [d|acc] _; cbn [pushed]; lia.
Qed.

Lemma fps_preview_properties_witness :
  fpsNewDelays [40; 40; 200; 40; 40; 40] 100 2 = Some [80; 200; 80; 40] /\
  sumZ [80; 200; 80; 40] = sumZ [40; 40; 200; 40; 40; 40].
Proof.
  destruct (fps_preview_properties [40; 40; 200; 40; 40; 40] 100 2)
    as (groups & Hg & Hn & _ & _ & _ & Hsum).
  vm_compute in Hg. injection Hg as <-.
  split; [exact Hn|]. apply Hsum. reflexivity.
Defined.

(** A group that accumulates more than 65535 is capped, and the total
    duration shrinks. *)
Example fps_cap_loses_duration :
  fpsNewDelays [40000; 40000] 50000 2 = Some [65535].
Proof. vm_compute. done. Qed.

(** ** Speed adjustment *)

Lemma sumZ_cons (x : Z) (l : list Z) : sumZ (x :: l) = x + sumZ l.
Proof. reflexivity. Qed.

Lemma stepCount_cons (dir v : Z) (seg : list Z) :
  stepCount dir (v :: seg) = (if canStep dir v then 1 else 0) + stepCount dir seg.
Proof. reflexivity. Qed.

Lemma stepCount_nonneg (dir : Z) (seg : list Z) : 0 <= stepCount dir seg.
Proof.
  induction seg as [|v seg IH]; [done|].
  rewrite stepCount_cons. destruct (canStep dir v); lia.
Qed.

(** What one pass does: it absorbs as much of [diff] as there are frames
    it may change, one millisecond each, from the front. *)
Lemma pass_list_spec (dir : Z) (seg : list Z) (diff : Z) :
  0 <= diff ->
  length (fst (pass_list dir seg diff)) = length seg /\
  0 <= snd (pass_list dir seg diff) <= diff /\
  sumZ (fst (pass_list dir seg diff))
    = sumZ seg + dir * (diff - snd (pass_list dir seg diff)) /\
  diff - snd (pass_list dir seg diff) = Z.min diff (stepCount dir seg) /\
  (0 < snd (pass_list dir seg diff) ->
   fst (pass_list dir seg diff) = map (stepOnce dir) seg).
Proof.
  revert diff. induction seg as [|v seg IH]; intros diff Hd.
  - cbn. repeat split; try lia. 
  - cbn [pass_list]. rewrite stepCount_cons. unfold stepOnce, canStep.
    pose proof (stepCount_nonneg dir seg) as Hsc.
    destruct (0 <? diff) eqn:Ed.
    + apply Z.ltb_lt in Ed.
      destruct ((dir <? 0) && (v + dir <? 10)) eqn:Eskip; cbn [negb fst snd].
      * destruct (IH diff Hd) as (Hl & Hr & Hs & Ha & Hm).
        rewrite sumZ_cons, !sumZ_cons, Hs. cbn [length map].
        repeat split; try lia.
        intros Hpos. rewrite Eskip. cbn [negb]. f_equal. by apply Hm.
      * destruct (IH (diff - 1)) as (Hl & Hr & Hs & Ha & Hm); [lia|].
        rewrite !sumZ_cons, Hs. cbn [length map].
        repeat split; try lia.
        intros Hpos. rewrite Eskip. cbn [negb]. f_equal. by apply Hm.
    + apply Z.ltb_ge in Ed. cbn [fst snd].
      repeat split; try lia.
      destruct (negb _); lia.
Qed.

Lemma pass_list_floor (dir : Z) (seg : list Z) (diff : Z) :
  dir = 1 \/ dir = -1 ->
  Forall (fun v => 10 <= v) seg ->
  Forall (fun v => 10 <= v) (fst (pass_list dir seg diff)).
Proof.
  intros Hdir. revert diff. induction seg as [|v seg IH]; intros diff Hf; [done|].
  apply Forall_cons in Hf as [Hv Hf]. cbn [pass_list].
  destruct (0 <? diff); [|by constructor].
  destruct ((dir <? 0) && (v + dir <? 10)) eqn:Eskip; cbn [fst].
  - constructor; [done|]. by apply IH.
  - constructor; [|by apply IH].
    apply andb_false_iff in Eskip as [E|E]; [apply Z.ltb_ge in E | apply Z.ltb_ge in E]; lia.
Qed.

Lemma passCapacity_steps (dir : Z) (seg : list Z) :
  dir = 1 \/ dir = -1 ->
  passCapacity dir seg = stepCount dir seg + stepCount dir (map (stepOnce dir) seg).
Proof.
  intros Hdir. unfold passCapacity.
  induction seg as [|v seg IH]; [by destruct (0 <? dir)|].
  cbn [map length]. rewrite !stepCount_cons, sumZ_cons.
  unfold stepOnce at 1. unfold canStep at 1 2 3.
  destruct Hdir as [-> | ->].
  - change (0 <? 1) with true in *. change (1 <? 0) with false.
    cbn [andb negb] in *. lia.
  - change (0 <? -1) with false in *. change (-1 <? 0) with true.
    cbn [andb] in *.
    destruct (v + -1 <? 10) eqn:E1; cbn [negb].
    + rewrite E1. cbn [negb]. apply Z.ltb_lt in E1. lia.
    + apply Z.ltb_ge in E1.
      destruct (v + -1 + -1 <? 10) eqn:E2; cbn [negb];
        [apply Z.ltb_lt in E2 | apply Z.ltb_ge in E2]; lia.
Qed.

(** The two passes together absorb the residual up to the capacity. *)
Lemma two_passes_spec (dir : Z) (seg : list Z) (diff : Z) :
  0 <= diff ->
  dir = 1 \/ dir = -1 ->
  let r1 := pass_list dir seg diff in
  let r2 := pass_list dir (fst r1) (snd r1) in
  length (fst r2) = length seg /\
  sumZ (fst r2) = sumZ seg + dir * Z.min diff (passCapacity dir seg).
Proof.
  intros Hd Hdir r1 r2. subst r1 r2.
  destruct (pass_list_spec dir seg diff Hd) as (Hl1 & Hr1 & Hs1 & Ha1 & Hm1).
  destruct (pass_list_spec dir (fst (pass_list dir seg diff))
              (snd (pass_list dir seg diff))) as (Hl2 & Hr2 & Hs2 & Ha2 & Hm2); [lia|].
  split; [by rewrite Hl2|].
  rewrite Hs2, Hs1, (passCapacity_steps dir seg Hdir).
  pose proof (stepCount_nonneg dir seg) as Hc1.
  pose proof (stepCount_nonneg dir (map (stepOnce dir) seg)) as Hc2.
  destruct (Z.eq_dec (snd (pass_list dir seg diff)) 0) as [E0|E0].
  - rewrite E0 in *.
    pose proof (stepCount_nonneg dir (fst (pass_list dir seg diff))) as Hc3.
    destruct Hdir as [-> | ->]; lia.
  - assert (Hmap := Hm1 ltac:(lia)). rewrite Hmap in Ha2 |- *.
    destruct Hdir as [-> | ->]; lia.
Qed.

Lemma pass_list_length (dir : Z) (seg : list Z) (diff : Z) :
  length (fst (pass_list dir seg diff)) = length seg.
Proof.
  revert diff. induction seg as [|v seg IH]; intros diff; [done|].
  cbn [pass_list]. destruct (0 <? diff); [|done].
  destruct ((dir <? 0) && (v + dir <? 10)); cbn [fst length]; by rewrite IH.
Qed.

Lemma passCapacity_nonneg (dir : Z) (seg : list Z) :
  dir = 1 \/ dir = -1 -> 0 <= passCapacity dir seg.
Proof.
  intros Hdir. rewrite passCapacity_steps by done.
  pose proof (stepCount_nonneg dir seg).
  pose proof (stepCount_nonneg dir (map (stepOnce dir) seg)). lia.
Qed.

Section SpeedProofs.
Context `{Float64}.

Lemma pass_loop_segment (dir : Z) (pre seg post : list Z) (diff : Z) :
  pass_loop dir (length seg) (length pre) (pre ++ seg ++ post) diff
  = Some (pre ++ fst (pass_list dir seg diff) ++ post, snd (pass_list dir seg diff)).
Proof.
  revert pre diff. induction seg as [|v seg IH]; intros pre diff; [done|].
  cbn [length pass_loop pass_list].
  destruct (0 <? diff) eqn:Ed; [|done].
  rewrite lookup_app_r by lia. rewrite Nat.sub_diag. cbn [app lookup list_lookup].
  assert (Hshift : forall x : Z, pre ++ x :: seg ++ post = (pre ++ [x]) ++ seg ++ post)
    by (intros x; by rewrite <- app_assoc).
  assert (Hlen : forall x : Z, S (length pre) = length (pre ++ [x]))
    by (intros x; rewrite length_app; cbn; lia).
  destruct ((dir <? 0) && (v + dir <? 10)) eqn:Eskip.
  - rewrite (Hshift v), (Hlen v), IH. cbn [fst snd].
    by rewrite <- app_assoc.
  - replace (<[length pre:=v + dir]> (pre ++ v :: seg ++ post))
      with (pre ++ (v + dir) :: seg ++ post).
    2:{ rewrite insert_app_r_alt by lia. by rewrite Nat.sub_diag. }
    rewrite (Hshift (v + dir)), (Hlen (v + dir)), IH. cbn [fst snd].
    by rewrite <- app_assoc.
Qed.

Lemma range_split (l : list Z) (rs re : nat) :
  (rs <= re)%nat -> (re < length l)%nat ->
  l = take rs l ++ slice rs (re + 1) l ++ drop (re + 1) l /\
  length (take rs l) = rs /\
  length (slice rs (re + 1) l) = (re + 1 - rs)%nat.
Proof.
  intros Hle Hlt. unfold slice. split; [|split].
  - rewrite <- (take_drop rs l) at 1. f_equal.
    rewrite <- (take_drop (re + 1 - rs) (drop rs l)) at 1. f_equal.
    rewrite drop_drop. f_equal. lia.
  - rewrite length_take. lia.
  - rewrite length_take, length_drop. lia.
Qed.

Lemma rangeSum_segment (pre seg post : list Z) (rs re : nat) :
  length pre = rs -> length seg = (re + 1 - rs)%nat ->
  rangeSum rs re (pre ++ seg ++ post) = sumZ seg.
Proof.
  intros Hp Hs. unfold rangeSum, slice.
  rewrite drop_app_length' by done. by rewrite take_app_length'.
Qed.

Lemma slice_segment (pre seg post : list Z) (rs re : nat) :
  length pre = rs -> length seg = (re + 1 - rs)%nat ->
  slice rs (re + 1) (pre ++ seg ++ post) = seg.
Proof.
  intros Hp Hs. unfold slice.
  rewrite drop_app_length' by done. by rewrite take_app_length'.
Qed.

Lemma lookup_outside_segment (pre seg seg' post : list Z) (rs re i : nat) :
  (rs <= re)%nat ->
  length pre = rs -> length seg = (re + 1 - rs)%nat -> length seg' = length seg ->
  inRange rs re i = false ->
  (pre ++ seg' ++ post) !! i = (pre ++ seg ++ post) !! i.
Proof.
  intros Hle Hp Hs Hs' Hout. unfold inRange in Hout.
  apply andb_false_iff in Hout as [Hi|Hi];
    [apply Nat.leb_gt in Hi | apply Nat.leb_gt in Hi].
  - rewrite !lookup_app_l by lia. done.
  - rewrite !lookup_app_r by lia. rewrite Hp, Hs'. done.
Qed.

Lemma scaleDelays_outside (frames : list Z) (rs re : nat) (t c : Z) (i : nat) :
  inRange rs re i = false ->
  scaleDelays frames rs re t c !! i = frames !! i.
Proof.
  intros Hout. unfold scaleDelays. rewrite list_lookup_imap, Hout.
  by destruct (frames !! i).
Qed.

Lemma scaleDelays_floor (frames : list Z) (rs re : nat) (t c : Z) :
  Forall (fun v => 10 <= v) (slice rs (re + 1) (scaleDelays frames rs re t c)).
Proof.
  apply Forall_lookup. intros k v Hk. unfold slice in Hk.
  pose proof (lookup_lt_Some _ _ _ Hk) as Hlt. rewrite length_take in Hlt.
  rewrite lookup_take_lt, lookup_drop in Hk by lia.
  unfold scaleDelays in Hk. rewrite list_lookup_imap in Hk.
  destruct (frames !! (rs + k)%nat) as [d|]; [|done]. cbn in Hk.
  replace (inRange rs re (rs + k)) with true in Hk.
  - injection Hk as <-. lia.
  - symmetry. unfold inRange. apply andb_true_iff.
    split; [apply Nat.leb_le | apply Nat.leb_le]; lia.
Qed.

Lemma distribute_segment (dir : Z) (pre seg post : list Z) (rs re : nat) (diff : Z) :
  length pre = rs -> length seg = (re + 1 - rs)%nat ->
  distribute dir rs re (pre ++ seg ++ post) diff
  = Some (pre ++ fst (pass_list dir (fst (pass_list dir seg diff))
                        (snd (pass_list dir seg diff))) ++ post,
          snd (pass_list dir (fst (pass_list dir seg diff))
                 (snd (pass_list dir seg diff)))).
Proof.
  intros Hp Hs. unfold distribute. rewrite <- Hs, <- Hp.
  rewrite pass_loop_segment. cbn [mbind option_bind fst snd].
  pose proof (pass_list_length dir seg diff) as Hl.
  rewrite <- Hl. apply pass_loop_segment.
Qed.

(** C7, as amended. With a range inside the frame list and positive
    current and target sums, the speed adjustment leaves the delays
    outside the range unchanged and, when it changes anything, keeps
    every delay of the range at 10 ms or more; the two passes move the
    range sum toward the target by the residual or by their capacity,
    whichever is smaller, so the range sums to the target exactly when
    the residual left after scaling, rounding and clamping fits the
    capacity: two milliseconds per frame upward, and downward one
    millisecond for each frame at 11 ms and two for each frame above. *)
Theorem speed_adjust (frames : list Z) (rangeStart rangeEnd : nat) (targetSum : Z) :
  (rangeStart <= rangeEnd)%nat ->
  (rangeEnd < length frames)%nat ->
  0 < rangeSum rangeStart rangeEnd frames ->
  0 < targetSum ->
  let currentRangeSum := rangeSum rangeStart rangeEnd frames in
  let scaled := scaleDelays frames rangeStart rangeEnd targetSum currentRangeSum in
  let residual := targetSum - rangeSum rangeStart rangeEnd scaled in
  let dir := if 0 <? residual then 1 else -1 in
  let capacity := passCapacity dir (slice rangeStart (rangeEnd + 1) scaled) in
  exists out,
    adjustSpeed frames rangeStart rangeEnd targetSum = Some out /\
    length out = length frames /\
    (forall i, inRange rangeStart rangeEnd i = false -> out !! i = frames !! i) /\
    (targetSum <> currentRangeSum ->
     Forall (fun v => 10 <= v) (slice rangeStart (rangeEnd + 1) out) /\
     rangeSum rangeStart rangeEnd out
       = rangeSum rangeStart rangeEnd scaled + dir * Z.min (Z.abs residual) capacity) /\
    (rangeSum rangeStart rangeEnd out = targetSum <->
     targetSum = currentRangeSum \/ Z.abs residual <= capacity).
Proof.
  intros Hle Hlt Hcur Htgt currentRangeSum scaled residual dir capacity.
  unfold adjustSpeed. fold currentRangeSum. fold scaled. fold residual.
  assert (Hdir : dir = 1 \/ dir = -1) by (subst dir; destruct (0 <? residual); auto).
  pose proof (passCapacity_nonneg dir (slice rangeStart (rangeEnd + 1) scaled) Hdir) as Hcap.
  fold capacity in Hcap.
  apply Z.ltb_lt in Htgt. rewrite Htgt. cbn [andb].
  destruct (targetSum =? currentRangeSum) eqn:Eeq; cbn [negb].
  { apply Z.eqb_eq in Eeq. exists frames. repeat split; try done.
    - intros _. by left. }
  apply Z.eqb_neq in Eeq.
  assert (Hlen : length scaled = length frames) by apply length_imap.
  destruct (range_split scaled rangeStart rangeEnd Hle) as (Hsplit & Hpre & Hseg); [lia|].
  set (pre := take rangeStart scaled) in *.
  set (seg := slice rangeStart (rangeEnd + 1) scaled) in *.
  set (post := drop (rangeEnd + 1) scaled) in *.
  assert (Hfloor : Forall (fun v => 10 <= v) seg) by apply scaleDelays_floor.
  assert (Hsum : rangeSum rangeStart rangeEnd scaled = sumZ seg).
  { rewrite Hsplit. by apply rangeSum_segment. }
  destruct (residual =? 0) eqn:Eres; cbn [negb].
  { apply Z.eqb_eq in Eres. exists scaled.
    split; [done|]. split; [done|]. split; [|split].
    - intros i Hi. by apply scaleDelays_outside.
    - intros _. split; [done|]. rewrite Eres. cbn [Z.abs]. lia.
    - subst residual. split; [intros _; right|intros _]; lia. }
  apply Z.eqb_neq in Eres.
  replace (if 0 <? residual then 1 else -1) with dir by done.
  pose proof (distribute_segment dir pre seg post rangeStart rangeEnd
                (Z.abs residual) Hpre Hseg) as Hdist.
  rewrite <- Hsplit in Hdist. rewrite Hdist.
  cbn [fmap option_fmap option_map fst].
  destruct (two_passes_spec dir seg (Z.abs residual)) as (Hl2 & Hs2); [lia|done|].
  cbn zeta in Hl2, Hs2.
  set (seg2 := fst (pass_list dir (fst (pass_list dir seg (Z.abs residual)))
                      (snd (pass_list dir seg (Z.abs residual))))) in *.
  assert (Hseg2 : length seg2 = (rangeEnd + 1 - rangeStart)%nat) by lia.
  assert (Hsum2 : rangeSum rangeStart rangeEnd (pre ++ seg2 ++ post) = sumZ seg2)
    by (by apply rangeSum_segment).
  exists (pre ++ seg2 ++ post).
  split; [done|]. split; [|split; [|split]].
  - rewrite <- Hlen. rewrite Hsplit. rewrite !length_app. lia.
  - intros i Hi. transitivity (scaled !! i); [|by apply scaleDelays_outside].
    rewrite Hsplit.
    apply (lookup_outside_segment pre seg seg2 post rangeStart rangeEnd); (done || lia).
  - intros _. split.
    + rewrite slice_segment by done.
      subst seg2. apply pass_list_floor; [done|]. by apply pass_list_floor.
    + rewrite Hsum2, Hs2, Hsum. done.
  - rewrite Hsum2, Hs2.
    assert (Hr : residual = targetSum - sumZ seg) by (subst residual; lia).
    assert (Hd : 0 < residual /\ dir = 1 \/ residual <= 0 /\ dir = -1).
    { subst dir. destruct (0 <? residual) eqn:E; [left|right]; (split; [|done]).
      - by apply Z.ltb_lt.
      - by apply Z.ltb_ge. }
    fold capacity. clearbody capacity dir residual. lia.
Qed.
End SpeedProofs.

Lemma speed_adjust_witness :
  exists out,
    @adjustSpeed exactRounding [100; 100; 100] 0 2 150 = Some out /\
    out = [50; 50; 50] /\
    rangeSum 0 2 out = 150.
Proof.
  pose proof (@speed_adjust exactRounding [100; 100; 100] 0%nat 2%nat 150) as Hs.
  cbv zeta in Hs.
  destruct Hs as (out & Ha & _ & _ & _ & Hiff).
  - lia.
  - cbn. lia.
  - vm_compute. reflexivity.
  - lia.
  - exists out. split; [exact Ha|]. split.
    + vm_compute in Ha. by injection Ha as <-.
    + apply Hiff. right. apply Z.leb_le. vm_compute. reflexivity.
Defined.

(** Halving [10; 10; 100]: the two short frames are clamped to the 10 ms
    floor, and two passes take only 2 ms off the third, so the range sums
    to 68 and not to the requested 60. *)
Lemma speed_adjust_counterexample :
  0 < rangeSum 0 2 [10; 10; 100] /\
  exists out,
    @adjustSpeed exactRounding [10; 10; 100] 0 2 60 = Some out /\
    out = [10; 10; 48] /\
    rangeSum 0 2 out <> 60.
Proof.
  split; [vm_compute; reflexivity|].
  exists [10; 10; 48]. split; [vm_compute; reflexivity|]. split; [done|].
  vm_compute. discriminate.
Qed.

(** Scenarios 4 and 5 of the specification. *)
Example speed_scenarios :
  @adjustSpeed exactRounding [100; 100; 100] 0 2 150 = Some [50; 50; 50] /\
  @adjustSpeed exactRounding [33; 33; 34] 0 2 100 = Some [33; 33; 34] /\
  @adjustSpeed exactRounding [33; 33; 34] 0 2 101 = Some [34; 33; 34] /\
  @adjustSpeed exactRounding [7; 33; 33; 34; 9] 1 3 98 = Some [7; 33; 32; 33; 9].
Proof. vm_compute. done. Qed.

(** ** Workspace restore *)

Section RestoreProofs.
Context `{StringOps}.

Lemma insertSorted_front (cmp : FileEntry -> FileEntry -> Z) (x : FileEntry)
    (l : list FileEntry) :
  match l with [] => True | y :: _ => cmp x y <= 0 end ->
  insertSorted cmp x l = x :: l.
Proof.
  destruct l as [|y l]; [done|]. cbn [insertSorted]. intros Hc.
  apply Z.leb_le in Hc. by rewrite Hc.
Qed.

Lemma omap_cons_match {A B} (f : A -> option B) (x : A) (l : list A) :
  omap f (x :: l) = match f x with Some y => y :: omap f l | None => omap f l end.
Proof. reflexivity. Qed.

Lemma length_omap_le {A B} (f : A -> option B) (l : list A) :
  (length (omap f l) <= length l)%nat.
Proof.
  induction l as [|x l IH]; [done|].
  rewrite omap_cons_match. destruct (f x); cbn [length]; lia.
Qed.

Lemma omap_keys (allGif : list FileEntry) (fileOrder names : list JsString) (k : nat) :
  keysAgreeFrom allGif fileOrder k names = true ->
  Forall (fun e => exists k', orderIndex fileOrder (fe_name e) = Some k' /\ (k <= k')%nat)
    (omap (matchEntryByName allGif) names).
Proof.
  revert k. induction names as [|n names IH]; intros k Hk; [constructor|].
  cbn [keysAgreeFrom] in Hk. apply andb_true_iff in Hk as [Hn Hk].
  rewrite omap_cons_match.
  assert (Hrest : Forall (fun e => exists k', orderIndex fileOrder (fe_name e) = Some k'
                                              /\ (k <= k')%nat)
                    (omap (matchEntryByName allGif) names)).
  { eapply Forall_impl; [apply (IH (S k) Hk)|].
    intros e (k' & He & Hle). exists k'. split; [done|lia]. }
  destruct (matchEntryByName allGif n) as [e|]; [|done].
  constructor; [|done]. apply bool_decide_eq_true in Hn. exists k. split; [done|lia].
Qed.

Lemma stableSort_resolved (allGif : list FileEntry) (fileOrder names : list JsString)
    (k : nat) :
  keysAgreeFrom allGif fileOrder k names = true ->
  stableSort (compareEntries fileOrder) (omap (matchEntryByName allGif) names)
  = omap (matchEntryByName allGif) names.
Proof.
  revert k. induction names as [|n names IH]; intros k Hk; [done|].
  cbn [keysAgreeFrom] in Hk. apply andb_true_iff in Hk as [Hn Hk].
  rewrite omap_cons_match.
  destruct (matchEntryByName allGif n) as [e|]; [|by apply (IH (S k))].
  unfold stableSort in *. cbn [foldr]. rewrite (IH (S k) Hk).
  apply insertSorted_front.
  pose proof (omap_keys allGif fileOrder names (S k) Hk) as Hkeys.
  destruct (omap (matchEntryByName allGif) names) as [|y rest]; [done|].
  apply Forall_cons in Hkeys as [(k' & Hy & Hle) _].
  apply bool_decide_eq_true in Hn.
  unfold compareEntries. rewrite Hn, Hy. lia.
Qed.

Lemma matchEntryByName_Some (allGif : list FileEntry) (n : JsString) (e : FileEntry) :
  matchEntryByName allGif n = Some e -> e ∈ allGif /\ nameMatches n e = true.
Proof.
  unfold matchEntryByName. intros Hf. apply find_some in Hf as [Hin Hm].
  split; [by apply list_elem_of_In|done].
Qed.

Lemma insertSorted_perm (cmp : FileEntry -> FileEntry -> Z) (x : FileEntry)
    (s : list FileEntry) :
  insertSorted cmp x s ≡ₚ x :: s.
Proof.
  induction s as [|y s IH]; [done|].
  cbn [insertSorted]. destruct (cmp x y <=? 0); [done|].
  rewrite IH. apply Permutation_swap.
Qed.

Lemma stableSort_perm (cmp : FileEntry -> FileEntry -> Z) (l : list FileEntry) :
  stableSort cmp l ≡ₚ l.
Proof.
  unfold stableSort. induction l as [|x l IH]; [done|].
  cbn [foldr]. rewrite insertSorted_perm. by rewrite IH.
Qed.

End RestoreProofs.

Lemma sanitize_idem (s : JsString) : sanitize (sanitize s) = sanitize s.
Proof.
  unfold sanitize. rewrite map_map. apply map_ext. intros c.
  destruct (isUnsafeChar c) eqn:E; [reflexivity|]. by rewrite E.
Qed.



(** At most one element of a list satisfies [p]: two positions that do
    are the same. *)
Lemma filter_le_1_unique {A} (p : A -> bool) (l : list A) (i j : nat) (x y : A) :
  (length (filter (fun x => p x = true) l) <= 1)%nat ->
  l !! i = Some x -> l !! j = Some y -> p x = true -> p y = true -> i = j.
Proof.
  revert i j. induction l as [|a l IH]; intros i j Hlen Hi Hj Hx Hy; [done|].
  assert (Hnone : p a = true -> forall k z, l !! k = Some z -> p z = false).
  { intros Ha k z Hk. rewrite filter_cons_True in Hlen by done. cbn in Hlen.
    destruct (p z) eqn:Ez; [|done]. exfalso.
    assert (z ∈ filter (fun x => p x = true) l) as Hin.
    { apply list_elem_of_filter. split; [done|]. by apply list_elem_of_lookup_2 in Hk. }
    destruct (filter (fun x => p x = true) l); [by apply elem_of_nil in Hin|].
    cbn in Hlen. lia. }
  destruct i as [|i], j as [|j]; cbn in Hi, Hj.
  - done.
  - injection Hi as ->. rewrite (Hnone Hx j y Hj) in Hy. done.
  - injection Hj as ->. rewrite (Hnone Hy i x Hi) in Hx. done.
  - f_equal. apply IH; try done.
    destruct (p a) eqn:Ea.
    + rewrite filter_cons_True in Hlen by done. cbn in Hlen. lia.
    + rewrite filter_cons_False in Hlen by congruence. done.
Qed.

Lemma findIndex_Some (p : JsString -> bool) (l : list JsString) (k : nat) :
  findIndex p l = Some k -> exists f, l !! k = Some f /\ p f = true.
Proof.
  revert k. induction l as [|a l IH]; intros k Hk; [done|].
  cbn [findIndex] in Hk. destruct (p a) eqn:Ea.
  - injection Hk as <-. by exists a.
  - destruct (findIndex p l) as [k'|]; [|done]. injection Hk as <-.
    destruct (IH k' eq_refl) as (f & Hf & Hp). by exists f.
Qed.

Lemma findIndex_None (p : JsString -> bool) (l : list JsString) (k : nat) (f : JsString) :
  findIndex p l = None -> l !! k = Some f -> p f = false.
Proof.
  revert k. induction l as [|a l IH]; intros k Hn Hk; [done|].
  cbn [findIndex] in Hn. destruct (p a) eqn:Ea; [done|].
  destruct (findIndex p l) eqn:El; [done|].
  destruct k as [|k]; cbn in Hk; [by injection Hk as <-|]. by apply (IH k).
Qed.

Section RestoreSpecProofs.
Context `{StringOps}.

Lemma nameMatches_designates (n : JsString) (e : FileEntry) :
  nameMatches n e = designates n e.
Proof. reflexivity. Qed.


(** Each way in which the comparator finds a file's name in the order
    is a way in which that name of the order designates the file. *)
Lemma orderIndex_designates (fileOrder : list JsString) (e : FileEntry) (j : nat) :
  Forall wellFormedName fileOrder ->
  orderIndex fileOrder (fe_name e) = Some j ->
  exists f, fileOrder !! j = Some f /\ designates f e = true.
Proof.
  intros Hwf Hj. unfold orderIndex in Hj. cbv zeta in Hj.
  assert (Hcase : forall (p : JsString -> bool),
            (forall f, wellFormedName f -> p f = true -> designates f e = true) ->
            findIndex p fileOrder = Some j ->
            exists f, fileOrder !! j = Some f /\ designates f e = true).
  { intros p Hp Hf. apply findIndex_Some in Hf as (f & Hf & Hpf).
    exists f. split; [done|]. apply Hp; [|done].
    rewrite Forall_forall in Hwf. apply Hwf. by apply list_elem_of_lookup_2 in Hf. }
  unfold orElse in Hj. repeat case_match; simplify_eq.
  - eapply Hcase; [|eassumption]. intros f [Hn Hs] Hp.
    apply bool_decide_eq_true in Hp. unfold designates, exactMatch, strEqb.
    rewrite bool_decide_eq_true_2; [done|]. by rewrite Hn.
  - eapply Hcase; [|eassumption]. intros f [Hn Hs] Hp.
    apply bool_decide_eq_true in Hp. unfold designates, exactMatch, strEqb.
    rewrite bool_decide_eq_true_2; [done|]. done.
  - eapply Hcase; [|eassumption]. intros f [Hn Hs] Hp.
    apply bool_decide_eq_true in Hp. unfold designates, sanitizedMatch, strEqb.
    rewrite (bool_decide_eq_true_2 (sanitize _ = sanitize _)); [by rewrite !orb_true_r|].
    rewrite Hn, Hp. by rewrite sanitize_idem.
  - eapply Hcase; [|eassumption]. intros f [Hn Hs] Hp.
    apply bool_decide_eq_true in Hp. unfold designates, caseMatch, strEqb.
    rewrite (bool_decide_eq_true_2 (toLowerCase _ = toLowerCase _));
      [by rewrite !orb_true_r|]. by rewrite Hn.
Qed.

(** A well-formed name of the order that designates a file is found by
    the comparator. *)
Lemma orderIndex_found (fileOrder : list JsString) (e : FileEntry) (k : nat)
    (n : JsString) :
  wellFormedName n -> fileOrder !! k = Some n -> designates n e = true ->
  is_Some (orderIndex fileOrder (fe_name e)).
Proof.
  intros [Hn Hs] Hk Hd. unfold orderIndex. cbv zeta.
  destruct (findIndex (fun f => strEqb f (normalize (fe_name e))) fileOrder) eqn:E1;
    [done|].
  destruct (findIndex (fun f => strEqb (normalize f) (normalize (fe_name e))) fileOrder)
    eqn:E2; [done|].
  destruct (findIndex (fun f => strEqb f (sanitize (normalize (fe_name e)))) fileOrder)
    eqn:E3; [done|].
  destruct (findIndex (fun f => strEqb (toLowerCase f) (toLowerCase (normalize (fe_name e))))
              fileOrder) eqn:E4; [done|].
  exfalso.
  pose proof (findIndex_None _ _ _ _ E1 Hk) as H1.
  pose proof (findIndex_None _ _ _ _ E3 Hk) as H3.
  pose proof (findIndex_None _ _ _ _ E4 Hk) as H4.
  cbv beta in H1, H3, H4. unfold strEqb in *.
  apply bool_decide_eq_false in H1, H3, H4.
  unfold designates, exactMatch, caseMatch, sanitizedMatch, strEqb in Hd.
  rewrite Hn in Hd.
  apply orb_true_iff in Hd as [Hd|Hd]; [apply orb_true_iff in Hd as [Hd|Hd]|];
    apply bool_decide_eq_true in Hd.
  - by apply H1.
  - by apply H4.
  - apply H3. by rewrite Hd, Hs.
Qed.

Lemma keysAgreeFrom_positions (present : list FileEntry) (fileOrder names : list JsString)
    (k : nat) :
  (forall j n e, names !! j = Some n -> matchEntryByName present n = Some e ->
                 orderIndex fileOrder (fe_name e) = Some (k + j)%nat) ->
  keysAgreeFrom present fileOrder k names = true.
Proof.
  revert k. induction names as [|n names IH]; intros k Hpos; [done|].
  cbn [keysAgreeFrom]. apply andb_true_iff. split.
  - destruct (matchEntryByName present n) as [e|] eqn:Em; [|done].
    apply bool_decide_eq_true. rewrite (Hpos 0%nat n e eq_refl Em). f_equal. lia.
  - apply IH. intros j n' e Hj Hm.
    rewrite (Hpos (S j) n' e Hj Hm). f_equal. lia.
Qed.

(** When the names of the order are well formed and no file is designated
    by two of them, the sort leaves the resolved files in the order of the
    names that resolved them. *)
Lemma restore_sort_keeps_order (present : list FileEntry) (fileOrder : list JsString) :
  Forall wellFormedName fileOrder ->
  Forall (fun e => (length (filter (fun n => designates n e = true) fileOrder) <= 1)%nat)
    present ->
  stableSort (compareEntries fileOrder) (omap (matchEntryByName present) fileOrder)
  = omap (matchEntryByName present) fileOrder.
Proof.
  intros Hwf Huniq. apply (stableSort_resolved _ _ _ 0%nat).
  apply keysAgreeFrom_positions. intros k n e Hk Hm. cbn [Nat.add].
  apply matchEntryByName_Some in Hm as [Hin Hm]. rewrite nameMatches_designates in Hm.
  assert (wellFormedName n) as Hn.
  { rewrite Forall_forall in Hwf. apply Hwf. by apply list_elem_of_lookup_2 in Hk. }
  destruct (orderIndex_found fileOrder e k n Hn Hk Hm) as [j Hj].
  rewrite Hj. f_equal.
  destruct (orderIndex_designates fileOrder e j Hwf Hj) as (f & Hf & Hd).
  rewrite Forall_forall in Huniq.
  by apply (filter_le_1_unique (fun n => designates n e) fileOrder j k f n (Huniq e Hin)).
Qed.
End RestoreSpecProofs.




Section RestoreOrderProofs.
Context `{StringOps}.

End RestoreOrderProofs.




(** Outside these hypotheses: a name that designates two files resolves
    to the first of them in directory order, and a file that only the
    sanitised form of a persisted name designates is sorted behind the
    others. *)
Example restore_ambiguous_orders :
  @restoreOrder asciiOps [gifFile "A.gif"; gifFile "a.gif"] [js "a.gif"]
    = [gifFile "A.gif"] /\
  @restoreOrder asciiOps [gifFile "x_y.gif"; gifFile "b.gif"] [js "x:y.gif"; js "b.gif"]
    = [gifFile "b.gif"; gifFile "x_y.gif"].
Proof. vm_compute. done. Qed.

Example restore_alphabetical :
  @restoreOrder asciiOps
    [gifFile "c.gif"; gifFile "a.gif"; gifFile "x_temp_color_restored.gif";
     gifFile "b.gif"; gifFile "my_temp_1.gif"] []
  = [gifFile "a.gif"; gifFile "b.gif"; gifFile "c.gif"].
Proof. vm_compute. done. Qed.

(** ** Version selection *)

Lemma setState_app (f : App -> App) (s : Session) :
  s_app (setState f s) = f (s_app s).
Proof. reflexivity. Qed.

Lemma setState_player_keep (f : App -> App) (s : Session) :
  playerMounted (f (s_app s)) = playerMounted (s_app s) ->
  s_player (setState f s) = s_player s.
Proof.
  intros Hm. unfold setState, reconcile. cbn [s_player]. rewrite Hm.
  by destruct (playerMounted (s_app s)).
Qed.

Lemma logOf_setState (f : App -> App) (s : Session) :
  keepsLog f -> logOf (setState f s) = logOf s.
Proof. intros Hf. apply Hf. Qed.

Lemma logOf_invoke (c : BackendCmd) (s : Session) :
  logOf (invoke c s) = logOf s ++ [c].
Proof. reflexivity. Qed.

Lemma version_setState (f : App -> App) (s : Session) :
  keepsVersion f ->
  currentVersionId (s_app (setState f s)) = currentVersionId (s_app s).
Proof. intros Hf. apply Hf. Qed.

Lemma version_set (x : JsString) (s : Session) :
  currentVersionId (s_app (setState (set_currentVersionId x) s)) = x.
Proof. reflexivity. Qed.

Lemma version_invoke (c : BackendCmd) (s : Session) :
  currentVersionId (s_app (invoke c s)) = currentVersionId (s_app s).
Proof. reflexivity. Qed.

Ltac keeps := intros ?; reflexivity.

Ltac peel_log :=
  repeat first
    [ rewrite logOf_invoke
    | rewrite logOf_setState by keeps ].

Tactic Notation "peel_version" :=
  repeat first
    [ rewrite version_set
    | rewrite version_invoke
    | rewrite version_setState by keeps ].

Tactic Notation "peel_version" "in" hyp(H) :=
  repeat first
    [ rewrite version_set in H
    | rewrite version_invoke in H
    | rewrite version_setState in H by keeps ].

Ltac split_select :=
  unfold handleSelectVersion, runExtract, selectFailed;
  repeat (cbv beta iota zeta; case_match).

Ltac in_list := apply list_elem_of_In; cbn [In]; eauto 12.

Lemma selectFailed_log (previousVersionId : JsString) (s : Session) :
  logOf (selectFailed previousVersionId s) = logOf s.
Proof. unfold selectFailed. by peel_log. Qed.

Lemma selectFailed_version (previousVersionId : JsString) (s : Session) :
  currentVersionId (s_app (selectFailed previousVersionId s)) = previousVersionId.
Proof. unfold selectFailed. by peel_version. Qed.

Lemma versions_setState (f : App -> App) (s : Session) :
  keepsVersions f -> versions (s_app (setState f s)) = versions (s_app s).
Proof. intros Hf. apply Hf. Qed.

Lemma versions_invoke (c : BackendCmd) (s : Session) :
  versions (s_app (invoke c s)) = versions (s_app s).
Proof. reflexivity. Qed.

Tactic Notation "peel_versions" "in" hyp(H) :=
  repeat first
    [ rewrite versions_invoke in H
    | rewrite versions_setState in H by keeps ].

(** [runExtract] either fails after the parse and restores the previous
    version, or issues the commands of the selected file and makes the
    selected version the current one. *)
Lemma runExtract_cmds (env : SelectEnv) (wd destPath : JsString)
    (selectedVersion : VersionItem) (versionId previousVersionId : JsString)
    (s : Session) :
  let s' := runExtract env wd destPath selectedVersion versionId previousVersionId s in
  (currentVersionId (s_app s') = previousVersionId /\
   logOf s' = logOf s ++ [parse_gif_preview destPath]) \/
  (currentVersionId (s_app s') = versionId /\
   logOf s' = logOf s ++ extractionCmds destPath).
Proof.
  cbv zeta. unfold runExtract.
  destruct (env_parse_gif_preview env destPath) as [meta|]; cbv beta iota zeta.
  - right. destruct (env_resume_extraction env); peel_version; peel_log;
      rewrite <- ?app_assoc; cbn [app]; done.
  - left. rewrite selectFailed_log, selectFailed_version. by peel_log.
Qed.

Lemma select_cmds (env : SelectEnv) (versionId : JsString) (force : bool)
    (s : Session) :
  strEqb versionId (currentVersionId (s_app s)) && negb force = false ->
  exists rest,
    logOf (handleSelectVersion env versionId force s)
    = logOf s ++ cancel_extraction :: rest /\
    (currentVersionId (s_app (handleSelectVersion env versionId force s))
       <> currentVersionId (s_app s) ->
     currentVersionId (s_app (handleSelectVersion env versionId force s)) = versionId /\
     exists selectedVersion destPath pre,
       find (fun v => strEqb (v_id v) versionId) (versions (s_app s))
         = Some selectedVersion /\
       (destPath = v_path selectedVersion \/
        env_read_file_to_workdir env (v_path selectedVersion) = Ok destPath) /\
       forallb isPreparation pre = true /\
       rest = pre ++ extractionCmds destPath).
Proof.
  intros Hsw. unfold handleSelectVersion. rewrite Hsw. clear Hsw.
  destruct (env_cancel_extraction env), (env_init_work_dir env).
  all: repeat (cbv beta iota zeta; case_match).
  all: simplify_eq.
  all: rewrite ?selectFailed_log, ?selectFailed_version.
  all: try match goal with
       | |- context [runExtract ?e ?w ?d ?v ?i ?p ?s0] =>
           destruct (runExtract_cmds e w d v i p s0) as [[Hv0 Hlog0]|[Hv0 Hlog0]];
           revert Hv0 Hlog0; generalize (runExtract e w d v i p s0);
           intros sR Hv0 Hlog0; rewrite Hlog0, Hv0; peel_version
       end.
  all: peel_log; peel_version.
  all: rewrite <- ?app_assoc; cbn [app]; eexists; (split; [reflexivity|]).
  all: try (intros Hne; by destruct Hne).
  all: intros _; split; [done|].
  all: match goal with
       | Hf : find _ _ = Some ?v |- _ => peel_versions in Hf; exists v
       end.
  all: match goal with
       | |- context [extractionCmds ?d] => exists d
       end.
  all: match goal with
       | Hf : find _ _ = Some ?v |- _ =>
           first [ exists []; by eauto
                 | exists [init_work_dir]; by eauto
                 | exists [read_file_to_workdir (v_path v)]; by eauto
                 | exists [init_work_dir; read_file_to_workdir (v_path v)]; by eauto ]
       end.
Qed.


Lemma stillMounted_setState (p0 : Player) (f : App -> App) (s : Session) :
  keepsMount f -> stillMounted p0 s -> stillMounted p0 (setState f s).
Proof.
  intros Hf [Hm Hp]. split.
  - rewrite setState_app, Hf. done.
  - rewrite setState_player_keep; [done|]. apply Hf.
Qed.

Lemma stillMounted_set_error_None (p0 : Player) (s : Session) :
  stillMounted p0 s -> stillMounted p0 (setState (set_error None) s).
Proof.
  intros [Hm Hp].
  assert (Hk : playerMounted (set_error None (s_app s)) = playerMounted (s_app s)).
  { unfold playerMounted in *. cbn [set_error loading error frames].
    apply andb_true_iff in Hm as [Hm _]. apply andb_true_iff in Hm as [_ He].
    by rewrite He. }
  split.
  - rewrite setState_app, Hk. done.
  - by rewrite setState_player_keep.
Qed.

Lemma stillMounted_invoke (p0 : Player) (c : BackendCmd) (s : Session) :
  stillMounted p0 s -> stillMounted p0 (invoke c s).
Proof. intros [Hm Hp]. split; done. Qed.

Lemma keptOrUnmounted_weaken (p0 : Player) (s : Session) :
  stillMounted p0 s -> keptOrUnmounted p0 s.
Proof. intros [Hm Hp]. unfold keptOrUnmounted. by rewrite Hm. Qed.

(** A state change on a mounted player either keeps it mounted, refs
    untouched, or unmounts it, which runs the cleanup. *)
Lemma keptOrUnmounted_from_mounted (p0 : Player) (f : App -> App) (s : Session) :
  stillMounted p0 s -> keptOrUnmounted p0 (setState f s).
Proof.
  intros [Hm Hp]. unfold keptOrUnmounted, setState, reconcile.
  cbn [s_player s_app]. rewrite Hm, Hp. by destruct (playerMounted (f (s_app s))).
Qed.

Lemma keptOrUnmounted_setState (p0 : Player) (f : App -> App) (s : Session) :
  keepsMount f -> keptOrUnmounted p0 s -> keptOrUnmounted p0 (setState f s).
Proof.
  intros Hf Hk. unfold keptOrUnmounted in *.
  rewrite setState_app, Hf. rewrite setState_player_keep; [done|]. apply Hf.
Qed.

Lemma keptOrUnmounted_invoke (p0 : Player) (c : BackendCmd) (s : Session) :
  keptOrUnmounted p0 s -> keptOrUnmounted p0 (invoke c s).
Proof. done. Qed.

Ltac solve_mounted :=
  lazymatch goal with
  | |- stillMounted _ (invoke _ _) => apply stillMounted_invoke; solve_mounted
  | |- stillMounted _ (setState (set_error None) _) =>
      apply stillMounted_set_error_None; solve_mounted
  | |- stillMounted _ (setState _ _) =>
      apply stillMounted_setState; [keeps | solve_mounted]
  | |- stillMounted _ _ => assumption
  end.

Ltac solve_kept :=
  lazymatch goal with
  | |- keptOrUnmounted _ (invoke _ _) => apply keptOrUnmounted_invoke; solve_kept
  | |- keptOrUnmounted _ (setState (set_frames _) _) =>
      apply keptOrUnmounted_from_mounted; solve_mounted
  | |- keptOrUnmounted _ (setState (set_error _) _) =>
      apply keptOrUnmounted_from_mounted; solve_mounted
  | |- keptOrUnmounted _ (setState _ _) =>
      apply keptOrUnmounted_setState; [keeps | solve_kept]
  | |- keptOrUnmounted _ _ => apply keptOrUnmounted_weaken; assumption
  end.

Lemma selectFailed_kept (p0 : Player) (previousVersionId : JsString) (s : Session) :
  stillMounted p0 s -> keptOrUnmounted p0 (selectFailed previousVersionId s).
Proof. intros Hk. unfold selectFailed. solve_kept. Qed.

Lemma runExtract_kept (p0 : Player) (env : SelectEnv) (wd destPath : JsString)
    (selectedVersion : VersionItem) (versionId previousVersionId : JsString)
    (s : Session) :
  stillMounted p0 s ->
  keptOrUnmounted p0
    (runExtract env wd destPath selectedVersion versionId previousVersionId s).
Proof.
  intros Hk. unfold runExtract.
  destruct (env_parse_gif_preview env destPath) as [meta|]; cbv beta iota zeta.
  - destruct (env_resume_extraction env); solve_kept.
  - apply selectFailed_kept. solve_mounted.
Qed.

Lemma select_kept (p0 : Player) (env : SelectEnv) (versionId : JsString)
    (force : bool) (s : Session) :
  stillMounted p0 s ->
  keptOrUnmounted p0 (handleSelectVersion env versionId force s).
Proof.
  intros Hk. unfold handleSelectVersion.
  destruct (env_cancel_extraction env), (env_init_work_dir env).
  all: repeat (cbv beta iota zeta; case_match).
  all: simplify_eq.
  all: first [ apply runExtract_kept; solve_mounted
             | apply selectFailed_kept; solve_mounted
             | solve_kept ].
Qed.

(** C9, as amended. A switch to another version first asks the backend
    to cancel the running extraction. When the switch goes through, the
    selected version is the current one and the commands issued after the
    cancellation are, after the preparation of the work directory and of
    the copy of the file, those of the selected version's file, the
    full-frame and preview jobs among them, and no others. The switch
    does not clear the preload cache: the refs of a player that is still
    mounted after the switch are those it had, and otherwise they are
    what the unmount cleanup leaves of them, the cache emptied and its
    blob URLs revoked. *)
Theorem select_version_cancels_first (env : SelectEnv) (versionId : JsString)
    (force : bool) (s : Session) :
  versionId <> currentVersionId (s_app s) ->
  (exists rest,
     logOf (handleSelectVersion env versionId force s)
     = logOf s ++ cancel_extraction :: rest /\
     (currentVersionId (s_app (handleSelectVersion env versionId force s))
        <> currentVersionId (s_app s) ->
      currentVersionId (s_app (handleSelectVersion env versionId force s)) = versionId /\
      exists selectedVersion destPath pre,
        find (fun v => strEqb (v_id v) versionId) (versions (s_app s))
          = Some selectedVersion /\
        (destPath = v_path selectedVersion \/
         env_read_file_to_workdir env (v_path selectedVersion) = Ok destPath) /\
        forallb isPreparation pre = true /\
        rest = pre ++ extractionCmds destPath)) /\
  (playerMounted (s_app s) = true ->
   s_player (handleSelectVersion env versionId force s)
   = if playerMounted (s_app (handleSelectVersion env versionId force s))
     then s_player s
     else player_unmount (s_player s)).
Proof.
  intros Hne. split.
  - apply select_cmds. unfold strEqb. by rewrite bool_decide_eq_false_2.
  - intros Hm. by apply (select_kept (s_player s)).
Qed.

Lemma select_version_cancels_first_witness :
  (exists rest,
     logOf (handleSelectVersion backendOk (js "v2") false sessionOnV1)
     = logOf sessionOnV1 ++ cancel_extraction :: rest /\
     exists selectedVersion destPath pre,
       find (fun v => strEqb (v_id v) (js "v2")) (versions (s_app sessionOnV1))
         = Some selectedVersion /\
       (destPath = v_path selectedVersion \/
        env_read_file_to_workdir backendOk (v_path selectedVersion) = Ok destPath) /\
       forallb isPreparation pre = true /\
       rest = pre ++ extractionCmds destPath) /\
  s_player (handleSelectVersion backendOk (js "v2") false sessionOnV1)
  = s_player sessionOnV1.
Proof.
  destruct (select_version_cancels_first backendOk (js "v2") false sessionOnV1)
    as ((rest & Hlog & Hjobs) & Hcache).
  - vm_compute. discriminate.
  - split.
    + exists rest. split; [exact Hlog|]. apply Hjobs. vm_compute. discriminate.
    + rewrite Hcache by (vm_compute; reflexivity). vm_compute. reflexivity.
Defined.

(** After the switch to [v2] the player reads frames from the directory
    of [b.gif], yet frame 0 is still drawn from the image cached for
    [a.gif], and nothing was revoked. *)
Lemma select_version_counterexample :
  let s' := handleSelectVersion backendOk (js "v2") false sessionOnV1 in
  currentVersionId (s_app sessionOnV1) = js "v1" /\
  frameFilesDir (s_app sessionOnV1) = js "/w/_a_fullframes" /\
  renderFrame_cached 0 (s_player sessionOnV1) = Some (frameImage 7) /\
  currentVersionId (s_app s') = js "v2" /\
  frameFilesDir (s_app s') = js "/w/_b_fullframes" /\
  logOf s'
    = [cancel_extraction; parse_gif_preview (js "/w/b.gif");
       extract_fullframes_background (js "/w/b.gif");
       extract_previews_background (js "/w/b.gif");
       get_gif_stats (js "/w/b.gif"); resume_extraction] /\
  renderFrame_cached 0 (s_player s') = Some (frameImage 7) /\
  revoked (s_player s') = [].
Proof. vm_compute. repeat split. Qed.

(** ** Delay statistics *)


(** X1. [roundTo10Bankers] returns the multiple of 10 nearest to an
    integer delay; when two multiples are equally near, the distance being
    5, it returns the one whose tenth is even. *)
Theorem roundTo10Bankers_nearest (v : Z) :
  (10 | roundTo10Bankers v) /\
  Z.abs (roundTo10Bankers v - v) <= 5 /\
  (Z.abs (roundTo10Bankers v - v) = 5 -> Z.even (roundTo10Bankers v / 10) = true).
Proof.
  unfold roundTo10Bankers.
  pose proof (Z.div_mod v 10 ltac:(lia)) as Hdm.
  pose proof (Z.mod_pos_bound v 10 ltac:(lia)) as Hb.
  set (f := v / 10) in *. set (r := v mod 10) in *.
  assert (Hev : forall x, Z.rem x 2 = 0 <-> Z.even x = true).
  { intros x. rewrite Z.rem_divide by lia. rewrite Z.even_spec.
    split; intros [k Hk]; exists k; lia. }
  destruct (5 <? r) eqn:E1; [apply Z.ltb_lt in E1|apply Z.ltb_ge in E1].
  - split; [by apply Z.divide_factor_r|]. split; lia.
  - destruct (r <? 5) eqn:E2; [apply Z.ltb_lt in E2|apply Z.ltb_ge in E2].
    + split; [by apply Z.divide_factor_r|]. split; lia.
    + destruct (Z.rem f 2 =? 0) eqn:E3;
        [apply Z.eqb_eq in E3|apply Z.eqb_neq in E3].
      * split; [by apply Z.divide_factor_r|]. split; [lia|].
        intros _. rewrite Z.div_mul by lia. by apply Hev.
      * split; [by apply Z.divide_factor_r|]. split; [lia|].
        intros _. rewrite Z.div_mul by lia.
        rewrite Z.even_add. cbn.
        destruct (Z.even f) eqn:Ef; [|done].
        exfalso. apply E3. by apply Hev.
Qed.

Lemma longest_loop_spec (rest pre : list GifFrame) (idx : nat) :
  isFirstMax pre idx ->
  forall f, pre !! idx = Some f ->
  isFirstMax (pre ++ rest) (longest_loop rest (length pre) (Some (delay f)) idx).
Proof.
  revert pre idx. induction rest as [|g rest IH]; intros pre idx Hinv f Hf.
  - cbn. by rewrite app_nil_r.
  - cbn [longest_loop].
    replace (pre ++ g :: rest) with ((pre ++ [g]) ++ rest) by (by rewrite <- app_assoc).
    replace (S (length pre)) with (length (pre ++ [g])) by (rewrite length_app; cbn; lia).
    destruct Hinv as (f' & Hf' & Hall & Hbefore).
    assert (f' = f) as -> by congruence.
    pose proof (lookup_lt_Some _ _ _ Hf) as Hlt.
    destruct (delay f <? delay g) eqn:E; [apply Z.ltb_lt in E|apply Z.ltb_ge in E].
    + apply (IH (pre ++ [g]) (length pre)) with (f := g).
      * exists g. split; [|split].
        -- rewrite lookup_app_r by lia. by rewrite Nat.sub_diag.
        -- apply Forall_app. split; [|by repeat constructor].
           eapply Forall_impl; [exact Hall|]. cbn. intros; lia.
        -- rewrite take_app_length.
           eapply Forall_impl; [exact Hall|]. cbn. intros; lia.
      * rewrite lookup_app_r by lia. by rewrite Nat.sub_diag.
    + apply (IH (pre ++ [g]) idx) with (f := f).
      * exists f. split; [|split].
        -- by rewrite lookup_app_l.
        -- apply Forall_app. split; [done|]. by repeat constructor.
        -- rewrite take_app_le by lia. done.
      * by rewrite lookup_app_l.
Qed.

(** X2. For a non-empty frame list [longestFrameIndex] is the first index
    that holds the largest delay: no frame has a larger delay and every
    earlier frame has a smaller one. *)
Theorem longestFrameIndex_first_max (frames : list GifFrame) :
  frames <> [] -> isFirstMax frames (longestFrameIndex frames).
Proof.
  destruct frames as [|f rest]; [done|]. intros _.
  unfold longestFrameIndex. cbn [longest_loop].
  apply (longest_loop_spec rest [f] 0%nat) with (f := f); [|done].
  exists f. split; [done|]. split; [|by constructor].
  repeat constructor. lia.
Qed.

Lemma longestFrameIndex_first_max_witness :
  isFirstMax (framesOf [40; 90; 20; 90]) 1.
Proof. apply (longestFrameIndex_first_max (framesOf [40; 90; 20; 90])). done. Defined.









(** ** The speed tab *)

Lemma range_step_ok (frame_count : option Z) (framesLength : Z)
    (u : RangeUi) (e : RangeEvent) :
  rangeOk frame_count framesLength u ->
  rangeOk frame_count framesLength (range_step frame_count framesLength u e).
Proof.
  unfold rangeOk. intros (Hs & He & Hc).
  assert (0 <= maxIndex frame_count framesLength) as Hm by (unfold maxIndex; lia).
  destruct e; cbn [range_step handleRangeStartChange handleRangeEndChange handleArrowKey
                   ui_rangeStart ui_rangeEnd ui_currentFrame]; lia.
Qed.

(** X4. Whatever is typed into the two range inputs and whichever arrow
    keys are pressed, the range stays ordered between 0 and [maxIndex],
    the last index by [gifStats.frame_count] when the statistics are
    loaded and by [frames.length] otherwise, and the cursor stays between
    0 and the larger of [maxIndex] and [frames.length - 1]. When the frame
    list is not empty and the statistics are absent or count its frames,
    the range and the cursor are therefore indices of the frame list. *)
Theorem range_run_ok (frame_count : option Z) (framesLength : Z)
    (es : list RangeEvent) (u : RangeUi) :
  rangeOk frame_count framesLength u ->
  rangeOk frame_count framesLength (range_run frame_count framesLength es u) /\
  (0 < framesLength ->
   frame_count = None \/ frame_count = Some framesLength ->
   inFrameList framesLength (range_run frame_count framesLength es u)).
Proof.
  intros Hu.
  assert (rangeOk frame_count framesLength (range_run frame_count framesLength es u))
    as Hok.
  { revert u Hu. induction es as [|e es IH]; intros u Hu; [done|].
    cbn [range_run fold_left]. apply IH. by apply range_step_ok. }
  split; [done|]. intros Hlen Hstats.
  destruct Hok as (Hs & He & Hc). unfold inFrameList.
  assert (maxIndex frame_count framesLength = framesLength - 1) as Hmax.
  { unfold maxIndex. destruct Hstats as [->| ->]; [lia|].
    destruct (framesLength =? 0); lia. }
  rewrite Hmax in He, Hc. lia.
Qed.

Lemma range_run_ok_witness :
  range_run None 5 [StartInput 9; EndInput (-3); ArrowRight; EndInput 100; ArrowLeft]
    (mkRangeUi 0 4 0) = mkRangeUi 4 4 3 /\
  inFrameList 5
    (range_run None 5 [StartInput 9; EndInput (-3); ArrowRight; EndInput 100; ArrowLeft]
       (mkRangeUi 0 4 0)) /\
  rangeOk (Some 10) 5
    (range_run (Some 10) 5 [EndInput 100; StartInput 100] (mkRangeUi 0 4 0)) /\
  range_run (Some 10) 5 [EndInput 100; StartInput 100] (mkRangeUi 0 4 0)
  = mkRangeUi 9 9 9.
Proof.
  split; [reflexivity|]. split; [|split; [|reflexivity]].
  - apply (range_run_ok None 5
             [StartInput 9; EndInput (-3); ArrowRight; EndInput 100; ArrowLeft]
             (mkRangeUi 0 4 0)); [unfold rangeOk, maxIndex; cbn; lia|lia|by left].
  - apply (range_run_ok (Some 10) 5 [EndInput 100; StartInput 100] (mkRangeUi 0 4 0)).
    unfold rangeOk, maxIndex; cbn; lia.
Defined.

Lemma withDelay_id (f : GifFrame) : withDelay (delay f) f = f.
Proof. by destruct f. Qed.

Lemma delay_withDelay (d : Z) (f : GifFrame) : delay (withDelay d f) = d.
Proof. done. Qed.

Lemma delay_loop_Some (g : Z -> Z) (n i : nat) (fs : list GifFrame) :
  (i + n <= length fs)%nat ->
  exists fs', delay_loop g n i fs = Some fs' /\
    forall j, fs' !! j
              = if (i <=? j)%nat && (j <? i + n)%nat
                then (fun f => withDelay (g (delay f)) f) <$> fs !! j
                else fs !! j.
Proof.
  revert i fs. induction n as [|n IH]; intros i fs Hlen.
  - exists fs. split; [done|]. intros j.
    destruct (i <=? j)%nat eqn:E1; [|done].
    apply Nat.leb_le in E1.
    replace (j <? i + 0)%nat with false by (symmetry; apply Nat.ltb_ge; lia). done.
  - cbn [delay_loop].
    destruct (lookup_lt_is_Some_2 fs i ltac:(lia)) as [f Hf]. rewrite Hf.
    destruct (IH (S i) (<[i := withDelay (g (delay f)) f]> fs)) as (fs' & Hrun & Hlk).
    { rewrite length_insert. lia. }
    exists fs'. split; [done|]. intros j. rewrite Hlk.
    destruct (decide (j = i)) as [->|Hne].
    + replace (S i <=? i)%nat with false by (symmetry; apply Nat.leb_gt; lia).
      replace (i <=? i)%nat with true by (symmetry; apply Nat.leb_le; lia).
      replace (i <? i + S n)%nat with true by (symmetry; apply Nat.ltb_lt; lia).
      cbn [andb]. rewrite list_lookup_insert_eq by lia. by rewrite Hf.
    + rewrite list_lookup_insert_ne by done.
      replace (S i <=? j)%nat with (i <=? j)%nat.
      2:{ destruct (i <=? j)%nat eqn:E1.
          - apply Nat.leb_le in E1. symmetry. apply Nat.leb_le. lia.
          - apply Nat.leb_gt in E1. symmetry. apply Nat.leb_gt. lia. }
      replace (S i + n)%nat with (i + S n)%nat by lia. done.
Qed.

Lemma delay_loop_None (g : Z -> Z) (n i : nat) (fs : list GifFrame) :
  (0 < n)%nat -> (length fs < i + n)%nat -> delay_loop g n i fs = None.
Proof.
  revert i fs. induction n as [|n IH]; intros i fs Hn Hlen; [lia|].
  cbn [delay_loop]. destruct (fs !! i) as [f|] eqn:Hf; [|done].
  apply lookup_lt_Some in Hf. apply IH; rewrite ?length_insert; lia.
Qed.

Lemma delay_loop_closed (g : Z -> Z) (rs re : nat) (fs : list GifFrame) :
  delay_loop g (re + 1 - rs) rs fs
  = if (rs <=? re)%nat && (length fs <=? re)%nat then None
    else Some (imap (fun i f => if inRange rs re i then withDelay (g (delay f)) f else f) fs).
Proof.
  destruct (rs <=? re)%nat eqn:E1; [apply Nat.leb_le in E1|apply Nat.leb_gt in E1].
  - destruct (length fs <=? re)%nat eqn:E2;
      [apply Nat.leb_le in E2|apply Nat.leb_gt in E2]; cbn [andb].
    + apply delay_loop_None; lia.
    + destruct (delay_loop_Some g (re + 1 - rs) rs fs) as (fs' & -> & Hlk); [lia|].
      f_equal. apply list_eq. intros j. rewrite Hlk, list_lookup_imap.
      unfold inRange.
      replace (j <? rs + (re + 1 - rs))%nat with (j <=? re)%nat.
      2:{ destruct (j <=? re)%nat eqn:E3.
          - apply Nat.leb_le in E3. symmetry. apply Nat.ltb_lt. lia.
          - apply Nat.leb_gt in E3. symmetry. apply Nat.ltb_ge. lia. }
      destruct ((rs <=? j)%nat && (j <=? re)%nat); [done|].
      by destruct (fs !! j).
  - cbn [andb]. replace (re + 1 - rs)%nat with 0%nat by lia. cbn [delay_loop].
    f_equal. apply list_eq. intros j. rewrite list_lookup_imap.
    unfold inRange.
    destruct (rs <=? j)%nat eqn:E3; [apply Nat.leb_le in E3|]; cbn [andb].
    + replace (j <=? re)%nat with false by (symmetry; apply Nat.leb_gt; lia).
      by destruct (fs !! j).
    + by destruct (fs !! j).
Qed.

(** X5. [handleSpeedUp] throws exactly when the range is not empty and
    ends beyond the last frame; otherwise it halves, rounding a half
    upwards, the delay of every frame of the range, never going below
    10 ms, and leaves every other frame as it was. *)
Theorem handleSpeedUp_closed (rangeStart rangeEnd : nat) (prevFrames : list GifFrame) :
  handleSpeedUp rangeStart rangeEnd prevFrames
  = if (rangeStart <=? rangeEnd)%nat && (length prevFrames <=? rangeEnd)%nat then None
    else Some (imap (fun i f =>
                       if inRange rangeStart rangeEnd i
                       then withDelay (Z.max 10 ((delay f + 1) / 2)) f
                       else f) prevFrames).
Proof. apply delay_loop_closed. Qed.

(** X6. Slowing a range down and then speeding it up gives back the
    frames one started from, provided the range lies inside the frame
    list and its delays are between 10 ms and 5000 ms. *)
Theorem slowDown_then_speedUp (rangeStart rangeEnd : nat) (frames : list GifFrame) :
  (rangeEnd < length frames)%nat ->
  Forall (fun f => 10 <= delay f <= 5000) (slice rangeStart (rangeEnd + 1) frames) ->
  handleSlowDown rangeStart rangeEnd frames ≫= handleSpeedUp rangeStart rangeEnd
  = Some frames.
Proof.
  intros Hlen Hrange. unfold handleSlowDown, handleSpeedUp.
  rewrite delay_loop_closed.
  replace (length frames <=? rangeEnd)%nat with false
    by (symmetry; apply Nat.leb_gt; lia).
  rewrite andb_false_r. cbn [mbind option_bind].
  rewrite delay_loop_closed, length_imap.
  replace (length frames <=? rangeEnd)%nat with false
    by (symmetry; apply Nat.leb_gt; lia).
  rewrite andb_false_r. f_equal.
  apply list_eq. intros j. rewrite !list_lookup_imap.
  destruct (frames !! j) as [f|] eqn:Hf; [|done]. cbn [fmap option_fmap option_map].
  destruct (inRange rangeStart rangeEnd j) eqn:Hin; [|done].
  f_equal. unfold inRange in Hin. apply andb_true_iff in Hin as [H1 H2].
  apply Nat.leb_le in H1, H2.
  assert (10 <= delay f <= 5000) as Hd.
  { rewrite Forall_lookup in Hrange. apply (Hrange (j - rangeStart)%nat).
    unfold slice. rewrite lookup_take_lt by lia. rewrite lookup_drop.
    by replace (rangeStart + (j - rangeStart))%nat with j by lia. }
  rewrite delay_withDelay. unfold roundHalf.
  replace (Z.min 10000 (delay f * 2)) with (delay f * 2) by lia.
  replace ((delay f * 2 + 1) / 2) with (delay f)
    by (apply Z.div_unique with (r := 1); lia).
  replace (Z.max 10 (delay f)) with (delay f) by lia.
  destruct f. reflexivity.
Qed.

Lemma slowDown_then_speedUp_witness :
  handleSlowDown 1 2 (framesOf [7; 40; 5000; 9000])
    ≫= handleSpeedUp 1 2 = Some (framesOf [7; 40; 5000; 9000]).
Proof.
  apply (slowDown_then_speedUp 1 2 (framesOf [7; 40; 5000; 9000])).
  - vm_compute. lia.
  - cbn. repeat constructor; cbn; lia.
Defined.

(** X7. Resetting the delay of a frame undoes an edit of that delay:
    after [handleFrameDelayChange] on the original frames,
    [handleResetFrameDelay] gives the original frames back. *)
Theorem reset_undoes_delay_change (originalFrames frames : list GifFrame)
    (frameIndex : nat) (newDelay : Z) :
  handleFrameDelayChange frameIndex newDelay originalFrames = Some frames ->
  handleResetFrameDelay originalFrames frameIndex frames = Some originalFrames.
Proof.
  unfold handleFrameDelayChange, handleResetFrameDelay.
  destruct (originalFrames !! frameIndex) as [o|] eqn:Ho; [|done].
  intros [= <-]. pose proof (lookup_lt_Some _ _ _ Ho) as Hlt. unfold handleFrameDelayChange.
  rewrite list_lookup_insert_eq by lia. f_equal.
  rewrite list_insert_insert_eq.
  replace (withDelay (delay o) (withDelay newDelay o)) with o by (by destruct o).
  by apply list_insert_id.
Qed.

Lemma reset_undoes_delay_change_witness :
  handleResetFrameDelay (framesOf [30; 40; 50]) 1
    (<[1%nat := withDelay 999 (mkGifFrame blankImageData 40 1 (mkCanvas 1 1 [0; 0; 0; 0]))]>
       (framesOf [30; 40; 50]))
  = Some (framesOf [30; 40; 50]).
Proof.
  apply (reset_undoes_delay_change (framesOf [30; 40; 50]) _ 1 999). reflexivity.
Defined.

Lemma resetRange_loop_Some (orig : list GifFrame) (n i : nat) (fs : list GifFrame) :
  (length orig <= length fs)%nat ->
  exists fs', resetRange_loop orig n i fs = Some fs' /\
    length fs' = length fs /\
    forall j, fs' !! j
              = if (i <=? j)%nat && (j <? i + n)%nat
                then match orig !! j with
                     | Some o => withDelay (delay o) <$> fs !! j
                     | None => fs !! j
                     end
                else fs !! j.
Proof.
  revert i fs. induction n as [|n IH]; intros i fs Hlen.
  - exists fs. split; [done|]. split; [done|]. intros j.
    destruct (i <=? j)%nat eqn:E1; [|done].
    apply Nat.leb_le in E1.
    replace (j <? i + 0)%nat with false by (symmetry; apply Nat.ltb_ge; lia). done.
  - cbn [resetRange_loop].
    assert (forall j, (S i <=? j)%nat && (j <? S i + n)%nat
                      = (i <=? j)%nat && (j <? i + S n)%nat && negb (j =? i)%nat) as Hcond.
    { intros j.
      destruct (S i <=? j)%nat eqn:A; destruct (j <? S i + n)%nat eqn:B;
        destruct (i <=? j)%nat eqn:C; destruct (j <? i + S n)%nat eqn:D;
        destruct (j =? i)%nat eqn:F; cbn; try done;
        repeat match goal with
               | H : (_ <=? _)%nat = true |- _ => apply Nat.leb_le in H
               | H : (_ <=? _)%nat = false |- _ => apply Nat.leb_gt in H
               | H : (_ <? _)%nat = true |- _ => apply Nat.ltb_lt in H
               | H : (_ <? _)%nat = false |- _ => apply Nat.ltb_ge in H
               | H : (_ =? _)%nat = true |- _ => apply Nat.eqb_eq in H
               | H : (_ =? _)%nat = false |- _ => apply Nat.eqb_neq in H
               end; lia. }
    destruct (orig !! i) as [o|] eqn:Ho.
    + pose proof (lookup_lt_Some _ _ _ Ho) as Hlt.
      destruct (lookup_lt_is_Some_2 fs i ltac:(lia)) as [f Hf]. rewrite Hf.
      destruct (IH (S i) (<[i := withDelay (delay o) f]> fs)) as (fs' & Hrun & Hl & Hlk).
      { rewrite length_insert. lia. }
      exists fs'. split; [done|]. split; [by rewrite Hl, length_insert|].
      intros j. rewrite Hlk, Hcond.
      destruct (decide (j = i)) as [->|Hne].
      * rewrite Nat.eqb_refl, andb_false_r.
        replace (i <=? i)%nat with true by (symmetry; apply Nat.leb_le; lia).
        replace (i <? i + S n)%nat with true by (symmetry; apply Nat.ltb_lt; lia).
        cbn [andb]. rewrite list_lookup_insert_eq by lia. by rewrite Ho, Hf.
      * replace (j =? i)%nat with false by (symmetry; by apply Nat.eqb_neq).
        rewrite andb_true_r. by rewrite list_lookup_insert_ne.
    + destruct (IH (S i) fs Hlen) as (fs' & Hrun & Hl & Hlk).
      exists fs'. split; [done|]. split; [done|].
      intros j. rewrite Hlk, Hcond.
      destruct (decide (j = i)) as [->|Hne].
      * rewrite Nat.eqb_refl, andb_false_r.
        replace (i <=? i)%nat with true by (symmetry; apply Nat.leb_le; lia).
        replace (i <? i + S n)%nat with true by (symmetry; apply Nat.ltb_lt; lia).
        cbn [andb]. by rewrite Ho.
      * replace (j =? i)%nat with false by (symmetry; by apply Nat.eqb_neq).
        by rewrite andb_true_r.
Qed.

Lemma hasChanges_false (frames originalFrames : list GifFrame) :
  map delay frames = map delay originalFrames -> hasChanges frames originalFrames = false.
Proof.
  intros Heq. unfold hasChanges.
  apply not_true_is_false. intros Hex. apply existsb_exists in Hex as (b & Hb & ->).
  apply list_elem_of_In, elem_of_lookup_imap_1 in Hb as (i & f & Hb & Hf).
  assert (map delay originalFrames !! i = Some (delay f)) as Ho
    by (rewrite <- Heq, list_lookup_fmap, Hf; done).
  rewrite list_lookup_fmap in Ho.
  destruct (originalFrames !! i) as [o|]; [|done].
  injection Ho as Ho. rewrite Ho, Z.eqb_refl in Hb. done.
Qed.

(** X8. With as many frames as original frames, the reset-to-original
    button on the whole frame list restores every original delay and
    changes nothing else, and the effect that follows clears the
    unsaved-changes flag. *)
Theorem reset_all_clears_changes (originalFrames frames : list GifFrame) (flag : bool) :
  frames <> [] ->
  length frames = length originalFrames ->
  exists frames',
    resetRangeToOriginal originalFrames 0 (length frames - 1) frames = Some frames' /\
    map delay frames' = map delay originalFrames /\
    map (withDelay 0) frames' = map (withDelay 0) frames /\
    hasUnsavedChanges_effect frames' originalFrames flag = false.
Proof.
  intros Hne Hlen. unfold resetRangeToOriginal.
  destruct (resetRange_loop_Some originalFrames (length frames - 1 + 1 - 0) 0 frames)
    as (fs' & Hrun & Hl & Hlk); [lia|].
  exists fs'. split; [done|].
  assert (0 < length frames)%nat as Hpos by (destruct frames; [done|cbn; lia]).
  assert (forall j, fs' !! j = match originalFrames !! j with
                               | Some o => withDelay (delay o) <$> frames !! j
                               | None => frames !! j
                               end) as Hlk'.
  { intros j. rewrite Hlk. cbn [Nat.leb andb].
    destruct (j <? 0 + (length frames - 1 + 1 - 0))%nat eqn:E; [done|].
    apply Nat.ltb_ge in E.
    rewrite (lookup_ge_None_2 originalFrames j) by lia. done. }
  assert (map delay fs' = map delay originalFrames) as Hd.
  { apply list_eq. intros j. rewrite !list_lookup_fmap, Hlk'.
    destruct (originalFrames !! j) as [o|] eqn:Ho.
    - pose proof (lookup_lt_Some _ _ _ Ho) as Hlt.
      destruct (lookup_lt_is_Some_2 frames j ltac:(lia)) as [f ->]. done.
    - apply lookup_ge_None in Ho. rewrite (lookup_ge_None_2 frames j) by lia. done. }
  split; [done|]. split.
  - apply list_eq. intros j. rewrite !list_lookup_fmap, Hlk'.
    destruct (originalFrames !! j) as [o|]; [|done].
    destruct (frames !! j) as [f|]; [|done]. done.
  - unfold hasUnsavedChanges_effect.
    rewrite Hl, <- Hlen.
    replace (0 <? length frames)%nat with true by (symmetry; apply Nat.ltb_lt; lia).
    cbn [andb]. by apply hasChanges_false.
Qed.

Lemma reset_all_clears_changes_witness :
  exists frames',
    resetRangeToOriginal (framesOf [30; 40; 50]) 0 2 (framesOf [15; 80; 50]) = Some frames' /\
    map delay frames' = [30; 40; 50] /\
    hasUnsavedChanges_effect frames' (framesOf [30; 40; 50]) true = false.
Proof.
  destruct (reset_all_clears_changes (framesOf [30; 40; 50]) (framesOf [15; 80; 50]) true)
    as (fs' & H1 & H2 & _ & H4); [done|reflexivity|].
  exists fs'. split; [exact H1|]. split; [exact H2|exact H4].
Defined.

Lemma fold_delay_sum (l : list GifFrame) (a : Z) :
  fold_left (fun s f => s + delay f) l a = a + sumZ (map delay l).
Proof.
  revert a. induction l as [|f l IH]; intros a; cbn [fold_left map]; [cbn; lia|].
  rewrite IH, sumZ_cons. lia.
Qed.

Lemma map_slice {A B} (g : A -> B) (a b : nat) (l : list A) :
  map g (slice a b l) = slice a b (map g l).
Proof. unfold slice. by rewrite <- fmap_drop, <- fmap_take. Qed.

Lemma frameRangeSum_delays (rs re : nat) (fs : list GifFrame) :
  frameRangeSum rs re fs = rangeSum rs re (map delay fs).
Proof.
  unfold frameRangeSum, rangeSum. rewrite fold_delay_sum, map_slice. lia.
Qed.

Section DurationInputProofs.
Context `{Float64}.

Lemma scaleFrames_delays (prev : list GifFrame) (rs re : nat) (v c : Z) :
  map delay (scaleFrames prev rs re v c) = scaleDelays (map delay prev) rs re v c.
Proof.
  apply list_eq. intros j. unfold scaleFrames, scaleDelays.
  rewrite list_lookup_fmap, !list_lookup_imap, list_lookup_fmap.
  destruct (prev !! j) as [f|]; [|done]. cbn.
  by destruct (inRange rs re j).
Qed.

(** The loop of the input and the loop of the export step through the
    same delays. At an index beyond the list both leave the model, for
    different reasons: the input handler throws there, the export stores
    [NaN]. *)
Lemma inputPass_loop_delays (dir : Z) (n i : nat) (next : list GifFrame) (rem : Z) :
  (fun r => (map delay (fst r), snd r)) <$> inputPass_loop dir n i next rem
  = pass_loop dir n i (map delay next) rem.
Proof.
  revert i next rem. induction n as [|n IH]; intros i next rem; [done|].
  cbn [inputPass_loop pass_loop].
  destruct (0 <? rem); [|done].
  rewrite list_lookup_fmap.
  destruct (next !! i) as [f|]; [|done]. cbn [fmap option_fmap option_map].
  destruct ((dir <? 0) && (delay f + dir <? 10)); [apply IH|].
  rewrite IH. by rewrite list_fmap_insert.
Qed.

Lemma inputPasses_delays (dir : Z) (rs re : nat) (next : list GifFrame) (rem : Z) :
  map delay <$>
    (fst <$> (r ← inputPass_loop dir (re + 1 - rs) rs next rem;
              inputPass_loop dir (re + 1 - rs) rs (fst r) (snd r)))
  = fst <$> distribute dir rs re (map delay next) rem.
Proof.
  unfold distribute.
  rewrite <- (inputPass_loop_delays dir (re + 1 - rs) rs next rem).
  destruct (inputPass_loop dir (re + 1 - rs) rs next rem) as [[l r]|]; [|done].
  cbn [fmap option_fmap option_map mbind option_bind fst snd].
  rewrite <- (inputPass_loop_delays dir (re + 1 - rs) rs l r).
  by destruct (inputPass_loop dir (re + 1 - rs) rs l r) as [[l' r']|].
Qed.

(** X9. For a range inside the frame list, typing a duration into the
    range-duration input changes the delays exactly as the speed
    adjustment of the export does for the same target, when the range has
    a positive duration that differs from the value typed: both produce a
    result, and the delays of the frames the input stores are the delays
    the export computes. *)
Theorem rangeDurationInput_agrees (v : Z) (rangeStart rangeEnd : nat)
    (prev : list GifFrame) :
  (rangeEnd < length prev)%nat ->
  0 < v ->
  0 < frameRangeSum rangeStart rangeEnd prev ->
  v <> frameRangeSum rangeStart rangeEnd prev ->
  exists next,
    rangeDurationInput v rangeStart rangeEnd prev = Some next /\
    adjustSpeed (map delay prev) rangeStart rangeEnd v = Some (map delay next).
Proof.
  intros Hin Hv Hsum Hne.
  assert (rangeStart <= rangeEnd)%nat as Hle.
  { destruct (decide (rangeStart <= rangeEnd)%nat) as [|Hgt]; [done|]. exfalso.
    unfold frameRangeSum, slice in Hsum.
    replace (rangeEnd + 1 - rangeStart)%nat with 0%nat in Hsum by lia.
    rewrite take_0 in Hsum. cbn in Hsum. lia. }
  assert (map delay <$> rangeDurationInput v rangeStart rangeEnd prev
          = adjustSpeed (map delay prev) rangeStart rangeEnd v) as Heq.
  { unfold rangeDurationInput, adjustSpeed.
    rewrite !frameRangeSum_delays, scaleFrames_delays.
    rewrite frameRangeSum_delays in Hsum, Hne.
    set (c := rangeSum rangeStart rangeEnd (map delay prev)) in *.
    replace (c <=? 0) with false by (symmetry; apply Z.leb_gt; lia).
    replace (0 <? v) with true by (symmetry; apply Z.ltb_lt; lia).
    replace (v =? c) with false by (symmetry; apply Z.eqb_neq; lia).
    cbn [andb negb].
    set (d := v - rangeSum rangeStart rangeEnd
                   (scaleDelays (map delay prev) rangeStart rangeEnd v c)).
    destruct (d =? 0); cbn [negb].
    - cbn [fmap option_fmap option_map]. by rewrite scaleFrames_delays.
    - rewrite inputPasses_delays. by rewrite scaleFrames_delays. }
  assert (is_Some (adjustSpeed (map delay prev) rangeStart rangeEnd v)) as [out Hout].
  { unfold adjustSpeed. cbv zeta.
    destruct ((0 <? v) && negb (v =? rangeSum rangeStart rangeEnd (map delay prev)));
      [|done].
    set (scaled := scaleDelays _ _ _ _ _).
    destruct (negb (v - rangeSum rangeStart rangeEnd scaled =? 0)); [|done].
    assert (length scaled = length prev) as Hlen.
    { unfold scaled, scaleDelays. by rewrite length_imap, length_map. }
    destruct (range_split scaled rangeStart rangeEnd Hle ltac:(lia)) as (Hsplit & Hpre & Hseg).
    rewrite Hsplit, (distribute_segment _ _ _ _ rangeStart rangeEnd _ Hpre Hseg). done. }
  rewrite Hout in Heq.
  destruct (rangeDurationInput v rangeStart rangeEnd prev) as [next|]; [|done].
  exists next. split; [done|]. cbn in Heq. by injection Heq as <-.
Qed.
End DurationInputProofs.

Lemma rangeDurationInput_agrees_witness :
  exists next,
    @rangeDurationInput exactRounding 150 1 3 (framesOf [7; 100; 100; 100; 9]) = Some next /\
    @adjustSpeed exactRounding [7; 100; 100; 100; 9] 1 3 150 = Some (map delay next).
Proof.
  apply (@rangeDurationInput_agrees exactRounding 150 1 3 (framesOf [7; 100; 100; 100; 9]));
    [cbn; lia | lia | vm_compute; done | vm_compute; done].
Defined.

(** ** Segments *)

Lemma slice_app {A} (a b c : nat) (l : list A) :
  (a <= b)%nat -> (b <= c)%nat -> slice a b l ++ slice b c l = slice a c l.
Proof.
  intros Hab Hbc. unfold slice.
  replace (drop b l) with (drop (b - a) (drop a l)) by (rewrite drop_drop; f_equal; lia).
  rewrite take_take_drop. f_equal. lia.
Qed.

Lemma slice_all {A} (n : nat) (l : list A) : (length l <= n)%nat -> slice 0 n l = l.
Proof. intros Hn. unfold slice. rewrite drop_0, Nat.sub_0_r. by apply take_ge. Qed.

Lemma slice_empty {A} (a : nat) (l : list A) : slice a a l = [].
Proof. unfold slice. by rewrite Nat.sub_diag. Qed.

Lemma length_slice {A} (a b : nat) (l : list A) :
  (b <= length l)%nat -> length (slice a b l) = (b - a)%nat.
Proof. intros Hb. unfold slice. rewrite length_take, length_drop. lia. Qed.

(** X10. When [handleSliceSave] cuts the whole GIF, the slices it plans
    are consecutive and cover every frame exactly once: their delays, one
    slice after the other, are the delays of the GIF, and the frame count
    recorded for each slice is the number of its delays. *)
Theorem slicePlan_partition (segStart segEnd : Z) (frames : list GifFrame)
    (slices : list SlicePlan) :
  0 <= segStart ->
  segEnd <= Z.of_nat (length frames) - 1 ->
  slicePlan false segStart segEnd (Z.of_nat (length frames) - 1) = Slices slices ->
  concat (map (sliceDelays frames) slices) = map delay frames /\
  Forall (fun sl => sl_end sl - sl_start sl + 1
                    = Z.of_nat (length (sliceDelays frames sl))) slices.
Proof.
  intros Hs He. unfold slicePlan. cbv zeta.
  set (L := Z.of_nat (length frames) - 1).
  assert (forall a b c, (a <= b)%nat -> (b <= c)%nat -> (length frames <= c)%nat ->
            map delay (slice 0 a frames) ++ map delay (slice a b frames) ++
            map delay (slice b c frames) = map delay frames) as Hthree.
  { intros a b c Hab Hbc Hc.
    rewrite <- !map_app, !slice_app by lia. by rewrite slice_all. }
  assert (Z.to_nat (L + 1) = length frames) as HL by (unfold L; lia).
  assert (forall a b : Z, 0 <= a -> a <= b + 1 -> b <= L ->
            b - a + 1
            = Z.of_nat (length (sliceDelays frames (mkSlice a b (js "")))) ) as Hcount.
  { intros a b Ha Hab Hb. unfold sliceDelays. cbn [sl_start sl_end].
    rewrite length_map, length_slice by (unfold L in Hb; lia). lia. }
  assert (forall a b s, sliceDelays frames (mkSlice a b s)
                        = sliceDelays frames (mkSlice a b (js ""))) as Hsuffix by done.
  destruct (segStart =? segEnd) eqn:E1; [apply Z.eqb_eq in E1|apply Z.eqb_neq in E1].
  - destruct ((0 <? segStart) && (segStart <? L)) eqn:E2; [|done].
    apply andb_true_iff in E2 as [E2 E3]. apply Z.ltb_lt in E2, E3.
    intros [= <-]. split.
    + cbn [map concat]. unfold sliceDelays. cbn [sl_start sl_end].
      rewrite app_nil_r.
      replace (Z.to_nat (segStart - 1 + 1)) with (Z.to_nat segStart) by lia.
      change (Z.to_nat 0) with 0%nat. rewrite HL.
      rewrite <- (Hthree (Z.to_nat segStart) (Z.to_nat segStart) (length frames)) by lia.
      by rewrite slice_empty.
    + repeat constructor; cbn [sl_start sl_end]; rewrite Hsuffix; apply Hcount; lia.
  - destruct (segStart <? segEnd) eqn:E2; [apply Z.ltb_lt in E2|done].
    destruct (0 <? segStart) eqn:E3; destruct (segEnd <? L) eqn:E4;
      [apply Z.ltb_lt in E3, E4 | apply Z.ltb_lt in E3; apply Z.ltb_ge in E4
       | apply Z.ltb_ge in E3; apply Z.ltb_lt in E4
       | apply Z.ltb_ge in E3; apply Z.ltb_ge in E4];
      intros [= <-];
      (split;
       [|cbn [app]; repeat constructor; cbn [sl_start sl_end]; rewrite Hsuffix;
         apply Hcount; lia]);
      cbn [app map concat]; unfold sliceDelays; cbn [sl_start sl_end];
      rewrite ?app_nil_r;
      replace (Z.to_nat (segStart - 1 + 1)) with (Z.to_nat segStart) by lia;
      change (Z.to_nat 0) with 0%nat; rewrite ?HL.
    + apply Hthree; lia.
    + rewrite <- (Hthree (Z.to_nat segStart) (Z.to_nat (segEnd + 1))
                    (Z.to_nat (segEnd + 1))) by lia.
      by rewrite slice_empty, app_nil_r.
    + rewrite <- (Hthree 0%nat (Z.to_nat (segEnd + 1)) (length frames)) by lia.
      rewrite slice_empty. cbn [map app].
      by replace (Z.to_nat segStart) with 0%nat by lia.
    + rewrite <- (Hthree 0%nat (Z.to_nat (segEnd + 1)) (Z.to_nat (segEnd + 1))) by lia.
      rewrite !slice_empty. cbn [map app]. rewrite app_nil_r.
      by replace (Z.to_nat segStart) with 0%nat by lia.
Qed.

Lemma slicePlan_partition_witness :
  slicePlan false 1 2 3
  = Slices [mkSlice 0 0 (js "_part1"); mkSlice 1 2 (js "_part2"); mkSlice 3 3 (js "_part3")] /\
  concat (map (sliceDelays (framesOf [10; 20; 30; 40]))
            [mkSlice 0 0 (js "_part1"); mkSlice 1 2 (js "_part2");
             mkSlice 3 3 (js "_part3")])
  = map delay (framesOf [10; 20; 30; 40]).
Proof.
  split; [reflexivity|].
  apply (slicePlan_partition 1 2 (framesOf [10; 20; 30; 40])); [lia|cbn; lia|reflexivity].
Defined.

Lemma sum_three_parts (a b : nat) (l : list GifFrame) :
  (a <= b)%nat ->
  sumZ (map delay (take a l)) + sumZ (map delay (slice a b l))
  + sumZ (map delay (drop b l)) = sumZ (map delay l).
Proof.
  intros Hab.
  transitivity (sumZ (map delay (take a l ++ slice a b l ++ drop b l))).
  - rewrite !map_app, !sumZ_app. lia.
  - do 2 f_equal. unfold slice.
    replace (drop b l) with (drop (b - a) (drop a l)) by (rewrite drop_drop; f_equal; lia).
    by rewrite take_drop, take_drop.
Qed.

(** X11. When [handleDeleteSegment] goes ahead, the range lies inside the
    frame list, the delays it records are those of the frames before and
    after the range, the recorded frame count is their number and at
    least 1, and the recorded delays and the deleted ones add up to the
    duration of the GIF. *)
Theorem deleteSegment_frames (segStart segEnd : Z) (frames : list GifFrame)
    (newFrameCount : Z) (newFrameDelays : list Z) :
  deleteSegment segStart segEnd frames = DeleteFrames newFrameCount newFrameDelays ->
  0 <= segStart <= segEnd /\ segEnd < Z.of_nat (length frames) /\
  newFrameDelays
  = map delay (take (Z.to_nat segStart) frames ++ drop (Z.to_nat (segEnd + 1)) frames) /\
  newFrameCount = Z.of_nat (length newFrameDelays) /\
  1 <= newFrameCount /\
  sumZ newFrameDelays
  + sumZ (map delay (slice (Z.to_nat segStart) (Z.to_nat (segEnd + 1)) frames))
  = sumZ (map delay frames).
Proof.
  unfold deleteSegment. cbv zeta.
  destruct ((segStart <? 0) || (Z.of_nat (length frames) <=? segEnd) || (segEnd <? segStart))
    eqn:E1; [done|].
  apply orb_false_iff in E1 as [E1 E3]. apply orb_false_iff in E1 as [E1 E2].
  apply Z.ltb_ge in E1, E3. apply Z.leb_gt in E2.
  destruct ((segStart =? 0) && (segEnd =? Z.of_nat (length frames) - 1)) eqn:E4; [done|].
  intros [= <- <-].
  assert ((if 0 <? segStart then map delay (slice 0 (Z.to_nat segStart) frames) else [])
          = map delay (take (Z.to_nat segStart) frames)) as ->.
  { destruct (0 <? segStart) eqn:E5.
    - unfold slice. by rewrite drop_0, Nat.sub_0_r.
    - apply Z.ltb_ge in E5. by replace (Z.to_nat segStart) with 0%nat by lia. }
  assert ((if segEnd <? Z.of_nat (length frames) - 1
           then map delay (drop (Z.to_nat (segEnd + 1)) frames) else [])
          = map delay (drop (Z.to_nat (segEnd + 1)) frames)) as ->.
  { destruct (segEnd <? Z.of_nat (length frames) - 1) eqn:E5; [done|].
    apply Z.ltb_ge in E5. rewrite drop_ge by lia. done. }
  rewrite <- map_app.
  split; [lia|]. split; [lia|]. split; [done|].
  assert (length (take (Z.to_nat segStart) frames ++ drop (Z.to_nat (segEnd + 1)) frames)
          = (length frames - (Z.to_nat (segEnd + 1) - Z.to_nat segStart))%nat) as Hlen.
  { rewrite length_app, length_take, length_drop. lia. }
  split; [rewrite length_map, Hlen; lia|].
  split.
  - apply andb_false_iff in E4 as [E4|E4]; apply Z.eqb_neq in E4; lia.
  - rewrite map_app, sumZ_app.
    pose proof (sum_three_parts (Z.to_nat segStart) (Z.to_nat (segEnd + 1)) frames
                  ltac:(lia)) as H3.
    lia.
Qed.

Lemma deleteSegment_frames_witness :
  deleteSegment 1 2 (framesOf [10; 20; 30; 40]) = DeleteFrames 2 [10; 40] /\
  2 = Z.of_nat (length [10; 40]) /\
  sumZ [10; 40] + sumZ (map delay (slice 1 3 (framesOf [10; 20; 30; 40]))) = 100.
Proof.
  split; [reflexivity|].
  destruct (deleteSegment_frames 1 2 (framesOf [10; 20; 30; 40]) 2 [10; 40] eq_refl)
    as (_ & _ & _ & Hn & _ & Hsum).
  split; [exact Hn|exact Hsum].
Defined.

(** ** Names of new versions *)

Section FreshCounter.
Variable nameOf : N -> JsString.
Hypothesis nameOf_inj : forall a b, nameOf a = nameOf b -> a = b.

Lemma freshCounter_ext (taken taken' : list JsString) (fuel : nat) (c : N) :
  (forall c', (c <= c')%N -> nameOf c' ∈ taken <-> nameOf c' ∈ taken') ->
  freshCounter nameOf taken fuel c = freshCounter nameOf taken' fuel c.
Proof.
  revert c. induction fuel as [|fuel IH]; intros c Hext; cbn [freshCounter].
  - destruct (decide (nameOf c ∈ taken)) as [Hin|Hin].
    + rewrite !bool_decide_eq_true_2; [done| |done]. apply Hext; [lia|done].
    + rewrite !bool_decide_eq_false_2; [done| |done]. rewrite <- Hext; [done|lia].
  - destruct (decide (nameOf c ∈ taken)) as [Hin|Hin].
    + rewrite !bool_decide_eq_true_2; [|apply Hext; [lia|done]|done].
      apply IH. intros c' Hc'. apply Hext. lia.
    + rewrite !bool_decide_eq_false_2; [done| |done]. rewrite <- Hext; [done|lia].
Qed.

Lemma freshCounter_Some (taken : list JsString) (fuel : nat) (c : N) :
  (length taken <= fuel)%nat -> is_Some (freshCounter nameOf taken fuel c).
Proof.
  revert taken c. induction fuel as [|fuel IH]; intros taken c Hlen; cbn [freshCounter].
  - destruct taken; [|cbn in Hlen; lia].
    rewrite bool_decide_eq_false_2 by apply not_elem_of_nil. by eexists.
  - destruct (decide (nameOf c ∈ taken)) as [Hin|Hin].
    + rewrite bool_decide_eq_true_2 by done.
      rewrite (freshCounter_ext taken (filter (fun s => s <> nameOf c) taken)).
      * apply IH.
        assert (length (filter (fun s => s <> nameOf c) taken) < length taken)%nat; [|lia].
        clear -Hin. induction taken as [|s taken IHt]; [by apply elem_of_nil in Hin|].
        destruct (decide (s = nameOf c)) as [->|Hne].
        -- rewrite filter_cons_False by (intros Hc; by apply Hc).
           pose proof (length_filter (fun s => s <> nameOf c) taken). cbn [length]. lia.
        -- rewrite filter_cons_True by done. cbn [length].
           apply elem_of_cons in Hin as [Hin|Hin]; [congruence|].
           specialize (IHt Hin). lia.
      * intros c' Hc'. rewrite list_elem_of_filter.
        split; [|by intros [_ ?]]. intros Hin'. split; [|done].
        intros Heq. apply nameOf_inj in Heq. lia.
    + rewrite bool_decide_eq_false_2 by done. by eexists.
Qed.

Lemma freshCounter_spec (taken : list JsString) (fuel : nat) (c r : N) :
  freshCounter nameOf taken fuel c = Some r ->
  (c <= r <= c + N.of_nat fuel)%N /\ (nameOf r ∉ taken) /\
  forall c', (c <= c' < r)%N -> nameOf c' ∈ taken.
Proof.
  revert c. induction fuel as [|fuel IH]; intros c; cbn [freshCounter].
  - destruct (decide (nameOf c ∈ taken)) as [Hin|Hin].
    + by rewrite bool_decide_eq_true_2.
    + rewrite bool_decide_eq_false_2 by done. intros [= <-].
      split; [lia|]. split; [done|]. intros; lia.
  - destruct (decide (nameOf c ∈ taken)) as [Hin|Hin].
    + rewrite bool_decide_eq_true_2 by done. intros Hr.
      apply IH in Hr as (Hb & Hfresh & Hbelow).
      split; [lia|]. split; [done|]. intros c' Hc'.
      destruct (decide (c' = c)) as [->|Hne]; [done|]. apply Hbelow. lia.
    + rewrite bool_decide_eq_false_2 by done. intros [= <-].
      split; [lia|]. split; [done|]. intros; lia.
Qed.

Lemma freshCounter_total (taken : list JsString) :
  exists counter,
    freshCounter nameOf taken (length taken) 1 = Some counter /\
    (1 <= counter <= N.of_nat (length taken) + 1)%N /\
    (nameOf counter ∉ taken) /\
    forall c', (1 <= c' < counter)%N -> nameOf c' ∈ taken.
Proof.
  destruct (freshCounter_Some taken (length taken) 1) as [r Hr]; [lia|].
  exists r. split; [done|].
  apply freshCounter_spec in Hr as (Hb & Hfresh & Hbelow).
  split; [lia|]. split; done.
Qed.
End FreshCounter.

Lemma deletedName_inj (baseName : JsString) (a b : N) :
  deletedName baseName a = deletedName baseName b -> a = b.
Proof.
  unfold deletedName. intros Heq.
  apply app_inv_head, app_inv_head, app_inv_tail in Heq. by apply decimal_inj.
Qed.

Lemma fpsReduceName_inj (baseName : JsString) (k a b : N) :
  fpsReduceName baseName k a = fpsReduceName baseName k b -> a = b.
Proof.
  unfold fpsReduceName. intros Heq.
  do 4 apply app_inv_head in Heq. apply app_inv_tail in Heq. by apply decimal_inj.
Qed.

(** X12. The loops that name the result of [handleDeleteSegment] and of
    [handleApplyFpsReduce] terminate, and the name each ends with is the
    one with the smallest counter, starting at 1, that no version bears;
    the counter never exceeds the number of versions plus one. *)
Theorem new_version_names_fresh (versions : list VersionItem) (currentName : JsString)
    (fpsKeepInterval : N) :
  (exists counter,
     deletedFileName versions currentName
     = Some (deletedName (stripGif currentName) counter) /\
     (1 <= counter <= N.of_nat (length versions) + 1)%N /\
     (deletedName (stripGif currentName) counter ∉ map v_name versions) /\
     forall c, (1 <= c < counter)%N ->
               deletedName (stripGif currentName) c ∈ map v_name versions) /\
  (exists counter,
     fpsReduceFileName versions currentName fpsKeepInterval
     = Some (fpsReduceName (stripGif currentName) fpsKeepInterval counter) /\
     (1 <= counter <= N.of_nat (length versions) + 1)%N /\
     (fpsReduceName (stripGif currentName) fpsKeepInterval counter
        ∉ map v_name versions) /\
     forall c, (1 <= c < counter)%N ->
               fpsReduceName (stripGif currentName) fpsKeepInterval c
                 ∈ map v_name versions).
Proof.
  split.
  - destruct (freshCounter_total (deletedName (stripGif currentName))
                (deletedName_inj _) (map v_name versions))
      as (counter & Hrun & Hb & Hfresh & Hbelow).
    rewrite length_map in Hrun, Hb.
    exists counter. unfold deletedFileName. cbv zeta. rewrite Hrun. done.
  - destruct (freshCounter_total (fpsReduceName (stripGif currentName) fpsKeepInterval)
                (fpsReduceName_inj _ _) (map v_name versions))
      as (counter & Hrun & Hb & Hfresh & Hbelow).
    rewrite length_map in Hrun, Hb.
    exists counter. unfold fpsReduceFileName. cbv zeta. rewrite Hrun. done.
Qed.

Example deleted_name_example :
  deletedFileName
    [mkVersion (js "v1") (js "cat.gif") (js "/w/cat.gif") true 3 300 0 [];
     mkVersion (js "v2") (js "cat-deleted-1.gif") (js "/w/d1.gif") false 2 200 0 []]
    (js "cat.GIF")
  = Some (js "cat-deleted-2.gif").
Proof. vm_compute. reflexivity. Qed.

(** ** Playback and times of the player *)

(** X13. Playback never reads a frame that does not exist and shows the
    frames in order: started on a frame of the list, the calls of
    [animate] show the following frames one by one, wrapping around when
    looping, and playback stops only without looping, and then on the
    last frame. *)
Theorem playback_in_order (loop : bool) (frames : list GifFrame) (ticks : list Z)
    (currentFrame : nat) :
  (currentFrame < length frames)%nat ->
  exists shown stopped,
    playback loop frames ticks currentFrame = Some (shown, stopped) /\
    shown = map (fun k => if loop then ((currentFrame + k) mod length frames)%nat
                          else (currentFrame + k)%nat)
              (seq 1 (length shown)) /\
    Forall (fun n => (n < length frames)%nat) shown /\
    (stopped = true ->
     loop = false /\ (currentFrame + length shown + 1 = length frames)%nat).
Proof.
  revert currentFrame. induction ticks as [|elapsed ticks IH]; intros cur Hcur.
  - exists [], false. split; [done|]. split; [done|]. split; [constructor|done].
  - cbn [playback]. unfold animate.
    destruct (lookup_lt_is_Some_2 frames cur Hcur) as [frame ->].
    destruct (delay frame <=? elapsed); [|by apply IH].
    destruct (negb loop && (length frames <=? cur + 1)%nat) eqn:Estop.
    + apply andb_true_iff in Estop as [Hl Hend].
      apply negb_true_iff in Hl. apply Nat.leb_le in Hend.
      exists [], true. split; [done|]. split; [done|]. split; [constructor|].
      intros _. split; [done|]. cbn [length]. lia.
    + set (next := (if loop then (cur + 1) mod length frames else cur + 1)%nat).
      assert (next < length frames)%nat as Hnext.
      { unfold next. destruct loop.
        - apply Nat.mod_upper_bound. lia.
        - cbn [negb andb] in Estop. apply Nat.leb_gt in Estop. lia. }
      destruct (IH next Hnext) as (shown & stopped & Hrun & Hshown & Hall & Hstop).
      exists (next :: shown), stopped. rewrite Hrun. cbn [mbind option_bind fst snd].
      split; [done|]. split; [|split].
      * cbn [length seq map]. f_equal.
        rewrite <- seq_shift, map_map. rewrite Hshown at 1.
        apply map_ext. intros k. unfold next. destruct loop.
        -- rewrite Nat.Div0.add_mod_idemp_l. f_equal. lia.
        -- lia.
      * by constructor.
      * intros Hs. destruct (Hstop Hs) as [-> Hlen]. split; [done|].
        unfold next in Hlen. cbn [length]. lia.
Qed.

Lemma playback_in_order_witness :
  playback false (framesOf [100; 50; 80]) [30; 100; 20; 60; 90; 5] 0
  = Some ([1; 2]%nat, true) /\
  exists shown stopped,
    playback true (framesOf [100; 50; 80]) [100; 50; 80; 100] 0 = Some (shown, stopped) /\
    Forall (fun n => (n < 3)%nat) shown.
Proof.
  split; [reflexivity|].
  destruct (playback_in_order true (framesOf [100; 50; 80]) [100; 50; 80; 100] 0)
    as (shown & stopped & Hrun & _ & Hall & _); [cbn; lia|].
  exists shown, stopped. split; [exact Hrun|exact Hall].
Defined.

(** X14. The three times of the player: the played and the remaining
    time add up to the total, the remaining time is the duration of the
    frames from the current one on, and with delays that are not negative
    none of the three is negative. *)
Theorem player_times (frames : list GifFrame) (currentFrame : nat) :
  elapsedTime frames currentFrame + remainingTime frames currentFrame = totalTime frames /\
  remainingTime frames currentFrame = sumZ (map delay (drop currentFrame frames)) /\
  (Forall (fun f => 0 <= delay f) frames ->
   0 <= elapsedTime frames currentFrame /\ 0 <= remainingTime frames currentFrame /\
   0 <= totalTime frames).
Proof.
  unfold remainingTime, elapsedTime, totalTime, slice.
  rewrite !fold_delay_sum, drop_0, Nat.sub_0_r.
  assert (sumZ (map delay frames)
          = sumZ (map delay (take currentFrame frames))
            + sumZ (map delay (drop currentFrame frames))) as Hsplit.
  { rewrite <- sumZ_app, <- map_app. by rewrite take_drop. }
  assert (forall l : list GifFrame, Forall (fun f => 0 <= delay f) l ->
                                    0 <= sumZ (map delay l)) as Hpos.
  { induction 1 as [|f l Hf _ IH]; [done|]. cbn [map]. rewrite sumZ_cons. lia. }
  split; [lia|]. split; [lia|]. intros Hall.
  pose proof (Hpos _ (Forall_take _ currentFrame _ Hall)).
  pose proof (Hpos _ (Forall_drop _ currentFrame _ Hall)).
  lia.
Qed.

Lemma player_times_witness :
  elapsedTime (framesOf [100; 50; 80]) 2 = 150 /\
  remainingTime (framesOf [100; 50; 80]) 2 = 80 /\
  0 <= remainingTime (framesOf [100; 50; 80]) 2.
Proof.
  split; [reflexivity|]. split; [reflexivity|].
  destruct (player_times (framesOf [100; 50; 80]) 2) as (_ & _ & Hpos).
  apply Hpos. cbn. repeat constructor; cbn; lia.
Defined.

Lemma pad3_value (m : N) :
  (m < 1000)%N -> digitsValue (padStart 3 48%N (decimal m)) = m.
Proof.
  intros Hm.
  assert (forallb (fun k => (digitsValue (padStart 3 48 (decimal (N.of_nat k)))
                             =? N.of_nat k)%N) (seq 0 1000) = true) as Hall
    by (vm_compute; reflexivity).
  rewrite forallb_forall in Hall.
  specialize (Hall (N.to_nat m)). rewrite N2Nat.id in Hall.
  apply N.eqb_eq, Hall. apply in_seq. lia.
Qed.

(** X15. [formatTime] shows different whole numbers of milliseconds
    differently: the text determines the time. *)
Theorem formatTime_inj (a b : N) : formatTime a = formatTime b -> a = b.
Proof.
  unfold formatTime. intros Heq.
  apply digit_run_unique in Heq as [Hs Hrest];
    [|apply decimal_digits|apply decimal_digits|reflexivity|reflexivity].
  apply decimal_inj in Hs.
  apply (app_inv_head (js ".")), app_inv_tail in Hrest.
  apply (f_equal digitsValue) in Hrest.
  rewrite !pad3_value in Hrest by (apply N.mod_upper_bound; lia).
  rewrite (N.div_mod a 1000), (N.div_mod b 1000) by lia. congruence.
Qed.

Lemma formatTime_inj_witness :
  formatTime 61005 = js "61.005s" /\ (61000 + 5 = 61005)%N.
Proof.
  split; [reflexivity|].
  apply (formatTime_inj (61000 + 5) 61005). reflexivity.
Defined.

(** ** Frame-rate preview, continued *)

Lemma merge_loop_count (frames : list Z) (thr : Z) (i steps j : nat) (acc : Z) (c : nat) :
  (snd (merge_loop frames thr i steps j acc c) <= c + steps)%nat.
Proof.
  revert j acc c. induction steps as [|steps IH]; intros j acc c; cbn [merge_loop snd]; [lia|].
  destruct (frames !! (i + j)%nat) as [next|]; [|cbn; lia].
  destruct (next <? thr); [|cbn; lia].
  specialize (IH (S j) (acc + next) (S c)). lia.
Qed.

Lemma fps_while_enough (frames : list Z) (thr K : Z) (fuel i : nat)
    (groups : list FpsOut) :
  fps_while frames thr K fuel i = Some groups ->
  Z.of_nat (length frames - i) <= Z.max 1 K * Z.of_nat (length groups).
Proof.
  revert i groups. induction fuel as [|fuel IH]; intros i groups; cbn [fps_while].
  - destruct (frames !! i) eqn:El; [done|]. intros [= <-].
    apply lookup_ge_None in El. cbn [length]. lia.
  - destruct (frames !! i) as [cur|] eqn:El.
    2:{ intros [= <-]. apply lookup_ge_None in El. cbn [length]. lia. }
    destruct (thr <=? cur).
    + destruct (fps_while frames thr K fuel (i + 1)) as [rest|] eqn:Hw; [|done].
      cbn [mbind option_bind]. intros [= <-]. apply IH in Hw. cbn [length]. lia.
    + pose proof (merge_loop_count frames thr i (Z.to_nat (K - 1)) 1 cur 1) as Hc.
      destruct (merge_loop frames thr i (Z.to_nat (K - 1)) 1 cur 1) as [acc n] eqn:Hm.
      cbn [snd] in Hc.
      destruct (fps_while frames thr K fuel (i + n)) as [rest|] eqn:Hw; [|done].
      cbn [mbind option_bind]. intros [= <-]. apply IH in Hw. cbn [length]. lia.
Qed.

(** X16. The frame-rate preview keeps at least one frame of every
    [fpsKeepInterval] input frames: the input has at most
    [max 1 fpsKeepInterval] times as many frames as the preview. *)
Theorem fps_preview_keeps_enough (frames : list Z) (fpsDelayThreshold fpsKeepInterval : Z) :
  exists newDelays,
    fpsNewDelays frames fpsDelayThreshold fpsKeepInterval = Some newDelays /\
    Z.of_nat (length frames)
    <= Z.max 1 fpsKeepInterval * Z.of_nat (length newDelays).
Proof.
  destruct (fps_while_spec frames fpsDelayThreshold fpsKeepInterval (length frames) 0)
    as (groups & Hw & _); [lia|].
  exists (map pushed groups). unfold fpsNewDelays, fpsGroups. rewrite Hw.
  split; [done|]. apply fps_while_enough in Hw.
  rewrite length_map. lia.
Qed.

(** ** Preload cache, continued *)

Lemma preload_onload_length (i : nat) (img : HTMLImageElement) (p : Player) :
  (length (preloadCache (preload_onload i img p)) <= Nat.max 20 (length (preloadCache p)))%nat.
Proof.
  unfold preload_onload.
  pose proof (length_map_set i img (preloadCache p)) as Hs.
  destruct (20 <? length (map_set i img (preloadCache p)))%nat eqn:E.
  - destruct (map_firstKey (map_set i img (preloadCache p))) as [k|] eqn:Ek.
    + apply length_map_delete_first in Ek. cbn [preloadCache]. lia.
    + destruct (map_set i img (preloadCache p)); cbn in *; [lia|done].
  - apply Nat.ltb_ge in E. cbn [preloadCache]. lia.
Qed.

(** X17. Whatever the insertions, the preload cache outgrows its 20
    entries by at most one entry for each insertion made by
    [renderFrame]; the insertions of [preloadFrames] never make it grow
    beyond 20. *)
Theorem cache_size_bound (es : list CacheInsert) (p : Player) :
  (length (preloadCache (run_inserts es p))
   <= Nat.max 20 (length (preloadCache p))
      + length (filter (fun e => isPreload e = false) es))%nat.
Proof.
  revert p. induction es as [|[i img|i img] es IH]; intros p.
  - cbn. lia.
  - cbn [run_inserts fold_left cache_insert]. fold (run_inserts es (preload_onload i img p)).
    rewrite filter_cons_False by (cbn; done).
    specialize (IH (preload_onload i img p)).
    pose proof (preload_onload_length i img p). lia.
  - cbn [run_inserts fold_left cache_insert]. fold (run_inserts es (render_onload i img p)).
    rewrite filter_cons_True by (cbn; done).
    specialize (IH (render_onload i img p)).
    pose proof (length_map_set i img (preloadCache p)).
    cbn [render_onload preloadCache length] in *. lia.
Qed.

Lemma map_has_false (k : nat) (m : ImageMap) :
  map_has k m = false <-> k ∉ map fst m.
Proof.
  induction m as [|[k' v] m IH].
  - split; [intros _; apply not_elem_of_nil|done].
  - unfold map_has, map_get in *. cbn [find fst map].
    destruct (decide (k' = k)) as [->|Hne].
    + rewrite (bool_decide_eq_true_2 (k = k)) by done. cbn.
      split.
      * intros Hf. done.
      * intros Hn. destruct Hn. by left.
    + rewrite (bool_decide_eq_false_2 (k' = k)) by done.
      rewrite IH. rewrite not_elem_of_cons. split; [intros ?; split; [congruence|done]|].
      by intros [_ ?].
Qed.

Lemma unmount_urls (m : ImageMap) :
  map (fun e => img_src (snd e))
    (filter (fun e : nat * HTMLImageElement => isPrefix (js "blob:") (img_src (snd e)) = true) m)
  = blobUrls (map snd m).
Proof.
  unfold blobUrls, isBlob. induction m as [|[k v] m IH]; [done|].
  cbn [map snd].
  destruct (isPrefix (js "blob:") (img_src v)) eqn:E.
  - rewrite !filter_cons_True by done. cbn [map snd]. by rewrite IH.
  - rewrite !filter_cons_False by (cbn [snd]; congruence). done.
Qed.

Lemma blobUrls_app (a b : list HTMLImageElement) :
  blobUrls (a ++ b) = blobUrls a ++ blobUrls b.
Proof. unfold blobUrls. by rewrite filter_app, map_app. Qed.

Lemma blobUrls_cons (img : HTMLImageElement) (l : list HTMLImageElement) :
  blobUrls (img :: l) = (if isBlob img then [img_src img] else []) ++ blobUrls l.
Proof.
  unfold blobUrls. destruct (isBlob img) eqn:E.
  - by rewrite filter_cons_True.
  - rewrite filter_cons_False by congruence. done.
Qed.

(** One insertion at an index the cache does not hold: the URLs revoked
    so far followed by those cached grow by the URL of the new image. *)
Lemma cache_insert_fresh (e : CacheInsert) (p : Player) :
  map_has (insertKey e) (preloadCache p) = false ->
  NoDup (map fst (preloadCache p)) ->
  NoDup (map fst (preloadCache (cache_insert p e))) /\
  revoked (cache_insert p e) ++ blobUrls (map snd (preloadCache (cache_insert p e)))
  = revoked p ++ blobUrls (map snd (preloadCache p)) ++ blobUrls [insertImg e].
Proof.
  intros Hfresh Hnd.
  assert (NoDup (map fst (preloadCache p ++ [(insertKey e, insertImg e)]))) as Hnd'.
  { rewrite map_app. apply NoDup_app. split; [done|]. split.
    - intros k Hk Hk'. cbn in Hk'. apply list_elem_of_singleton in Hk'. subst k.
      by apply map_has_false in Hfresh.
    - cbn. apply NoDup_singleton. }
  destruct e as [i img|i img]; cbn [cache_insert insertKey insertImg] in *.
  - unfold preload_onload. rewrite (map_set_fresh _ _ _ Hfresh).
    destruct (20 <? length (preloadCache p ++ [(i, img)]))%nat eqn:E.
    + destruct (preloadCache p) as [|[k old] m] eqn:Ec; [cbn in E; done|].
      cbn [app map_firstKey head fmap option_fmap option_map fst].
      unfold map_get. cbn [find fst]. rewrite (bool_decide_eq_true_2 (k = k)) by done.
      cbn [fmap option_fmap option_map snd preloadCache revoked].
      cbn [app map fst] in Hnd'. apply NoDup_cons in Hnd' as [Hk Hnd'].
      assert (map_delete k ((k, old) :: m ++ [(i, img)]) = m ++ [(i, img)]) as ->.
      { unfold map_delete. rewrite filter_cons_False by (cbn; auto).
        by apply map_delete_absent. }
      split; [done|].
      cbn [map snd]. rewrite map_app, !blobUrls_app, blobUrls_cons. cbn [map snd].
      fold (isBlob old). destruct (isBlob old); rewrite <- ?app_assoc; done.
    + cbn [preloadCache revoked]. split; [done|].
      by rewrite map_app, blobUrls_app.
  - unfold render_onload. cbn [preloadCache revoked].
    rewrite (map_set_fresh _ _ _ Hfresh). split; [done|].
    by rewrite map_app, blobUrls_app.
Qed.

Lemma run_inserts_fresh (es : list CacheInsert) (p : Player) :
  insertsFresh es p = true ->
  NoDup (map fst (preloadCache p)) ->
  revoked (run_inserts es p) ++ blobUrls (map snd (preloadCache (run_inserts es p)))
  = revoked p ++ blobUrls (map snd (preloadCache p)) ++ blobUrls (map insertImg es).
Proof.
  revert p. induction es as [|e es IH]; intros p Hf Hnd.
  - cbn. by rewrite app_nil_r.
  - cbn [insertsFresh] in Hf. apply andb_true_iff in Hf as [He Hf].
    apply negb_true_iff in He.
    destruct (cache_insert_fresh e p He Hnd) as [Hnd' Hstep].
    cbn [run_inserts fold_left]. fold (run_inserts es (cache_insert p e)).
    rewrite (IH _ Hf Hnd'). rewrite app_assoc, Hstep.
    cbn [map].
    rewrite (blobUrls_cons (insertImg e) (map insertImg es)), (blobUrls_cons (insertImg e) []).
    change (blobUrls []) with (@nil JsString).
    by rewrite app_nil_r, <- !app_assoc.
Qed.

(** X18. When every image is inserted at a frame index that the cache
    does not hold at that moment, no blob URL is revoked twice and none
    is left over: once the player has unmounted, the URLs revoked, by
    eviction and by the cleanup, are exactly the blob URLs of the inserted
    images, each once and in the order of insertion, and the cache is
    empty. *)
Theorem fresh_inserts_revoke_once (es : list CacheInsert) :
  insertsFresh es emptyPlayer = true ->
  revoked (player_unmount (run_inserts es emptyPlayer)) = blobUrls (map insertImg es) /\
  preloadCache (player_unmount (run_inserts es emptyPlayer)) = [].
Proof.
  intros Hf. split; [|done].
  unfold player_unmount. cbn [revoked]. rewrite unmount_urls.
  rewrite (run_inserts_fresh es emptyPlayer Hf); [done|]. cbn. constructor.
Qed.

Lemma fresh_inserts_revoke_once_witness :
  revoked (player_unmount (run_inserts (renders 0 3 ++ preloads 3 22) emptyPlayer))
  = map blobUrl (seq 0 25).
Proof.
  destruct (fresh_inserts_revoke_once (renders 0 3 ++ preloads 3 22)) as [Hr _].
  - vm_compute. reflexivity.
  - rewrite Hr. vm_compute. reflexivity.
Defined.

(** ** Auto-pause, continued *)

Lemma ui_run_ref_sticky (es : list UiEvent) (u : ExtractUi) :
  autoPauseTriggeredRef u = true -> autoPauseTriggeredRef (ui_run es u) = true.
Proof.
  revert u. induction es as [|e es IH]; intros u Hr; [done|].
  cbn [ui_run fold_left]. apply IH. by apply ui_step_ref_sticky.
Qed.

(** X19. Nothing resets the ref that the listener reads: once the
    extraction has been paused automatically, the ref stays set through
    every later event, new jobs included, and no later report pauses
    again; so whatever the events, the listener pauses at most once. *)
Theorem auto_pause_only_once (es : list UiEvent) (u : ExtractUi) :
  (autoPauseCount es u <= 1)%nat /\
  (autoPauseTriggeredRef u = true ->
   autoPauseTriggeredRef (ui_run es u) = true /\ autoPauseCount es u = 0%nat) /\
  (autoPauseCount es u = 1%nat -> autoPauseTriggeredRef (ui_run es u) = true).
Proof.
  split; [apply autoPauseCount_le_1|]. split.
  - intros Hr. split; [by apply ui_run_ref_sticky|by apply autoPauseCount_after_trigger].
  - revert u. induction es as [|e es IH]; intros u; [done|].
    cbn [autoPauseCount ui_run fold_left].
    destruct e as [s c t| |]; [|apply IH|apply IH].
    destruct (autoPauseDue c t u) eqn:Edue; [|apply IH].
    intros _. apply ui_run_ref_sticky.
    cbn. unfold on_extract_progress. by rewrite Edue.
Qed.

Lemma auto_pause_only_once_witness :
  autoPauseTriggeredRef (ui_run job1500 extractUi0) = true /\
  autoPauseCount job1500 (ui_run job1500 extractUi0) = 0%nat.
Proof.
  destruct (auto_pause_only_once job1500 (ui_run job1500 extractUi0)) as (_ & H2 & _).
  split; [reflexivity|]. apply H2. reflexivity.
Defined.

(** ** Binary cache codec and loader, continued *)

Lemma getUint32_app (dv extra : list Z) (off : nat) (v : Z) :
  getUint32 dv off = Ok v -> getUint32 (dv ++ extra) off = Ok v.
Proof.
  unfold getUint32.
  destruct (dv !! off) as [b0|] eqn:E0; [|done].
  destruct (dv !! (off + 1)%nat) as [b1|] eqn:E1; [|done].
  destruct (dv !! (off + 2)%nat) as [b2|] eqn:E2; [|done].
  destruct (dv !! (off + 3)%nat) as [b3|] eqn:E3; [|done].
  intros Hv.
  rewrite !lookup_app_l by (eapply lookup_lt_Some; eassumption).
  by rewrite E0, E1, E2, E3.
Qed.

Lemma getUint32_range (dv : list Z) (off : nat) (v : Z) :
  Forall (fun b => 0 <= b < 256) dv -> getUint32 dv off = Ok v -> isUint32 v.
Proof.
  intros Hb. unfold getUint32.
  destruct (dv !! off) as [b0|] eqn:E0; [|done].
  destruct (dv !! (off + 1)%nat) as [b1|] eqn:E1; [|done].
  destruct (dv !! (off + 2)%nat) as [b2|] eqn:E2; [|done].
  destruct (dv !! (off + 3)%nat) as [b3|] eqn:E3; [|done].
  intros [= <-]. rewrite Forall_lookup in Hb.
  pose proof (Hb _ _ E0). pose proof (Hb _ _ E1).
  pose proof (Hb _ _ E2). pose proof (Hb _ _ E3).
  unfold isUint32.
  change (2 ^ 8) with 256. change (2 ^ 16) with 65536.
  change (2 ^ 24) with 16777216. change (2 ^ 32) with 4294967296. lia.
Qed.

Lemma Uint8Array_from_bytes (bin : list Z) :
  Forall (fun b => 0 <= b < 256) (Uint8Array_from bin).
Proof.
  unfold Uint8Array_from. apply Forall_forall. intros b Hb.
  apply list_elem_of_fmap in Hb as (x & -> & _). apply Z.mod_pos_bound. lia.
Qed.

Lemma parseDelay_loop_ok (dv : list Z) (n i : nat) (ds : list Z) :
  parseDelay_loop dv i n = Ok ds ->
  length ds = n /\
  (Forall (fun b => 0 <= b < 256) dv -> Forall isUint32 ds) /\
  forall extra, parseDelay_loop (dv ++ extra) i n = Ok ds.
Proof.
  revert i ds. induction n as [|n IH]; intros i ds; cbn [parseDelay_loop].
  - intros [= <-]. split; [done|]. split; [constructor|done].
  - destruct (getUint32 dv (4 + i * 4)) as [d|] eqn:Ed; [|done]. cbn [rbind].
    destruct (parseDelay_loop dv (S i) n) as [rest|] eqn:Er; [|done]. cbn [rbind].
    intros [= <-]. destruct (IH _ _ Er) as (Hl & Hr & Hx).
    split; [cbn; lia|]. split.
    + intros Hb. constructor; [by eapply getUint32_range|by apply Hr].
    + intros extra. rewrite (getUint32_app _ _ _ _ Ed). cbn [rbind].
      by rewrite Hx.
Qed.

(** X20. When [_parseDelayBin] succeeds on a byte array it returns as
    many delays as the header announces, each an unsigned 32-bit number,
    and it reads nothing beyond them: bytes that follow the table do not
    change the result. *)
Theorem parseDelayBin_ok (bin : list Z) (delays : list Z) :
  _parseDelayBin (Uint8Array_from bin) = Ok delays ->
  getUint32 (Uint8Array_from bin) 0 = Ok (Z.of_nat (length delays)) /\
  Forall isUint32 delays /\
  forall extra, _parseDelayBin (Uint8Array_from bin ++ extra) = Ok delays.
Proof.
  unfold _parseDelayBin.
  destruct (getUint32 (Uint8Array_from bin) 0) as [count|] eqn:Ec; [|done]. cbn [rbind].
  intros Hloop. destruct (parseDelay_loop_ok _ _ _ _ Hloop) as (Hl & Hr & Hx).
  pose proof (getUint32_range _ _ _ (Uint8Array_from_bytes bin) Ec) as [Hc _].
  split; [f_equal; lia|]. split; [apply Hr, Uint8Array_from_bytes|].
  intros extra. rewrite (getUint32_app _ _ _ _ Ec). cbn [rbind]. apply Hx.
Qed.

Lemma parseDelayBin_ok_witness :
  _parseDelayBin (Uint8Array_from goodDelayBin) = Ok [100; 50] /\
  _parseDelayBin (Uint8Array_from goodDelayBin ++ [7; 7; 7]) = Ok [100; 50].
Proof.
  split; [reflexivity|].
  apply (parseDelayBin_ok goodDelayBin [100; 50]). reflexivity.
Defined.

Lemma new_ImageData_ok (data : list Z) (sw sh : Z) (id : ImageData) :
  new_ImageData data sw sh = Ok id ->
  id = mkImageData data sw sh /\ data <> [] /\ 4 * sw * sh = Z.of_nat (length data).
Proof.
  unfold new_ImageData. cbv zeta.
  set (len := Z.of_nat (length data)).
  destruct ((len =? 0) || negb (len mod 4 =? 0)) eqn:E1; [done|].
  destruct ((sw =? 0) || negb ((len / 4) mod sw =? 0)) eqn:E2; [done|].
  destruct (negb (len / 4 / sw =? sh)) eqn:E3; [done|].
  intros [= <-].
  apply orb_false_iff in E1 as [E1a E1b]. apply orb_false_iff in E2 as [E2a E2b].
  apply negb_false_iff in E1b, E2b, E3.
  apply Z.eqb_neq in E1a, E2a. apply Z.eqb_eq in E1b, E2b, E3.
  split; [done|]. split; [intros ->; by apply E1a|].
  pose proof (Z.div_mod len 4 ltac:(lia)) as H4.
  pose proof (Z.div_mod (len / 4) sw E2a) as Hw.
  rewrite E2b, E3 in Hw. lia.
Qed.

Lemma parsePreview_loop_ok (bytes : list Z) (n i offset : nat)
    (fs : list GifFrame) (ds : list Z) :
  parsePreview_loop bytes n i offset = Ok (fs, ds) ->
  length fs = n /\ ds = map delay fs /\ map index fs = seq i n /\
  Forall previewFrameOk fs.
Proof.
  revert i offset fs ds. induction n as [|n IH]; intros i offset fs ds;
    cbn [parsePreview_loop].
  - intros [= <- <-]. repeat split; constructor.
  - destruct (getUint32 bytes offset) as [d|]; [|done]. cbn [rbind].
    destruct (getUint32 bytes (offset + 4)) as [pw|]; [|done]. cbn [rbind].
    destruct (getUint32 bytes (offset + 8)) as [ph|]; [|done]. cbn [rbind].
    destruct (getUint32 bytes (offset + 12)) as [len|]; [|done]. cbn [rbind]. cbv zeta.
    destruct (new_ImageData (take (Z.to_nat len) (drop (offset + 16) bytes)) pw ph)
      as [id|] eqn:Eid; [|done]. cbn [rbind].
    destruct (parsePreview_loop bytes n (S i) (offset + 16 + Z.to_nat len))
      as [[fs' ds']|] eqn:Er; [|done]. cbn [rbind fst snd].
    intros [= <- <-].
    destruct (IH _ _ _ _ Er) as (Hl & Hd & Hi & Hok).
    apply new_ImageData_ok in Eid as (-> & Hne & Hdim).
    split; [cbn; lia|]. split; [cbn; by rewrite Hd|]. split; [cbn; by rewrite Hi|].
    constructor; [|done]. unfold previewFrameOk. cbn. done.
Qed.

(** X21. When [_parsePreviewBin] succeeds it returns as many frames as
    the header announces, numbered from 0 in order, with the delays listed
    beside them, and the canvas of every frame holds four bytes for each
    of its [width * height] pixels. *)
Theorem parsePreviewBin_ok (bytes : list Z) (pc : PreviewCache) :
  _parsePreviewBin bytes = Ok pc ->
  (exists count, getUint32 bytes 8 = Ok count /\
                 length (pc_frames pc) = Z.to_nat count) /\
  getUint32 bytes 0 = Ok (fst (pc_dims pc)) /\
  getUint32 bytes 4 = Ok (snd (pc_dims pc)) /\
  pc_frameDelays pc = map delay (pc_frames pc) /\
  map index (pc_frames pc) = seq 0 (length (pc_frames pc)) /\
  Forall previewFrameOk (pc_frames pc).
Proof.
  unfold _parsePreviewBin.
  destruct (getUint32 bytes 0) as [w|]; [|done]. cbn [rbind].
  destruct (getUint32 bytes 4) as [h|]; [|done]. cbn [rbind].
  destruct (getUint32 bytes 8) as [count|]; [|done]. cbn [rbind].
  destruct (parsePreview_loop bytes (Z.to_nat count) 0 12) as [[fs ds]|] eqn:El; [|done].
  cbn [rbind fst snd]. intros [= <-]. cbn [pc_frames pc_dims pc_frameDelays fst snd].
  apply parsePreview_loop_ok in El as (Hl & Hd & Hi & Hok).
  split; [by exists count|]. repeat split; try done. by rewrite Hl.
Qed.

Lemma parsePreviewBin_ok_witness :
  exists pc, _parsePreviewBin goodPreviewBin = Ok pc /\
             pc_frameDelays pc = [100] /\ Forall previewFrameOk (pc_frames pc).
Proof.
  assert (_parsePreviewBin goodPreviewBin
          = Ok (mkPreviewCache
                  [mkGifFrame blankImageData 100 0 (mkCanvas 1 1 [255; 0; 0; 255])]
                  (1, 1) [100])) as E by (vm_compute; reflexivity).
  eexists. split; [exact E|]. split; [reflexivity|].
  destruct (parsePreviewBin_ok _ _ E) as (_ & _ & _ & _ & _ & Hok). exact Hok.
Defined.

(** X22. [_tryLoadDiskCaches] changes the global delay cache only when it
    returns a delay table: then the table is cached under the GIF path
    and under the alternative path, if one is given, and every other
    entry is kept; when it returns no delays the cache is as it was. *)
Theorem tryLoad_delay_cache (be : Backend) (gdc : gmap JsString (list Z))
    (workDirPath gifPath : JsString) (altPath : option JsString) (verify : option bool) :
  let r := _tryLoadDiskCaches be gdc workDirPath gifPath altPath verify in
  match loadedDelays (fst r) with
  | Some delays =>
      snd r !! gifPath = Some delays /\
      (forall a, altPath = Some a -> a <> [] -> snd r !! a = Some delays) /\
      (forall k, k <> gifPath -> altPath <> Some k -> snd r !! k = gdc !! k)
  | None => snd r = gdc
  end.
Proof.
  cbv zeta. unfold _tryLoadDiskCaches, tryLoad_body. cbv zeta.
  repeat match goal with
         | |- context [rbind ?m _] =>
             let E := fresh "E" in destruct m as [?|?] eqn:E; cbn [rbind fst snd loadedDelays]
         end; try done.
  match goal with
  | |- match ?o with _ => _ end => destruct o as [delays|]
  end; [|done].
  unfold cacheDelays.
  destruct altPath as [[|altHead altTail]|].
  - split; [by rewrite lookup_insert_eq|]. split; [by intros ? [= <-]|].
    intros k Hk _. by rewrite lookup_insert_ne.
  - split.
    + destruct (decide (altHead :: altTail = gifPath)) as [<-|Hne].
      * by rewrite lookup_insert_eq.
      * rewrite lookup_insert_ne by done. by rewrite lookup_insert_eq.
    + split.
      * intros ? [= <-] _. by rewrite lookup_insert_eq.
      * intros k Hk Ha. rewrite !lookup_insert_ne; [done|congruence|congruence].
  - split; [by rewrite lookup_insert_eq|]. split; [done|].
    intros k Hk _. by rewrite lookup_insert_ne.
Qed.

Lemma tryLoad_delay_cache_witness :
  snd (_tryLoadDiskCaches (fsBackend (catFiles goodPreviewBin goodDelayBin true)) ∅
         (js "/w") (js "/g/cat.gif") (Some (js "/alt/cat.gif")) None)
    !! js "/alt/cat.gif" = Some [100; 50].
Proof.
  pose proof (tryLoad_delay_cache (fsBackend (catFiles goodPreviewBin goodDelayBin true)) ∅
                (js "/w") (js "/g/cat.gif") (Some (js "/alt/cat.gif")) None) as Hc.
  cbv zeta in Hc.
  assert (loadedDelays
            (fst (_tryLoadDiskCaches (fsBackend (catFiles goodPreviewBin goodDelayBin true)) ∅
                    (js "/w") (js "/g/cat.gif") (Some (js "/alt/cat.gif")) None))
          = Some [100; 50]) as Hd by (vm_compute; reflexivity).
  rewrite Hd in Hc. destruct Hc as (_ & Halt & _).
  apply Halt; [reflexivity|discriminate].
Defined.

(** ** Workspace restore, continued *)

Section RestoreFilter.
Context `{StringOps}.

(** X23. Whatever the persisted order, the restore loads only entries of
    the directory that are files, not folders, whose name ends in [.gif]
    in any letter case and does not contain [_temp_]. *)
Theorem restore_loads_only_gifs (entries : list FileEntry) (fileOrder : list JsString)
    (e : FileEntry) :
  e ∈ restoreOrder entries fileOrder ->
  e ∈ entries /\ fe_isDir e = false /\ fe_name e <> [] /\
  endsWith (toLowerCase (fe_name e)) (js ".gif") = true /\
  includes (fe_name e) (js "_temp_") = false.
Proof.
  unfold restoreOrder. rewrite stableSort_perm. intros He.
  assert (e ∈ gifEntriesOf entries) as Hin.
  { unfold selectEntries in He. destruct fileOrder as [|n rest].
    - by apply list_elem_of_filter in He as [_ He].
    - apply list_elem_of_omap in He as (n' & _ & Hm).
      by apply matchEntryByName_Some in Hm as [Hin _]. }
  unfold gifEntriesOf in Hin. apply list_elem_of_filter in Hin as [Hp Hin].
  apply andb_true_iff in Hp as [Hp Htemp]. apply andb_true_iff in Hp as [Hp Hdir].
  apply andb_true_iff in Hp as [Hname Hgif].
  apply negb_true_iff in Htemp, Hdir, Hname. apply bool_decide_eq_false in Hname.
  done.
Qed.
End RestoreFilter.

Lemma restore_loads_only_gifs_witness :
  gifFile "b.gif" ∈ [gifFile "a_temp_1.gif"; gifFile "b.gif"; gifFile "notes.txt"] /\
  includes (js "b.gif") (js "_temp_") = false.
Proof.
  destruct (@restore_loads_only_gifs asciiOps
              [gifFile "a_temp_1.gif"; gifFile "b.gif"; gifFile "notes.txt"] []
              (gifFile "b.gif")) as (Hin & _ & _ & _ & Htemp).
  - vm_compute. apply list_elem_of_In. cbn. by left.
  - split; [exact Hin|exact Htemp].
Defined.

(** ** Version selection, continued *)



Lemma error_setState (f : App -> App) (s : Session) :
  keepsError f -> error (s_app (setState f s)) = error (s_app s).
Proof. intros Hf. apply Hf. Qed.

Lemma error_set (x : option JsString) (s : Session) :
  error (s_app (setState (set_error x) s)) = x.
Proof. reflexivity. Qed.

Lemma error_invoke (c : BackendCmd) (s : Session) :
  error (s_app (invoke c s)) = error (s_app s).
Proof. reflexivity. Qed.

Lemma loading_setState (f : App -> App) (s : Session) :
  keepsLoading f -> isLoadingGif (s_app (setState f s)) = isLoadingGif (s_app s).
Proof. intros Hf. apply Hf. Qed.

Lemma loading_set (x : bool) (s : Session) :
  isLoadingGif (s_app (setState (set_isLoadingGif x) s)) = x.
Proof. reflexivity. Qed.

Lemma loading_invoke (c : BackendCmd) (s : Session) :
  isLoadingGif (s_app (invoke c s)) = isLoadingGif (s_app s).
Proof. reflexivity. Qed.

Ltac peel_error :=
  repeat first
    [ rewrite error_set
    | rewrite error_invoke
    | rewrite error_setState by keeps ].

Ltac peel_loading :=
  repeat first
    [ rewrite loading_set
    | rewrite loading_invoke
    | rewrite loading_setState by keeps ].

Ltac no_extract :=
  let d := fresh "d" in
  intros d; split; rewrite ?elem_of_cons, ?elem_of_nil; naive_solver.

Lemma selectFailed_loading (previousVersionId : JsString) (s : Session) :
  isLoadingGif (s_app (selectFailed previousVersionId s)) = false.
Proof. unfold selectFailed. by peel_loading. Qed.

(** [runExtract] ends without an error, or it has only asked for the
    metadata and has restored the previous version; either way the
    loading flag is off. *)
Lemma runExtract_outcome (env : SelectEnv) (wd destPath : JsString)
    (selectedVersion : VersionItem) (versionId previousVersionId : JsString)
    (s : Session) :
  error (s_app s) = None ->
  isLoadingGif
    (s_app (runExtract env wd destPath selectedVersion versionId previousVersionId s))
  = false /\
  (error (s_app (runExtract env wd destPath selectedVersion versionId previousVersionId s))
   = None \/
   currentVersionId
     (s_app (runExtract env wd destPath selectedVersion versionId previousVersionId s))
   = previousVersionId /\
   logOf (runExtract env wd destPath selectedVersion versionId previousVersionId s)
   = logOf s ++ [parse_gif_preview destPath]).
Proof.
  intros Herr. unfold runExtract.
  destruct (env_parse_gif_preview env destPath) as [meta|]; cbv beta iota zeta.
  - destruct (env_resume_extraction env); (split; [by peel_loading|]);
      left; by peel_error.
  - rewrite selectFailed_loading, selectFailed_version, selectFailed_log.
    split; [done|]. right. split; [done|]. by peel_log.
Qed.

(** X25. When a call of [handleSelectVersion] leaves an error on the
    screen, the current version is the one from before the call and the
    call has started no extraction job. *)
Theorem select_error_keeps_version (env : SelectEnv) (versionId : JsString)
    (force : bool) (s : Session) :
  error (s_app (handleSelectVersion env versionId force s)) <> None ->
  currentVersionId (s_app (handleSelectVersion env versionId force s))
  = currentVersionId (s_app s) /\
  exists rest,
    logOf (handleSelectVersion env versionId force s) = logOf s ++ rest /\
    forall d, (extract_fullframes_background d ∉ rest) /\
              (extract_previews_background d ∉ rest).
Proof.
  unfold handleSelectVersion.
  destruct (strEqb versionId (currentVersionId (s_app s)) && negb force).
  { intros _. split; [done|]. exists []. split; [by rewrite app_nil_r|no_extract]. }
  destruct (env_cancel_extraction env), (env_init_work_dir env).
  all: repeat (cbv beta iota zeta; case_match).
  all: simplify_eq.
  all: rewrite ?selectFailed_log, ?selectFailed_version.
  all: try match goal with
       | |- context [runExtract ?e ?w ?d ?v ?i ?p ?s0] =>
           let Hout := fresh "Hout" in
           assert (error (s_app s0) = None) as Hout by (by peel_error);
           apply (runExtract_outcome e w d v i p s0) in Hout as [_ [Hout|[Hv Hlog]]];
           [intros Herr; by destruct Herr|];
           rewrite Hv, Hlog
       end.
  all: intros _; peel_log; peel_version; (split; [done|]).
  all: rewrite <- ?app_assoc; cbn [app]; eexists; (split; [reflexivity|]).
  all: no_extract.
Qed.

Lemma select_error_keeps_version_witness :
  let env := mkSelectEnv (Ok tt) (Ok (js "/w")) (fun p => Ok p)
               (fun _ => Throw InvokeError) (fun _ => Ok 0) (Ok tt) (fsBackend ∅) in
  error (s_app (handleSelectVersion env (js "v2") false sessionOnV1))
  = Some (js "loadVersionError") /\
  currentVersionId (s_app (handleSelectVersion env (js "v2") false sessionOnV1)) = js "v1".
Proof.
  cbv zeta. split; [reflexivity|].
  apply (select_error_keeps_version
           (mkSelectEnv (Ok tt) (Ok (js "/w")) (fun p => Ok p)
              (fun _ => Throw InvokeError) (fun _ => Ok 0) (Ok tt) (fsBackend ∅))
           (js "v2") false sessionOnV1).
  vm_compute. discriminate.
Defined.

(** X26. [handleSelectVersion] never leaves the loading flag on: if the
    application is not loading a GIF before the call, it is not loading
    one after it, whether the selection went through, failed or was
    abandoned. *)
Theorem select_leaves_not_loading (env : SelectEnv) (versionId : JsString)
    (force : bool) (s : Session) :
  isLoadingGif (s_app s) = false ->
  isLoadingGif (s_app (handleSelectVersion env versionId force s)) = false.
Proof.
  intros Hl. unfold handleSelectVersion.
  destruct (strEqb versionId (currentVersionId (s_app s)) && negb force); [done|].
  destruct (env_cancel_extraction env), (env_init_work_dir env).
  all: repeat (cbv beta iota zeta; case_match).
  all: simplify_eq.
  all: rewrite ?selectFailed_loading.
  all: try match goal with
       | |- context [runExtract ?e ?w ?d ?v ?i ?p ?s0] =>
           let Hout := fresh "Hout" in
           assert (error (s_app s0) = None) as Hout by (by peel_error);
           apply (runExtract_outcome e w d v i p s0) in Hout as [Hout _];
           exact Hout
       end.
  all: by peel_loading.
Qed.

Lemma select_leaves_not_loading_witness :
  isLoadingGif (s_app (handleSelectVersion backendOk (js "v2") false sessionOnV1)) = false.
Proof.
  apply (select_leaves_not_loading backendOk (js "v2") false sessionOnV1). reflexivity.
Defined.

(** ** Preloading as interleaved tasks *)

Lemma preload_advance_spec (steps n start i : nat) (p : Player) :
  preloadCache (snd (preload_advance steps n start i p)) = preloadCache p /\
  revoked (snd (preload_advance steps n start i p)) = revoked p /\
  match fst (preload_advance steps n start i p) with
  | Some (_, f) =>
      (f ∉ preloading p) /\
      preloading (snd (preload_advance steps n start i p)) = preloading p ++ [f]
  | None => preloading (snd (preload_advance steps n start i p)) = preloading p
  end.
Proof.
  revert i. induction steps as [|steps IH]; intros i; cbn [preload_advance]; [done|].
  cbv zeta.
  destruct (map_has ((start + i) mod n) (preloadCache p)); cbn [orb]; [apply IH|].
  destruct (decide (((start + i) mod n)%nat ∈ preloading p)) as [Hin|Hin].
  - rewrite bool_decide_eq_true_2 by done. apply IH.
  - rewrite bool_decide_eq_false_2 by done. cbn [fst snd preloadCache revoked preloading].
    split; [done|]. split; [done|]. split; [done|].
    unfold set_add. by rewrite bool_decide_eq_false_2.
Qed.

Lemma preload_resume_spec (t : PreloadTask) (i : nat) (p : Player) :
  preloadCache (snd (preload_resume t i p)) = preloadCache p /\
  revoked (snd (preload_resume t i p)) = revoked p /\
  preloading (snd (preload_resume t i p))
  = preloading p ++ option_list (t_frameIdx (fst (preload_resume t i p))) /\
  forall f, t_frameIdx (fst (preload_resume t i p)) = Some f -> f ∉ preloading p.
Proof.
  unfold preload_resume.
  pose proof (preload_advance_spec (t_count t - i) (t_framesLength t) (t_startFrame t) i p)
    as (Hc & Hr & Hp).
  destruct (fst (preload_advance (t_count t - i) (t_framesLength t) (t_startFrame t) i p))
    as [[i' f]|]; cbn [fst snd t_frameIdx option_list].
  - destruct Hp as [Hf Hp]. repeat split; try done. by intros ? [= <-].
  - rewrite app_nil_r. repeat split; done.
Qed.

Lemma preload_settle_spec (o : LoadOutcome) (f : nat) (p : Player) :
  preloading (preload_settle o f p) = set_delete f (preloading p) /\
  (length (preloadCache (preload_settle o f p))
   <= Nat.max 20 (length (preloadCache p)))%nat.
Proof.
  unfold preload_settle. destruct o as [|img|url]; cbn [preloading preloadCache].
  - split; [done|lia].
  - split; [|apply preload_onload_length].
    unfold preload_onload.
    destruct (20 <? length (map_set f img (preloadCache p)))%nat; [|done].
    destruct (map_firstKey (map_set f img (preloadCache p))); reflexivity.
  - split; [done|lia].
Qed.

Lemma set_delete_perm (f : nat) (s a b : list nat) :
  s ≡ₚ a ++ f :: b -> NoDup s -> set_delete f s ≡ₚ a ++ b.
Proof.
  intros Hp Hnd. unfold set_delete. rewrite Hp in Hnd |- *.
  rewrite filter_app, filter_cons_False by (intros Hc; by apply Hc).
  apply NoDup_app in Hnd as (Ha & Hab & Hb). apply NoDup_cons in Hb as [Hfb Hb].
  assert (filter (fun x => x <> f) a = a) as ->.
  { clear -Hab. induction a as [|x a IH]; [done|].
    rewrite filter_cons_True.
    - f_equal. apply IH. intros y Hy. apply Hab. by right.
    - intros ->. apply (Hab f); [by left|by left]. }
  assert (filter (fun x => x <> f) b = b) as ->; [|done].
  clear -Hfb. induction b as [|x b IH]; [done|].
  apply not_elem_of_cons in Hfb as [Hne Hfb].
  rewrite filter_cons_True by congruence. f_equal. by apply IH.
Qed.

Lemma pendingOf_middle (l1 l2 : list PreloadTask) (t : PreloadTask) :
  pendingOf (l1 ++ t :: l2)
  = pendingOf l1 ++ option_list (t_frameIdx t) ++ pendingOf l2.
Proof.
  unfold pendingOf. rewrite omap_app. f_equal.
  change (omap t_frameIdx (t :: l2))
    with (match t_frameIdx t with
          | Some f => f :: omap t_frameIdx l2
          | None => omap t_frameIdx l2
          end).
  by destruct (t_frameIdx t).
Qed.

Lemma preload_step_exact (st : PlayerTasks) (e : PreloadEvent) :
  pendingExact st -> pendingExact (preload_step st e).
Proof.
  intros [Hperm Hnd]. unfold pendingExact. destruct e as [n start count|k o|c img].
  - cbn [preload_step]. cbv zeta. cbn [pt_player pt_tasks].
    destruct (preload_resume_spec (mkTask n start count 0 None) 0 (pt_player st))
      as (_ & _ & Hp & Hfresh).
    rewrite Hp, pendingOf_middle. change (pendingOf []) with (@nil nat).
    rewrite app_nil_r.
    destruct (t_frameIdx (fst (preload_resume (mkTask n start count 0 None) 0 (pt_player st))))
      as [f|]; cbn [option_list].
    + split; [by rewrite Hperm|].
      apply NoDup_app. split; [done|]. split; [|apply NoDup_singleton].
      intros x Hx Hx'. apply list_elem_of_singleton in Hx'. subst x.
      by apply (Hfresh f).
    + rewrite !app_nil_r. done.
  - cbn [preload_step].
    destruct (pt_tasks st !! k) as [t|] eqn:Et; [|done].
    destruct (t_frameIdx t) as [f|] eqn:Ef; [|done].
    cbv zeta. cbn [pt_player pt_tasks].
    destruct (preload_settle_spec o f (pt_player st)) as [Hs _].
    destruct (preload_resume_spec t (S (t_i t)) (preload_settle o f (pt_player st)))
      as (_ & _ & Hp & Hfresh).
    rewrite Hp, Hs. rewrite Hs in Hfresh.
    pose proof (lookup_lt_Some _ _ _ Et) as Hk.
    assert (pendingOf (pt_tasks st)
            = pendingOf (take k (pt_tasks st)) ++ f :: pendingOf (drop (S k) (pt_tasks st)))
      as Hsplit.
    { rewrite <- (take_drop_middle _ _ _ Et) at 1.
      rewrite pendingOf_middle. by rewrite Ef. }
    assert (set_delete f (preloading (pt_player st))
            ≡ₚ pendingOf (take k (pt_tasks st)) ++ pendingOf (drop (S k) (pt_tasks st)))
      as Hdel.
    { apply set_delete_perm; [|done]. by rewrite Hperm, Hsplit. }
    assert (NoDup (set_delete f (preloading (pt_player st)))) as Hnd'
      by (by apply NoDup_filter).
    rewrite insert_take_drop by done. rewrite pendingOf_middle.
    destruct (t_frameIdx (fst (preload_resume t (S (t_i t))
                                 (preload_settle o f (pt_player st))))) as [f'|];
      cbn [option_list app].
    + split.
      * rewrite Hdel. rewrite <- app_assoc. apply Permutation_app_head.
        symmetry. apply Permutation_cons_append.
      * apply NoDup_app. split; [done|]. split; [|apply NoDup_singleton].
        intros x Hx Hx'. apply list_elem_of_singleton in Hx'. subst x.
        by apply (Hfresh f').
    + rewrite app_nil_r. done.
  - done.
Qed.

Lemma preload_step_size (st : PlayerTasks) (e : PreloadEvent) :
  (length (preloadCache (pt_player (preload_step st e)))
   <= Nat.max 20 (length (preloadCache (pt_player st)))
      + (if isRenderLoaded e then 1 else 0))%nat.
Proof.
  destruct e as [n start count|k o|c img]; cbn [preload_step isRenderLoaded].
  - cbv zeta. cbn [pt_player].
    destruct (preload_resume_spec (mkTask n start count 0 None) 0 (pt_player st))
      as (-> & _). lia.
  - destruct (pt_tasks st !! k) as [t|]; [|lia].
    destruct (t_frameIdx t) as [f|]; [|lia].
    cbv zeta. cbn [pt_player].
    destruct (preload_resume_spec t (S (t_i t)) (preload_settle o f (pt_player st)))
      as (-> & _).
    destruct (preload_settle_spec o f (pt_player st)) as [_ Hl]. lia.
  - cbn [pt_player render_onload preloadCache].
    pose proof (length_map_set c img (preloadCache (pt_player st))). lia.
Qed.

(** X27. However calls of [preloadFrames], the ends of their loads and
    the insertions of [renderFrame] interleave, the set in
    [preloadingRef] holds exactly the frames whose load is in flight, each
    once: no frame is loaded by two calls at a time, and when every call
    has returned the set is empty. The cache holds at most 20 images plus
    one for each insertion of [renderFrame]. *)
Theorem preload_pending_exact (es : list PreloadEvent) :
  let st := preload_run es (mkPlayerTasks emptyPlayer []) in
  preloading (pt_player st) ≡ₚ pendingOf (pt_tasks st) /\
  NoDup (pendingOf (pt_tasks st)) /\
  (Forall (fun t => t_frameIdx t = None) (pt_tasks st) -> preloading (pt_player st) = []) /\
  (length (preloadCache (pt_player st))
   <= 20 + length (filter (fun e => isRenderLoaded e = true) es))%nat.
Proof.
  cbv zeta.
  assert (forall st0,
            pendingExact st0 ->
            pendingExact (preload_run es st0) /\
            (length (preloadCache (pt_player (preload_run es st0)))
             <= Nat.max 20 (length (preloadCache (pt_player st0)))
                + length (filter (fun e => isRenderLoaded e = true) es))%nat) as Hrun.
  { induction es as [|e es IH]; intros st0 Hst0.
    - split; [done|]. cbn. lia.
    - cbn [preload_run fold_left]. fold (preload_run es (preload_step st0 e)).
      destruct (IH (preload_step st0 e)) as [Hex Hsz]; [by apply preload_step_exact|].
      split; [done|].
      pose proof (preload_step_size st0 e) as Hstep.
      destruct (isRenderLoaded e) eqn:Er.
      + rewrite filter_cons_True by done. cbn [length]. lia.
      + rewrite filter_cons_False by congruence. lia. }
  destruct (Hrun (mkPlayerTasks emptyPlayer [])) as [[Hperm Hnd] Hsz].
  { split; [done|]. cbn. constructor. }
  split; [done|]. split; [by rewrite <- Hperm|]. split; [|exact Hsz].
  intros Hnone. apply Permutation_nil_r. rewrite Hperm.
  clear -Hnone.
  induction Hnone as [|t ts Ht _ IH]; [done|].
  change (t :: ts) with ([] ++ t :: ts). rewrite pendingOf_middle, Ht. exact IH.
Qed.

Lemma preload_pending_exact_witness :
  let es := [CallPreload 30 0 2; CallPreload 30 0 3;
             Settle 0 (ImageLoaded (frameImage 0)); Settle 1 FileMissing;
             Settle 0 (ImageBroken (blobUrl 9)); Settle 1 (ImageLoaded (frameImage 2))] in
  map fst (preloadCache (pt_player (preload_run es (mkPlayerTasks emptyPlayer []))))
  = [0; 2]%nat /\
  preloading (pt_player (preload_run es (mkPlayerTasks emptyPlayer []))) = [].
Proof.
  cbv zeta. split; [reflexivity|].
  destruct (preload_pending_exact
              [CallPreload 30 0 2; CallPreload 30 0 3;
               Settle 0 (ImageLoaded (frameImage 0)); Settle 1 FileMissing;
               Settle 0 (ImageBroken (blobUrl 9)); Settle 1 (ImageLoaded (frameImage 2))])
    as (_ & _ & Hquiet & _).
  apply Hquiet. vm_compute. repeat constructor.
Defined.

(** ** Names of slices *)

Lemma sliceCandidate_inj (baseName suffix : JsString) (a b : N) :
  sliceCandidate baseName suffix a = sliceCandidate baseName suffix b -> a = b.
Proof.
  unfold sliceCandidate, sliceCounterName.
  destruct (a =? 0)%N eqn:Ea; destruct (b =? 0)%N eqn:Eb;
    [apply N.eqb_eq in Ea, Eb; congruence| | |]; intros Heq;
    do 2 apply app_inv_head in Heq.
  - discriminate.
  - discriminate.
  - apply app_inv_head, app_inv_tail in Heq. by apply decimal_inj.
Qed.

Lemma sliceName_loop_candidates (baseName suffix : JsString) (taken : list JsString)
    (fuel : nat) (k : N) :
  sliceName_loop baseName suffix taken fuel (sliceCandidate baseName suffix k) (k + 1)
  = sliceCandidate baseName suffix <$>
      freshCounter (sliceCandidate baseName suffix) taken fuel k.
Proof.
  revert k. induction fuel as [|fuel IH]; intros k; cbn [sliceName_loop freshCounter].
  - by destruct (bool_decide (sliceCandidate baseName suffix k ∈ taken)).
  - destruct (bool_decide (sliceCandidate baseName suffix k ∈ taken)); [|done].
    rewrite <- IH.
    assert (sliceCounterName baseName suffix (k + 1)
            = sliceCandidate baseName suffix (k + 1)) as ->; [|done].
    unfold sliceCandidate.
    by replace (k + 1 =? 0)%N with false by (symmetry; apply N.eqb_neq; lia).
Qed.

Lemma sliceName_fresh (baseName suffix : JsString) (taken : list JsString) :
  exists name,
    sliceName_loop baseName suffix taken (length taken) (baseName ++ suffix ++ js ".gif") 1
    = Some name /\ (name ∉ taken).
Proof.
  pose proof (sliceName_loop_candidates baseName suffix taken (length taken) 0) as Hc.
  change (sliceCandidate baseName suffix 0) with (baseName ++ suffix ++ js ".gif") in Hc.
  change (0 + 1)%N with 1%N in Hc. rewrite Hc.
  destruct (freshCounter_Some (sliceCandidate baseName suffix)
              (sliceCandidate_inj baseName suffix) taken (length taken) 0) as [r Hr]; [lia|].
  rewrite Hr. eexists. split; [done|].
  by apply freshCounter_spec in Hr as (_ & Hfresh & _).
Qed.

Lemma sliceNames_spec (versionNames : list JsString) (baseName : JsString)
    (slicesLength todo i : nat) (created : list JsString) :
  NoDup created ->
  Forall (fun n => n ∉ versionNames) created ->
  exists names,
    sliceNames versionNames baseName slicesLength todo i created = Some names /\
    length names = (length created + todo)%nat /\
    NoDup names /\ Forall (fun n => n ∉ versionNames) names.
Proof.
  revert i created. induction todo as [|todo IH]; intros i created Hnd Hout.
  - exists created. cbn [sliceNames]. split; [done|]. split; [lia|]. done.
  - cbn [sliceNames]. cbv zeta.
    destruct (sliceName_fresh baseName (sliceSuffix slicesLength i) (versionNames ++ created))
      as (name & -> & Hfresh).
    cbn [mbind option_bind].
    apply not_elem_of_app in Hfresh as [Hv Hc].
    destruct (IH (S i) (created ++ [name])) as (names & Hrun & Hlen & Hnd' & Hout').
    { apply NoDup_app. split; [done|]. split; [|apply NoDup_singleton].
      intros x Hx Hx'. apply list_elem_of_singleton in Hx'. by subst x. }
    { apply Forall_app. split; [done|]. by repeat constructor. }
    exists names. split; [done|]. rewrite length_app in Hlen. cbn [length] in Hlen.
    split; [lia|]. done.
Qed.

(** X28. The names that [handleSliceSave] gives the slices of one cut:
    each naming loop terminates, there is one name for each slice, the
    names differ from one another and none is the name of a version that
    exists already. *)
Theorem sliceFileNames_distinct (versions : list VersionItem) (currentName : JsString)
    (slicesLength : nat) :
  exists names,
    sliceFileNames versions currentName slicesLength = Some names /\
    length names = slicesLength /\
    NoDup names /\
    Forall (fun n => n ∉ map v_name versions) names.
Proof.
  unfold sliceFileNames.
  destruct (sliceNames_spec (map v_name versions) (stripGif currentName)
              slicesLength slicesLength 0 [])
    as (names & Hrun & Hlen & Hnd & Hout); [constructor|constructor|].
  exists names. done.
Qed.

(** ** Thumbnails of the timeline *)

(** X29. With a range that starts at 0 or later, the timeline renders at
    most 49 thumbnails; each carries the index of the frame it shows, which
    lies in the range and within 24 frames of the current one; and the
    current frame, when it is in the range, is among them. *)
Theorem timeline_window (frames : list GifFrame) (currentFrame rangeStart rangeEnd : Z) :
  0 <= rangeStart -> -1 <= rangeEnd ->
  let safe := safeCurrentFrame (Z.of_nat (length frames)) currentFrame in
  let thumbs := timelineThumbnails frames currentFrame rangeStart rangeEnd in
  (length thumbs <= 49)%nat /\
  Forall (fun x => rangeStart <= fst x <= rangeEnd /\ Z.abs (fst x - safe) <= 24 /\
                   frames !! Z.to_nat (fst x) = Some (snd x)) thumbs /\
  (frames <> [] -> rangeStart <= safe <= rangeEnd ->
   exists frame, frames !! Z.to_nat safe = Some frame /\ (safe, frame) ∈ thumbs).
Proof.
  intros Hs He. cbv zeta. unfold timelineThumbnails. cbv zeta.
  change (48 / 2) with 24.
  set (n := Z.of_nat (length frames)).
  set (safe := safeCurrentFrame n currentFrame).
  assert (0 <= safe) as Hsafe0 by (unfold safe, safeCurrentFrame; lia).
  set (vStart := Z.max rangeStart (safe - 24)).
  set (vEnd := Z.min rangeEnd (safe + 24)).
  unfold jsSlice. fold n.
  replace (vStart <? 0) with false by (symmetry; apply Z.ltb_ge; lia).
  replace (vEnd + 1 <? 0) with false by (symmetry; apply Z.ltb_ge; lia).
  set (from := Z.min vStart n). set (to := Z.min (vEnd + 1) n).
  assert (0 <= n) as Hn by lia.
  split; [|split].
  - rewrite length_imap, length_take. lia.
  - apply Forall_lookup. intros k [idx frame] Hk.
    rewrite list_lookup_imap in Hk.
    destruct (take (Z.to_nat (to - from)) (drop (Z.to_nat from) frames) !! k)
      as [f|] eqn:Hf; [|done].
    cbn in Hk. injection Hk as <- <-. cbn [fst snd].
    pose proof (lookup_lt_Some _ _ _ Hf) as Hlt. rewrite length_take in Hlt.
    rewrite lookup_take_lt, lookup_drop in Hf by lia.
    pose proof (lookup_lt_Some _ _ _ Hf) as Hlt'.
    assert (from = vStart) as Hfrom by lia.
    split; [lia|]. split; [lia|].
    rewrite <- Hf. f_equal. lia.
  - intros Hne [Hr1 Hr2].
    assert (0 < n) as Hpos by (unfold n; destruct frames; [done|cbn; lia]).
    assert (safe < n) as Hsafe by (unfold safe, safeCurrentFrame; lia).
    destruct (lookup_lt_is_Some_2 frames (Z.to_nat safe) ltac:(lia)) as [frame Hframe].
    exists frame. split; [done|].
    apply list_elem_of_lookup. exists (Z.to_nat (safe - vStart)).
    rewrite list_lookup_imap, lookup_take_lt, lookup_drop by lia.
    replace (Z.to_nat from + Z.to_nat (safe - vStart))%nat with (Z.to_nat safe) by lia.
    rewrite Hframe. cbn. do 2 f_equal. lia.
Qed.

Lemma timeline_window_witness :
  map fst (timelineThumbnails (framesOf (repeat 100 60)) 30 0 59)
  = map Z.of_nat (seq 6 49) /\
  exists frame, (30, frame) ∈ timelineThumbnails (framesOf (repeat 100 60)) 30 0 59.
Proof.
  split; [vm_compute; reflexivity|].
  destruct (timeline_window (framesOf (repeat 100 60)) 30 0 59) as (_ & _ & Hcur);
    [lia|lia|].
  destruct Hcur as (frame & _ & Hin); [done|vm_compute; split; discriminate|].
  by exists frame.
Defined.

(** ** Saving a workspace and restoring it *)

Lemma savedFileName_safe (name : JsString) :
  sanitize (savedFileName name) = savedFileName name /\ savedFileName name <> [].
Proof.
  unfold savedFileName. split; [apply sanitize_idem|].
  destruct (endsWith name (js ".gif")) eqn:E.
  - destruct name; [done|]. done.
  - destruct name; done.
Qed.

Lemma savedVersionsOrder_safe (versions : list VersionItem) (copied : VersionItem -> bool)
    (n : JsString) :
  n ∈ savedVersionsOrder versions copied -> sanitize n = n /\ n <> [].
Proof.
  unfold savedVersionsOrder. intros Hn.
  apply list_elem_of_fmap in Hn as (v & -> & _). apply savedFileName_safe.
Qed.

Lemma NoDup_fmap_eq {A B} (g : A -> B) (l : list A) (x y : A) :
  NoDup (map g l) -> x ∈ l -> y ∈ l -> g x = g y -> x = y.
Proof.
  induction l as [|a l IH]; [intros _ Hx; by apply elem_of_nil in Hx|].
  cbn [map]. intros Hnd Hx Hy Heq. apply NoDup_cons in Hnd as [Ha Hnd].
  apply elem_of_cons in Hx as [->|Hx]; apply elem_of_cons in Hy as [->|Hy].
  - done.
  - destruct Ha. rewrite Heq. by apply (list_elem_of_fmap_2 g).
  - destruct Ha. rewrite <- Heq. by apply (list_elem_of_fmap_2 g).
  - by apply IH.
Qed.

Lemma NoDup_of_fmap {A B} (g : A -> B) (l : list A) : NoDup (map g l) -> NoDup l.
Proof.
  induction l as [|a l IH]; [constructor|]. cbn [map]. intros Hnd.
  apply NoDup_cons in Hnd as [Ha Hnd]. apply NoDup_cons. split; [|by apply IH].
  intros Hin. apply Ha. by apply (list_elem_of_fmap_2 g).
Qed.

(** In a list whose images under [g] are distinct, at most one element
    satisfies a predicate that fixes the image. *)
Lemma filter_NoDup_le_1 {A B} (g : A -> B) (p : A -> bool) (b : B) (l : list A) :
  NoDup (map g l) ->
  (forall x, x ∈ l -> p x = true -> g x = b) ->
  (length (filter (fun x => p x = true) l) <= 1)%nat.
Proof.
  induction l as [|a l IH]; [intros; cbn; lia|]. cbn [map]. intros Hnd Hp.
  apply NoDup_cons in Hnd as [Ha Hnd].
  assert (Hrest : forall x, x ∈ l -> p x = true -> g x = b)
    by (intros x Hx; apply Hp; by right).
  destruct (p a) eqn:Ea.
  - rewrite filter_cons_True by done. cbn [length].
    assert (filter (fun x => p x = true) l = []) as ->; [|cbn; lia].
    destruct (filter (fun x => p x = true) l) as [|y rest] eqn:Ef; [done|]. exfalso.
    assert (y ∈ filter (fun x => p x = true) l) as Hy by (rewrite Ef; by left).
    apply list_elem_of_filter in Hy as [Hpy Hy].
    apply Ha. rewrite (Hp a (ltac:(by left)) Ea), <- (Hrest y Hy Hpy).
    by apply (list_elem_of_fmap_2 g).
  - rewrite filter_cons_False by congruence. by apply IH.
Qed.

(** The restore selects the files that the names of the order resolve
    to, and the sort keeps them in place, when the names are well formed
    and no file is designated by two of them. *)
Lemma restoreOrder_resolved `{StringOps} (entries : list FileEntry)
    (fileOrder : list JsString) :
  (fileOrder = [] -> gifEntriesOf entries = []) ->
  Forall wellFormedName fileOrder ->
  unambiguous (gifEntriesOf entries) fileOrder ->
  restoreOrder entries fileOrder
  = omap (matchEntryByName (gifEntriesOf entries)) fileOrder.
Proof.
  intros Hempty Hwf [_ Hfiles]. unfold restoreOrder. cbv zeta.
  assert (selectEntries (gifEntriesOf entries) fileOrder
          = omap (matchEntryByName (gifEntriesOf entries)) fileOrder) as ->.
  { unfold selectEntries. destruct fileOrder; [|done]. by rewrite Hempty. }
  by apply restore_sort_keeps_order.
Qed.

Section SaveRestore.
Context `{StringOps}.
Variable entries : list FileEntry.
Variable order : list JsString.
Hypothesis order_normal : Forall (fun n => normalize n = n) order.
Hypothesis order_safe : Forall (fun n => sanitize n = n) order.
Hypothesis order_distinct : NoDup (map toLowerCase order).
Hypothesis directory : map fe_name (gifEntriesOf entries) ≡ₚ order.

Lemma saved_entry_name (e : FileEntry) :
  e ∈ gifEntriesOf entries ->
  fe_name e ∈ order /\ normalize (fe_name e) = fe_name e /\
  sanitize (fe_name e) = fe_name e.
Proof.
  intros He.
  assert (fe_name e ∈ order) as Hen.
  { rewrite <- directory. by apply (list_elem_of_fmap_2 fe_name). }
  rewrite Forall_forall in order_normal. rewrite Forall_forall in order_safe.
  split; [done|]. split; [by apply order_normal|by apply order_safe].
Qed.

(** Among the saved names, a name that designates an entry in one of the
    three ways of the restore is the name of the entry. *)
Lemma saved_name_match (n : JsString) (e : FileEntry) :
  n ∈ order -> e ∈ gifEntriesOf entries -> designates n e = true -> fe_name e = n.
Proof.
  intros Hn He Hm.
  destruct (saved_entry_name e He) as (Hen & Hnorm & Hsafe).
  rewrite Forall_forall in order_normal. rewrite Forall_forall in order_safe.
  unfold designates, exactMatch, caseMatch, sanitizedMatch, strEqb in Hm.
  rewrite Hnorm, (order_normal n Hn) in Hm.
  apply orb_true_iff in Hm as [Hm|Hm]; [apply orb_true_iff in Hm as [Hm|Hm]|];
    apply bool_decide_eq_true in Hm.
  - done.
  - by apply (NoDup_fmap_eq toLowerCase order).
  - by rewrite Hsafe, (order_safe n Hn) in Hm.
Qed.

Lemma saved_names_wellFormed : Forall wellFormedName order.
Proof.
  rewrite Forall_forall in order_normal. rewrite Forall_forall in order_safe.
  apply Forall_forall. intros n Hn. split; [by apply order_normal|by apply order_safe].
Qed.

Lemma saved_names_unambiguous : unambiguous (gifEntriesOf entries) order.
Proof.
  split; apply Forall_forall.
  - intros n Hn. apply (filter_NoDup_le_1 fe_name _ n).
    + rewrite directory. by apply (NoDup_of_fmap toLowerCase).
    + intros e He Hd. by apply saved_name_match.
  - intros e He. apply (filter_NoDup_le_1 (fun n => n) _ (fe_name e)).
    + rewrite map_id. by apply (NoDup_of_fmap toLowerCase).
    + intros n Hn Hd. symmetry. by apply saved_name_match.
Qed.

Lemma saved_name_resolves (n : JsString) :
  n ∈ order ->
  exists e, matchEntryByName (gifEntriesOf entries) n = Some e /\ fe_name e = n.
Proof.
  intros Hn.
  assert (n ∈ map fe_name (gifEntriesOf entries)) as Hin by (by rewrite directory).
  apply list_elem_of_fmap in Hin as (e0 & -> & He0).
  unfold matchEntryByName.
  destruct (find (nameMatches (fe_name e0)) (gifEntriesOf entries)) as [e|] eqn:Hf.
  - exists e. split; [done|]. apply find_some in Hf as [He Hm].
    apply list_elem_of_In in He. by apply (saved_name_match _ _ Hn He).
  - exfalso. apply list_elem_of_In in He0.
    pose proof (find_none _ _ Hf _ He0) as Hm.
    unfold nameMatches, strEqb in Hm.
    by rewrite bool_decide_eq_true_2 in Hm.
Qed.

Lemma saved_names_resolved (names : list JsString) :
  Forall (fun n => n ∈ order) names ->
  map fe_name (omap (matchEntryByName (gifEntriesOf entries)) names) = names.
Proof.
  induction 1 as [|n names Hn _ IH]; [done|].
  destruct (saved_name_resolves n Hn) as (e & Hm & He).
  rewrite omap_cons_match, Hm. cbn [map]. by rewrite He, IH.
Qed.

(** The restore of a directory that holds the files of [order] loads
    them in that order, and marks as the original the entry that bears a
    given name of the order. *)
Lemma restore_saved_order :
  map fe_name (restoreOrder entries order) = order /\
  forall o e loadedSoFar,
    o ∈ order -> o <> [] -> e ∈ restoreOrder entries order ->
    isOriginalEntry (Some o) (fe_name e) loadedSoFar = true <-> fe_name e = o.
Proof.
  assert (restoreOrder entries order
          = omap (matchEntryByName (gifEntriesOf entries)) order) as Hrestore.
  { apply restoreOrder_resolved.
    - intros Eo. rewrite Eo in directory.
      apply Permutation_nil_r in directory. by destruct (gifEntriesOf entries).
    - apply saved_names_wellFormed.
    - apply saved_names_unambiguous. }
  split.
  { rewrite Hrestore. apply saved_names_resolved. by apply Forall_forall. }
  intros o e loadedSoFar Hoin Hne He.
  assert (e ∈ gifEntriesOf entries) as Heg.
  { rewrite Hrestore in He. apply list_elem_of_omap in He as (n & _ & Hm).
    by apply matchEntryByName_Some in Hm as [Hin _]. }
  destruct (saved_entry_name e Heg) as (Hen & Hnorm & Hsafe).
  rewrite Forall_forall in order_normal.
  unfold isOriginalEntry. destruct o as [|c rest]; [done|].
  cbv zeta. rewrite Hnorm, Hsafe, (order_normal _ Hoin). unfold strEqb.
  split.
  - intros Hm.
    apply orb_true_iff in Hm as [Hm|Hm]; [apply orb_true_iff in Hm as [Hm|Hm]|];
      apply bool_decide_eq_true in Hm; [done|done|].
    by apply (NoDup_fmap_eq toLowerCase order).
  - intros ->. by rewrite bool_decide_eq_true_2.
Qed.
End SaveRestore.

(** X30. Saving a workspace and restoring it gives the versions back in
    their order, when the saved file names are in normal form, no two of
    them differ only in letter case and the GIF files that the restore
    sees in the directory are the saved ones: the names of the restored
    versions are the saved names, in the same order, and the entry marked
    as the original is the one saved as the original. This holds whatever
    the normalisation, lower-casing and collation of the platform are. *)
Theorem save_then_restore `{StringOps} (versions : list VersionItem)
    (copied : VersionItem -> bool) (entries : list FileEntry) :
  Forall (fun n => normalize n = n) (savedVersionsOrder versions copied) ->
  NoDup (map toLowerCase (savedVersionsOrder versions copied)) ->
  map fe_name (gifEntriesOf entries) ≡ₚ savedVersionsOrder versions copied ->
  map fe_name (restoreOrder entries (savedVersionsOrder versions copied))
  = savedVersionsOrder versions copied /\
  forall o, savedOriginalFile versions copied = Some o ->
    forall e loadedSoFar,
      e ∈ restoreOrder entries (savedVersionsOrder versions copied) ->
      isOriginalEntry (Some o) (fe_name e) loadedSoFar = true <-> fe_name e = o.
Proof.
  intros Hnormal Hdistinct Hdir.
  assert (Forall (fun n => sanitize n = n) (savedVersionsOrder versions copied)) as Hsafe.
  { apply Forall_forall. intros n Hn. by apply (savedVersionsOrder_safe versions copied). }
  destruct (restore_saved_order entries _ Hnormal Hsafe Hdistinct Hdir) as [Hnames Horig].
  split; [done|]. intros o Ho e loadedSoFar He.
  assert (o ∈ savedVersionsOrder versions copied) as Hoin.
  { unfold savedOriginalFile in Ho.
    destruct (find v_isOriginal versions) as [ov|]; [|done]. cbv zeta in Ho.
    destruct (decide (savedFileName (v_name ov) ∈ savedVersionsOrder versions copied))
      as [Hin|Hin].
    - rewrite bool_decide_eq_true_2 in Ho by done. by injection Ho as <-.
    - by rewrite bool_decide_eq_false_2 in Ho. }
  apply Horig; [done| |done].
  by apply (savedVersionsOrder_safe versions copied).
Qed.

Lemma save_then_restore_witness :
  let versions :=
    [mkVersion (js "v1") (js "cat.gif") (js "/w/cat.gif") true 3 300 0 [100; 100; 100];
     mkVersion (js "v2") (js "cat:fast") (js "/w/cat-fast.gif") false 3 150 0 [50; 50; 50]] in
  let entries := [gifFile "cat_fast.gif"; gifFile ".gifcut"; gifFile "cat.gif"] in
  savedVersionsOrder versions (fun _ => true) = [js "cat.gif"; js "cat_fast.gif"] /\
  map fe_name (@restoreOrder asciiOps entries [js "cat.gif"; js "cat_fast.gif"])
  = [js "cat.gif"; js "cat_fast.gif"].
Proof.
  cbv zeta. split; [reflexivity|].
  apply (@save_then_restore asciiOps
           [mkVersion (js "v1") (js "cat.gif") (js "/w/cat.gif") true 3 300 0 [100; 100; 100];
            mkVersion (js "v2") (js "cat:fast") (js "/w/cat-fast.gif") false 3 150 0
              [50; 50; 50]]
           (fun _ => true)
           [gifFile "cat_fast.gif"; gifFile ".gifcut"; gifFile "cat.gif"]).
  - repeat constructor.
  - vm_compute. repeat constructor; rewrite ?elem_of_cons, ?elem_of_nil; naive_solver.
  - vm_compute. apply Permutation_swap.
Defined.
